(** * A user-space heap allocator (umem.c): shallow embedding and properties

    The allocator manages one [mmap]ed region.  Every block starts with a
    [size_t] header holding its payload size; a free block keeps the address
    of the next free block in the first pointer-sized bytes of its payload.

    Modelling choices, all taken from the C source:
    - the target is LP64 and little-endian: [sizeof(size_t) = sizeof(void* ) = 8];
    - memory is byte addressed, a [size_t] or pointer access reads or writes
      eight consecutive bytes (the source performs accesses at byte offset 1
      from a header and at unaligned addresses, so words are not the unit);
    - [size_t] and pointer arithmetic wraps modulo [2^64];
    - an access outside the mapped region is a [Fault]; the region is the
      only memory of the model;
    - the global variables of umem.c are the fields of [state];
    - every loop takes a fuel argument and yields [OutOfFuel] when it runs dry,
      so that a loop that never ends is told apart from one that faults. *)

From Stdlib Require Import ZArith List Bool Lia.
Import ListNotations.
Open Scope Z_scope.

(** ** Machine words *)

Definition WORD : Z := 8.                 (* sizeof(size_t), sizeof(void* ) *)
Definition PAGE_SIZE : Z := 4096.
Definition UMEM_ERROR : Z := -1.
Definition SIZE_MAX : Z := 2 ^ 64 - 1.
Definition NULL : Z := 0.

Definition w64 (x : Z) : Z := x mod 2 ^ 64.

(** [x & ~(k - 1)] on 64-bit words. *)
Definition mask_down (x k : Z) : Z := Z.land x (Z.lxor SIZE_MAX (k - 1)).

(** [(size + k - 1) & ~(k - 1)] as the source writes it. *)
Definition align_up (size k : Z) : Z := mask_down (w64 (size + k - 1)) k.

(** ** Byte-addressed memory *)

Definition mem := Z -> Z.

Definition zero_mem : mem := fun _ => 0.

Definition byte_of (v i : Z) : Z := (v / 256 ^ i) mod 256.

Definition load64 (m : mem) (a : Z) : Z :=
  m a + 256 * (m (a + 1) + 256 * (m (a + 2) + 256 * (m (a + 3) +
  256 * (m (a + 4) + 256 * (m (a + 5) + 256 * (m (a + 6) + 256 * m (a + 7))))))).

Definition store64 (m : mem) (a v : Z) : mem :=
  fun x => if (a <=? x) && (x <? a + 8) then byte_of v (x - a) else m x.

(** ** Allocator state: the globals of umem.c *)

(** Modelled from the spec: umem.h is not part of the sources; the four
    strategy tags it declares are taken as distinct constants, and any other
    integer passed to [umeminit] as [OTHER_ALGO]. *)
Inductive algo := FIRST_FIT | BEST_FIT | WORST_FIT | NEXT_FIT | OTHER_ALGO.

Record state := mkState {
  heap : mem;
  memory_region : Z;
  free_list : Z;
  previous_allocated_size : Z;
  alloc_algo : algo;
  region_size : Z;
  is_initialized : bool;
  last_allocated : Z
}.

Definition set_heap (s : state) (m : mem) : state :=
  mkState m (memory_region s) (free_list s) (previous_allocated_size s)
          (alloc_algo s) (region_size s) (is_initialized s) (last_allocated s).

Definition set_free_list (s : state) (p : Z) : state :=
  mkState (heap s) (memory_region s) p (previous_allocated_size s)
          (alloc_algo s) (region_size s) (is_initialized s) (last_allocated s).

Definition set_last_allocated (s : state) (p : Z) : state :=
  mkState (heap s) (memory_region s) (free_list s) (previous_allocated_size s)
          (alloc_algo s) (region_size s) (is_initialized s) p.

Definition initial_state : state :=
  mkState zero_mem NULL NULL 0 OTHER_ALGO 0 false NULL.

(** ** Outcomes and the allocator monad *)

Inductive outcome (A : Type) : Type :=
| Done (a : A) (s : state)
| Fault
| OutOfFuel.
Arguments Done {A} a s.
Arguments Fault {A}.
Arguments OutOfFuel {A}.

Definition M (A : Type) : Type := state -> outcome A.

Definition ret {A} (a : A) : M A := fun s => Done a s.

Definition bind {A B} (c : M A) (k : A -> M B) : M B :=
  fun s => match c s with
           | Done a s' => k a s'
           | Fault => Fault
           | OutOfFuel => OutOfFuel
           end.

Notation "x <- c ;; k" := (bind c (fun x => k))
  (at level 61, c at next level, right associativity).
Notation "c ;;; k" := (bind c (fun _ => k))
  (at level 61, right associativity).

(** An eight-byte access at [a] stays inside the mapped region. *)
Definition in_region (s : state) (a : Z) : bool :=
  (memory_region s <=? a) && (a + WORD <=? memory_region s + region_size s).

Definition load (a : Z) : M Z :=
  fun s => if in_region s a then Done (load64 (heap s) a) s else Fault.

Definition store (a v : Z) : M unit :=
  fun s => if in_region s a then Done tt (set_heap s (store64 (heap s) a v))
           else Fault.

Definition get_free_list : M Z := fun s => Done (free_list s) s.
Definition put_free_list (p : Z) : M unit := fun s => Done tt (set_free_list s p).
Definition get_last_allocated : M Z := fun s => Done (last_allocated s) s.
Definition put_last_allocated (p : Z) : M unit :=
  fun s => Done tt (set_last_allocated s p).

(** A [void **] of the source points either at the global [free_list] or at a
    link field inside the region. *)
Inductive link := Head | Field (a : Z).

Definition read_link (l : link) : M Z :=
  match l with Head => get_free_list | Field a => load a end.

Definition write_link (l : link) (v : Z) : M unit :=
  match l with Head => put_free_list v | Field a => store a v end.

(** Header and link field of the block whose header is at [b]. *)
Definition size_at (b : Z) : M Z := load b.
Definition next_at (b : Z) : M Z := load (w64 (b + WORD)).

(** ** umeminit *)

Definition MAP_FAILED : Z := SIZE_MAX.

(** [mmap_result] is the answer of the operating system to the [mmap] call:
    [None] for [MAP_FAILED], [Some base] for a fresh zero-filled mapping. *)
Definition umeminit (mmap_result : option Z) (sizeOfRegion : Z)
                    (allocationAlgo : algo) : M Z :=
  fun s =>
    if is_initialized s then Done UMEM_ERROR s
    else if sizeOfRegion <=? 0 then Done UMEM_ERROR s
    else
      let sizeOfRegion := mask_down (w64 (sizeOfRegion + PAGE_SIZE - 1)) PAGE_SIZE in
      match mmap_result with
      | None =>
          Done UMEM_ERROR
               (mkState (heap s) MAP_FAILED (free_list s)
                        (previous_allocated_size s) (alloc_algo s)
                        (region_size s) (is_initialized s) (last_allocated s))
      | Some base =>
          let m := store64 (store64 zero_mem base (w64 (sizeOfRegion - WORD)))
                           (w64 (base + WORD)) NULL in
          Done 0 (mkState m base base sizeOfRegion allocationAlgo
                          sizeOfRegion true (last_allocated s))
      end.

(** ** First fit *)

Fixpoint first_fit_loop (fuel : nat) (size prev_block current_block : Z) : M Z :=
  match fuel with
  | O => fun _ => OutOfFuel
  | S fuel' =>
      if current_block =? NULL then ret NULL
      else
        block_size <- size_at current_block ;;
        if size <=? block_size then
          (if w64 (size + WORD) <? block_size then
             let new_block := w64 (current_block + WORD + size) in
             store new_block (w64 (block_size - size - WORD)) ;;;
             nxt <- next_at current_block ;;
             store (w64 (new_block + WORD)) nxt ;;;
             store current_block size ;;;
             (if prev_block =? NULL then ret tt
              else store (w64 (prev_block + 1)) new_block)
           else ret tt) ;;;
          (if prev_block =? NULL then
             nxt <- next_at current_block ;; put_free_list nxt
           else
             nxt <- next_at current_block ;; store (w64 (prev_block + 1)) nxt) ;;;
          ret (w64 (current_block + WORD))
        else
          nxt <- next_at current_block ;;
          first_fit_loop fuel' size current_block nxt
  end.

Definition first_fit_algorithm (fuel : nat) (size : Z) : M Z :=
  let size := mask_down (w64 (size + 7)) 8 in
  current_block <- get_free_list ;;
  first_fit_loop fuel size NULL current_block.

(** ** Best fit *)

(** The scan returns [(best_block, best_prev_pointer)]. *)
Fixpoint best_fit_scan (fuel : nat) (size : Z)
         (best_block : Z) (best_prev_pointer : link) (smallest_diff : Z)
         (prev_pointer : link) (current_block : Z) : M (Z * link) :=
  match fuel with
  | O => fun _ => OutOfFuel
  | S fuel' =>
      if current_block =? NULL then ret (best_block, best_prev_pointer)
      else
        current_size <- size_at current_block ;;
        let diff := w64 (current_size - size) in
        let better := (size <=? current_size) && (diff <? smallest_diff) in
        let prev_pointer' := Field (w64 (current_block + WORD)) in
        nxt <- read_link prev_pointer' ;;
        best_fit_scan fuel' size
                      (if better then current_block else best_block)
                      (if better then prev_pointer else best_prev_pointer)
                      (if better then diff else smallest_diff)
                      prev_pointer' nxt
  end.

Definition best_fit_algorithm (fuel : nat) (size : Z) : M Z :=
  let size := align_up size WORD in
  current_block <- get_free_list ;;
  r <- best_fit_scan fuel size NULL Head SIZE_MAX Head current_block ;;
  let '(best_block, best_prev_pointer) := r in
  if best_block =? NULL then ret NULL
  else
    bs <- size_at best_block ;;
    let remaining_size := w64 (bs - size) in
    (if WORD + WORD <? remaining_size then
       let new_block := w64 (best_block + WORD + size) in
       store new_block (w64 (remaining_size - WORD)) ;;;
       nxt <- next_at best_block ;;
       store (w64 (new_block + WORD)) nxt ;;;
       store best_block size ;;;
       write_link best_prev_pointer new_block
     else
       nxt <- next_at best_block ;;
       write_link best_prev_pointer nxt) ;;;
    ret (w64 (best_block + WORD)).

(** ** Worst fit *)

Fixpoint worst_fit_scan (fuel : nat) (size : Z)
         (worst_block : Z) (worst_prev_pointer : link) (largest_diff : Z)
         (prev_pointer : link) (current_block : Z) : M (Z * link) :=
  match fuel with
  | O => fun _ => OutOfFuel
  | S fuel' =>
      if current_block =? NULL then ret (worst_block, worst_prev_pointer)
      else
        current_size <- size_at current_block ;;
        let diff := w64 (current_size - size) in
        let worse := (size <=? current_size) && (largest_diff <? diff) in
        let prev_pointer' := Field (w64 (current_block + WORD)) in
        nxt <- read_link prev_pointer' ;;
        worst_fit_scan fuel' size
                       (if worse then current_block else worst_block)
                       (if worse then prev_pointer else worst_prev_pointer)
                       (if worse then diff else largest_diff)
                       prev_pointer' nxt
  end.

Definition worst_fit_algorithm (fuel : nat) (size : Z) : M Z :=
  current_block <- get_free_list ;;
  r <- worst_fit_scan fuel size NULL Head 0 Head current_block ;;
  let '(worst_block, worst_prev_pointer) := r in
  if worst_block =? NULL then ret NULL
  else
    ws <- size_at worst_block ;;
    let remaining_size := w64 (ws - size - WORD) in
    (if WORD <? remaining_size then
       let new_block := w64 (worst_block + WORD + size) in
       store new_block remaining_size ;;;
       nxt <- next_at worst_block ;;
       store (w64 (new_block + WORD)) nxt ;;;
       write_link worst_prev_pointer new_block
     else
       nxt <- next_at worst_block ;;
       write_link worst_prev_pointer nxt) ;;;
    store worst_block size ;;;
    ret (w64 (worst_block + WORD)).

(** ** Next fit *)

(** The guard at the head of [next_fit_algorithm]. *)
Definition cursor_out_of_bounds (s : state) : bool :=
  (last_allocated s =? NULL)
  || (last_allocated s <? memory_region s)
  || (w64 (memory_region s + region_size s) <=? last_allocated s).

Definition next_fit_guard : M unit :=
  fun s => if cursor_out_of_bounds s
           then Done tt (set_last_allocated s (free_list s))
           else Done tt s.

(** The [do ... while (last_allocated != start)] loop. *)
Fixpoint next_fit_loop (fuel : nat) (size start : Z) : M Z :=
  match fuel with
  | O => fun _ => OutOfFuel
  | S fuel' =>
      cur <- get_last_allocated ;;
      current_size <- size_at cur ;;
      if size <=? current_size then
        let remaining_size := w64 (current_size - size - WORD) in
        (if WORD * 2 <? remaining_size then
           let new_block := w64 (cur + size + WORD) in
           store new_block remaining_size ;;;
           nxt <- next_at cur ;;
           store (w64 (new_block + WORD)) nxt ;;;
           store cur size ;;;
           put_last_allocated new_block
         else ret tt) ;;;
        cur' <- get_last_allocated ;;
        ret (w64 (cur' + WORD))
      else
        nxt <- next_at cur ;;
        put_last_allocated nxt ;;;
        (if nxt =? NULL then fl <- get_free_list ;; put_last_allocated fl
         else ret tt) ;;;
        cur' <- get_last_allocated ;;
        if cur' =? start then ret NULL
        else next_fit_loop fuel' size start
  end.

Definition next_fit_algorithm (fuel : nat) (size : Z) : M Z :=
  let size := align_up size WORD in
  next_fit_guard ;;;
  start <- get_last_allocated ;;
  next_fit_loop fuel size start.

(** ** umalloc *)

Definition umalloc (fuel : nat) (size : Z) : M Z :=
  fun s =>
    match alloc_algo s with
    | FIRST_FIT => first_fit_algorithm fuel size s
    | BEST_FIT => best_fit_algorithm fuel size s
    | WORST_FIT => worst_fit_algorithm fuel size s
    | NEXT_FIT => next_fit_algorithm fuel size s
    | OTHER_ALGO => Done NULL s
    end.

(** ** ufree and the coalescer *)

Fixpoint coalescing_loop (fuel : nat) (current_block : Z) : M unit :=
  match fuel with
  | O => fun _ => OutOfFuel
  | S fuel' =>
      if current_block =? NULL then ret tt
      else
        next_block <- next_at current_block ;;
        if next_block =? NULL then ret tt
        else
          cs <- size_at current_block ;;
          if w64 (current_block + cs + WORD) =? next_block then
            ns <- size_at next_block ;;
            store current_block (w64 (cs + w64 (ns + WORD))) ;;;
            nn <- next_at next_block ;;
            store (w64 (current_block + WORD)) nn ;;;
            coalescing_loop fuel' current_block
          else
            coalescing_loop fuel' next_block
  end.

Definition coalescing_memory (fuel : nat) : M unit :=
  current_block <- get_free_list ;;
  coalescing_loop fuel current_block.

(** The insertion-point search of [ufree]: returns [(prev_block, current_block)]. *)
Fixpoint ufree_scan (fuel : nat) (block_to_free prev_block current_block : Z)
  : M (Z * Z) :=
  match fuel with
  | O => fun _ => OutOfFuel
  | S fuel' =>
      if (negb (current_block =? NULL)) && (current_block <? block_to_free) then
        nxt <- next_at current_block ;;
        ufree_scan fuel' block_to_free current_block nxt
      else ret (prev_block, current_block)
  end.

(** Search for the insertion point, then link the block in. *)
Definition ufree_insert (fuel : nat) (block_to_free : Z) : M unit :=
  head <- get_free_list ;;
  r <- ufree_scan fuel block_to_free NULL head ;;
  let '(prev_block, current_block) := r in
  (if negb (prev_block =? NULL)
   then store (w64 (prev_block + WORD)) block_to_free
   else put_free_list block_to_free) ;;;
  store (w64 (block_to_free + WORD)) current_block.

Definition ufree (fuel : nat) (ptr : Z) : M Z :=
  if ptr =? NULL then ret UMEM_ERROR
  else
    let block_to_free := w64 (ptr - WORD) in
    block_size <- size_at block_to_free ;;
    ufree_insert fuel block_to_free ;;;
    coalescing_memory fuel ;;;
    ret 0.

(** ** umemdump: the rows [(block_number, size, address)] it prints *)

Fixpoint umemdump_loop (fuel : nat) (block_number current_block : Z)
  : M (list (Z * Z * Z)) :=
  match fuel with
  | O => fun _ => OutOfFuel
  | S fuel' =>
      if current_block =? NULL then ret []
      else
        sz <- size_at current_block ;;
        nxt <- next_at current_block ;;
        rest <- umemdump_loop fuel' (w64 (block_number + 1)) nxt ;;
        ret ((block_number, sz, current_block) :: rest)
  end.

Definition umemdump (fuel : nat) : M (list (Z * Z * Z)) :=
  current_block <- get_free_list ;;
  umemdump_loop fuel 1 current_block.

(** ** print_free_list: the rows [(address, size, next)] it prints *)

Fixpoint print_free_list_loop (fuel : nat) (current : Z)
  : M (list (Z * Z * Z)) :=
  match fuel with
  | O => fun _ => OutOfFuel
  | S fuel' =>
      if current =? NULL then ret []
      else
        current_size <- size_at current ;;
        next <- next_at current ;;
        rest <- print_free_list_loop fuel' next ;;
        ret ((current, current_size, next) :: rest)
  end.

Definition print_free_list (fuel : nat) : M (list (Z * Z * Z)) :=
  current <- get_free_list ;;
  print_free_list_loop fuel current.

(** ** allocate_memory_block: a splitter that no strategy calls *)

Fixpoint find_prev_loop (fuel : nat) (block prev_block : Z) : M Z :=
  match fuel with
  | O => fun _ => OutOfFuel
  | S fuel' =>
      if prev_block =? NULL then ret NULL
      else
        nxt <- next_at prev_block ;;
        if nxt =? block then ret prev_block
        else find_prev_loop fuel' block nxt
  end.

Definition allocate_memory_block (fuel : nat) (block requested_size : Z) : M Z :=
  block_size <- size_at block ;;
  (if w64 (requested_size + WORD + WORD) <? block_size then
     let remaining_size := w64 (block_size - requested_size - WORD) in
     let new_block := w64 (block + WORD + requested_size) in
     store new_block remaining_size ;;;
     nxt <- next_at block ;;
     store (w64 (new_block + WORD)) nxt ;;;
     store block requested_size
   else
     next_block <- next_at block ;;
     head <- get_free_list ;;
     if block =? head then put_free_list next_block
     else
       prev_block <- find_prev_loop fuel block head ;;
       if prev_block =? NULL then ret tt
       else store (w64 (prev_block + WORD)) next_block) ;;;
  ret (w64 (block + WORD)).

(** * Specification vocabulary *)

(** A block is named by the address of its header and its recorded size. *)
Definition block : Type := Z * Z.

Definition block_end (b : block) : Z := fst b + WORD + snd b.

(** ** The Free Registry as observed by a traversal from [free_list] *)

Definition registry_of (fuel : nat) (s : state) : option (list block) :=
  match umemdump fuel s with
  | Done rows _ => Some (map (fun r => (snd r, snd (fst r))) rows)
  | _ => None
  end.

(** ** A driver: sequences of allocate and release calls

    The driver keeps the payload pointers it has been handed and has not yet
    released ([live]); [Release i] releases the [i]-th of them. *)

Inductive call := Allocate (n : Z) | Release (i : nat).

Fixpoint remove_nth {A} (i : nat) (l : list A) : list A :=
  match l, i with
  | [], _ => []
  | _ :: l', O => l'
  | x :: l', S i' => x :: remove_nth i' l'
  end.

Fixpoint run_calls (fuel : nat) (cs : list call) (live : list Z) : M (list Z) :=
  match cs with
  | [] => ret live
  | Allocate n :: cs' =>
      p <- umalloc fuel n ;;
      run_calls fuel cs' (if p =? NULL then live else live ++ [p])
  | Release i :: cs' =>
      match nth_error live i with
      | Some p => ufree fuel p ;;; run_calls fuel cs' (remove_nth i live)
      | None => run_calls fuel cs' live
      end
  end.

(** ** The partition invariant, executable

    The blocks of a state are the registry entries together with the blocks
    of the live pointers; ordered by address they must follow each other from
    the region base to the region end. *)

Fixpoint insert_by_address (b : block) (l : list block) : list block :=
  match l with
  | [] => [b]
  | c :: l' => if fst b <=? fst c then b :: l else c :: insert_by_address b l'
  end.

Definition sort_by_address (l : list block) : list block :=
  fold_right insert_by_address [] l.

Fixpoint tiles (pos stop : Z) (l : list block) : bool :=
  match l with
  | [] => pos =? stop
  | b :: l' => (fst b =? pos) && tiles (block_end b) stop l'
  end.

Definition allocated_blocks (s : state) (live : list Z) : list block :=
  map (fun p => (p - WORD, load64 (heap s) (p - WORD))) live.

Definition partition_ok (fuel : nat) (s : state) (live : list Z) : bool :=
  match registry_of fuel s with
  | Some free =>
      tiles (memory_region s) (memory_region s + region_size s)
            (sort_by_address (free ++ allocated_blocks s live))
  | None => false
  end.

(** The same invariant read off the headers alone: starting at the region
    base, each header leads to the next one and the walk ends exactly at the
    region end. *)
Fixpoint header_walk (fuel : nat) (s : state) (pos : Z) : bool :=
  match fuel with
  | O => false
  | S fuel' =>
      if pos =? memory_region s + region_size s then true
      else in_region s pos
           && header_walk fuel' s (pos + WORD + load64 (heap s) pos)
  end.

(** ** Concrete starting states: a 4096-byte request mapped at [0x10000] *)

Definition base0 : Z := 65536.

Definition fresh (a : algo) : state :=
  match umeminit (Some base0) 4096 a initial_state with
  | Done _ s => s
  | _ => initial_state
  end.

Definition after {A} (c : M A) (s : state) : state :=
  match c s with Done _ s' => s' | _ => s end.

Definition result {A} (c : M A) (s : state) : option A :=
  match c s with Done a _ => Some a | _ => None end.

Definition diverges {A} (c : nat -> M A) (s : state) : Prop :=
  forall fuel, c fuel s = OutOfFuel.

(** ** Three statements of the specification, for one call

    Each is the property the specification asserts of every call, written
    for the call at hand so that it can be tried on a given state. *)

(** The header of a returned block holds the aligned request. *)
Definition header_is_aligned_request (fuel : nat) (n : Z) (s : state) : Prop :=
  forall p s', umalloc fuel n s = Done p s' -> p <> NULL ->
    load64 (heap s') (p - WORD) = align_up n WORD.

(** A cursor that is not a registry entry is reset to the registry head. *)
Definition cursor_reset_when_off_registry (fuel : nat) (s : state) : Prop :=
  forall l, registry_of fuel s = Some l ->
    ~ In (last_allocated s) (map fst l) ->
    last_allocated (after next_fit_guard s) = free_list s.

(** The chosen block is split exactly when its size exceeds the aligned
    request by more than a header and a pointer; split, the prefix keeps the
    aligned request and the remainder is a registry entry; unsplit, the
    header is untouched and the block has left the registry. *)
Definition splits_by_stated_rule (fuel : nat) (n : Z) (s : state) : Prop :=
  forall p s', umalloc fuel n s = Done p s' -> p <> NULL ->
    let b := p - WORD in
    let bs := load64 (heap s) b in
    let size := align_up n WORD in
    if size + WORD + WORD <? bs then
      load64 (heap s') b = size /\
      exists l, registry_of fuel s' = Some l /\
                In (b + WORD + size, bs - size - WORD) l
    else
      load64 (heap s') b = bs /\
      forall l, registry_of fuel s' = Some l -> ~ In b (map fst l).

(** States used by the concrete scenarios. *)

(** Next fit after [umalloc(100)]: the cursor sits on the split remainder. *)
Definition nf1 : state := after (umalloc 10 100) (fresh NEXT_FIT).

(** Next fit after [umalloc(4080)]: the only block was handed out whole. *)
Definition nf_whole : state := after (umalloc 10 4080) (fresh NEXT_FIT).

(** ... and after [ufree] has linked that block in, before coalescing. *)
Definition nf_linked : state := after (ufree_insert 1 base0) nf_whole.

(** Best fit with two free blocks: after [umalloc(100)], [umalloc(100)] and
    the release of the first block. *)
Definition bf2 : state :=
  after (run_calls 10 [Allocate 100; Allocate 100; Release 0] [])
        (fresh BEST_FIT).

(** Best fit after [umalloc(100)] twice: two live blocks, one free block. *)
Definition bf_two_live : state :=
  after (run_calls 10 [Allocate 100; Allocate 100] []) (fresh BEST_FIT).

(** Next fit after three allocate/release pairs of 8, 16 and 4056 bytes. *)
Definition nf_three_pairs_calls : list call :=
  [Allocate 8; Release 0; Allocate 16; Release 0; Allocate 4056; Release 0].

Definition nf_three_pairs : state :=
  after (run_calls 10 nf_three_pairs_calls []) (fresh NEXT_FIT).

(** ** The Free Registry as a linked list laid out in the region *)

(** [lseg s a l z]: following the link fields from [a] one meets the headers
    of [l], in order, with the recorded sizes, and arrives at [z]. *)
Fixpoint lseg (s : state) (a : Z) (l : list block) (z : Z) : Prop :=
  match l with
  | [] => a = z
  | e :: l' =>
      a = fst e /\ load64 (heap s) (fst e) = snd e /\
      lseg s (load64 (heap s) (fst e + WORD)) l' z
  end.

(** [chain_ok lo hi l]: the blocks of [l] lie between [lo] and [hi] in
    ascending address order without overlapping, and each payload has room
    for the link field. *)
Fixpoint chain_ok (lo hi : Z) (l : list block) : Prop :=
  match l with
  | [] => lo <= hi
  | e :: l' => lo <= fst e /\ WORD <= snd e /\ chain_ok (block_end e) hi l'
  end.

Definition region_ok (s : state) : Prop :=
  0 < memory_region s /\ memory_region s + region_size s < 2 ^ 64.

(** The registry of [s] is the list [l]: address ordered, inside the region. *)
Definition registry (s : state) (l : list block) : Prop :=
  region_ok s /\
  lseg s (free_list s) l NULL /\
  chain_ok (memory_region s) (memory_region s + region_size s) l.

(** The location that holds the address of the block following [pre]. *)
Definition link_after (pre : list block) : link :=
  match rev pre with
  | [] => Head
  | e :: _ => Field (fst e + WORD)
  end.

(** Merging of neighbours, as a function on address-ordered lists. *)
Fixpoint coalesce_from (cur : block) (rest : list block) : list block :=
  match rest with
  | [] => [cur]
  | nxt :: rest' =>
      if block_end cur =? fst nxt
      then coalesce_from (fst cur, snd cur + snd nxt + WORD) rest'
      else cur :: coalesce_from nxt rest'
  end.

Definition coalesce (l : list block) : list block :=
  match l with
  | [] => []
  | cur :: rest => coalesce_from cur rest
  end.

Definition no_adjacent (l : list block) : Prop :=
  forall e1 e2, In e1 l -> In e2 l -> block_end e1 <> fst e2.

(** Two heaps agree on every word that lies outside [[lo, hi)]. *)
Definition agree_outside (lo hi : Z) (m m' : mem) : Prop :=
  forall a, a + WORD <= lo \/ hi <= a -> load64 m' a = load64 m a.

(** Invariant of the best-fit scan: [best] is the first block of least
    excess among the blocks [seen] so far, [bestp] the link that leads to
    it and [sd] its excess; or no block seen so far is large enough. *)
Definition best_so_far (size : Z) (seen : list block)
           (best : Z) (bestp : link) (sd : Z) : Prop :=
  (best = NULL /\ sd = SIZE_MAX /\ forall x, In x seen -> snd x < size) \/
  (exists pre e post,
      seen = pre ++ e :: post /\ best = fst e /\ bestp = link_after pre /\
      sd = snd e - size /\ size <= snd e /\
      (forall x, In x pre -> size <= snd x -> snd e < snd x) /\
      (forall x, In x post -> size <= snd x -> snd e <= snd x)).

(** A computation that leaves the bounds of the region alone. *)
Definition keeps_region {A} (c : M A) : Prop :=
  forall s a s', c s = Done a s' ->
    memory_region s' = memory_region s /\ region_size s' = region_size s.

(** [apart lo l]: the blocks of [l] are in ascending address order with at
    least one byte between any block and the next, the first above [lo]. *)
Fixpoint apart (lo : Z) (l : list block) : Prop :=
  match l with
  | [] => True
  | e :: l' => lo < fst e /\ 0 <= snd e /\ apart (block_end e) l'
  end.

(** ** Further vocabulary *)

(** The rows of a dump of [l], numbered from [k]. *)
Fixpoint numbered (k : Z) (l : list block) : list (Z * Z * Z) :=
  match l with
  | [] => []
  | e :: l' => (k, snd e, fst e) :: numbered (k + 1) l'
  end.

(** The rows of [print_free_list] for [l]: each block with the address of
    the one that follows it. *)
Fixpoint linked (l : list block) : list (Z * Z * Z) :=
  match l with
  | [] => []
  | e :: l' =>
      (fst e, snd e, match l' with [] => NULL | y :: _ => fst y end)
        :: linked l'
  end.

(** The bytes a list of blocks covers, headers included. *)
Fixpoint footprint (l : list block) : Z :=
  match l with
  | [] => 0
  | e :: l' => WORD + snd e + footprint l'
  end.

(** Every recorded size is a multiple of the word size. *)
Definition word_sized (l : list block) : Prop :=
  forall x, In x l -> snd x mod 8 = 0.

(** Invariant of the worst-fit scan: [worst] is the first block of largest
    size among the blocks [seen] so far, provided it is larger than the
    request, [wp] the link that leads to it and [ld] its excess; or no block
    seen so far is larger than the request. *)
Definition worst_so_far (size : Z) (seen : list block)
           (worst : Z) (wp : link) (ld : Z) : Prop :=
  (worst = NULL /\ ld = 0 /\ forall x, In x seen -> snd x <= size) \/
  (exists pre e post,
      seen = pre ++ e :: post /\ worst = fst e /\ wp = link_after pre /\
      ld = snd e - size /\ size < snd e /\
      (forall x, In x pre -> snd x < snd e) /\
      (forall x, In x post -> snd x <= snd e)).

(** Worst fit with two free blocks: after [umalloc(104)], [umalloc(104)]
    and the release of the first block. *)
Definition wf2 : state :=
  after (run_calls 10 [Allocate 104; Allocate 104; Release 0] [])
        (fresh WORST_FIT).

(** A computation that leaves an observation [f] of the state alone. *)
Definition keeps {X A} (f : state -> X) (c : M A) : Prop :=
  forall s a s', c s = Done a s' -> f s' = f s.

(** The block the next-fit scan starts on: the cursor once the guard at the
    head of [next_fit_algorithm] has looked at it. *)
Definition next_fit_cursor (s : state) : Z :=
  last_allocated (after next_fit_guard s).

(** The free list of [bf2], two blocks, handed to first fit. *)
Definition ff2 : state :=
  mkState (heap bf2) (memory_region bf2) (free_list bf2)
          (previous_allocated_size bf2) FIRST_FIT (region_size bf2)
          (is_initialized bf2) (last_allocated bf2).

(** Best fit with both live blocks of [bf_two_live] linked back in by the
    insertion step of [ufree], before any merging: three free blocks, each
    ending where the next begins. *)
Definition bf_unmerged : state :=
  after (ufree_insert 5 (base0 + 112) ;;; ufree_insert 5 base0) bf_two_live.

(** Next fit with two free blocks and the cursor on the first: four
    allocations, the last served whole from the list head after the scan
    wrapped round, then the release of the second pointer. *)
Definition nf_scan : state :=
  after (run_calls 10 [Allocate 100; Allocate 8; Allocate 3928; Allocate 80;
                       Release 1] [])
        (fresh NEXT_FIT).

(** * Memory and monad lemmas *)

Lemma w64_small x : 0 <= x < 2 ^ 64 -> w64 x = x.
Proof. intros H. unfold w64. apply Z.mod_small. exact H. Qed.

Lemma bytes_recombine v :
  byte_of v 0 + 256 * (byte_of v 1 + 256 * (byte_of v 2 + 256 * (byte_of v 3 +
  256 * (byte_of v 4 + 256 * (byte_of v 5 + 256 * (byte_of v 6 +
  256 * byte_of v 7)))))) = w64 v.
Proof.
  unfold byte_of, w64.
  change (2 ^ 64) with (256 * (256 * (256 * (256 * (256 * (256 * (256 * 256))))))).
  change (256 ^ 0) with 1. rewrite Z.div_1_r.
  change (256 ^ 1) with 256.
  change (256 ^ 2) with (256 * 256).
  change (256 ^ 3) with (256 * 256 * 256).
  change (256 ^ 4) with (256 * 256 * 256 * 256).
  change (256 ^ 5) with (256 * 256 * 256 * 256 * 256).
  change (256 ^ 6) with (256 * 256 * 256 * 256 * 256 * 256).
  change (256 ^ 7) with (256 * 256 * 256 * 256 * 256 * 256 * 256).
  rewrite <- !Z.div_div by lia.
  rewrite !Z.rem_mul_r by lia.
  reflexivity.
Qed.

Lemma load_store_same m a v : load64 (store64 m a v) a = w64 v.
Proof.
  rewrite <- bytes_recombine. unfold load64, store64.
  replace (a <=? a) with true by (symmetry; apply Z.leb_le; lia).
  repeat match goal with
  | |- context [ (a <=? a + ?k) ] =>
      replace (a <=? a + k) with true by (symmetry; apply Z.leb_le; lia)
  end.
  replace (a <? a + 8) with true by (symmetry; apply Z.ltb_lt; lia).
  repeat match goal with
  | |- context [ (a + ?k <? a + 8) ] =>
      replace (a + k <? a + 8) with true by (symmetry; apply Z.ltb_lt; lia)
  end.
  cbn [andb].
  replace (a - a) with 0 by lia.
  repeat match goal with
  | |- context [ a + ?k - a ] => replace (a + k - a) with k by lia
  end.
  reflexivity.
Qed.

Lemma load_store_other m a v b :
  b + 8 <= a \/ a + 8 <= b -> load64 (store64 m a v) b = load64 m b.
Proof.
  intros H. unfold load64, store64.
  assert (E : forall k, 0 <= k < 8 ->
            (if (a <=? b + k) && (b + k <? a + 8) then byte_of v (b + k - a)
             else m (b + k)) = m (b + k)).
  { intros k Hk.
    destruct (a <=? b + k) eqn:E1; destruct (b + k <? a + 8) eqn:E2;
      cbn [andb]; try reflexivity.
    apply Z.leb_le in E1. apply Z.ltb_lt in E2. lia. }
  pose proof (E 0) as E0. rewrite Z.add_0_r in E0.
  rewrite E0, !E by lia. reflexivity.
Qed.

(** Running a computation whose result is known. *)
Lemma done_intro {A} (c : M A) (s : state) (a : A) :
  result c s = Some a -> c s = Done a (after c s).
Proof.
  unfold result, after. destruct (c s); intros H; inversion H; reflexivity.
Qed.

Lemma load_ok (s : state) (a : Z) :
  in_region s a = true -> load a s = Done (load64 (heap s) a) s.
Proof. intros H. unfold load. rewrite H. reflexivity. Qed.

Lemma store_ok (s : state) (a v : Z) :
  in_region s a = true ->
  store a v s = Done tt (set_heap s (store64 (heap s) a v)).
Proof. intros H. unfold store. rewrite H. reflexivity. Qed.

Lemma set_last_allocated_twice s a b :
  set_last_allocated (set_last_allocated s a) b = set_last_allocated s b.
Proof. reflexivity. Qed.

(** Closed goals over concrete states are settled by evaluation. *)
Ltac closed := vm_compute; first [reflexivity | congruence].

(** * Loops that never end *)

(** One turn of the next-fit loop on a block that is too small. *)
Lemma next_fit_loop_miss fuel size start s :
  in_region s (last_allocated s) = true ->
  in_region s (w64 (last_allocated s + WORD)) = true ->
  load64 (heap s) (last_allocated s) < size ->
  forall cur',
  cur' = (if load64 (heap s) (w64 (last_allocated s + WORD)) =? NULL
          then free_list s
          else load64 (heap s) (w64 (last_allocated s + WORD))) ->
  cur' <> start ->
  next_fit_loop (S fuel) size start s
  = next_fit_loop fuel size start (set_last_allocated s cur').
Proof.
  intros H1 H2 H3 cur' E H6. destruct s as [m base fl pas al rs ini la].
  cbn [last_allocated free_list heap] in *.
  cbn [next_fit_loop]. unfold bind at 1. cbn [get_last_allocated last_allocated].
  unfold bind at 1. unfold size_at, load at 1. rewrite H1. cbn [heap].
  replace (size <=? load64 m la) with false by (symmetry; apply Z.leb_gt; exact H3).
  unfold bind at 1. unfold next_at, load at 1. rewrite H2. cbn [heap].
  unfold bind at 1. unfold put_last_allocated at 1.
  unfold bind at 1.
  destruct (load64 m (w64 (la + WORD)) =? NULL) eqn:En;
    unfold bind, put_last_allocated, get_free_list, get_last_allocated,
      set_last_allocated, ret;
    cbn [last_allocated free_list heap memory_region previous_allocated_size
         alloc_algo region_size is_initialized];
    subst cur';
    (replace (fl =? start) with false by (symmetry; apply Z.eqb_neq; exact H6)) ||
    (replace (load64 m (w64 (la + WORD)) =? start) with false
       by (symmetry; apply Z.eqb_neq; exact H6));
    reflexivity.
Qed.

(** One turn of the coalescer on two blocks that are not adjacent. *)
Lemma coalescing_loop_advance fuel cur s :
  cur <> NULL ->
  in_region s (w64 (cur + WORD)) = true ->
  load64 (heap s) (w64 (cur + WORD)) <> NULL ->
  in_region s cur = true ->
  w64 (cur + load64 (heap s) cur + WORD) <> load64 (heap s) (w64 (cur + WORD)) ->
  coalescing_loop (S fuel) cur s
  = coalescing_loop fuel (load64 (heap s) (w64 (cur + WORD))) s.
Proof.
  intros H0 H1 H2 H3 H4. cbn [coalescing_loop].
  replace (cur =? NULL) with false by (symmetry; apply Z.eqb_neq; exact H0).
  unfold bind at 1. unfold next_at. rewrite (load_ok s _ H1).
  replace (load64 (heap s) (w64 (cur + WORD)) =? NULL) with false
    by (symmetry; apply Z.eqb_neq; exact H2).
  unfold bind at 1. unfold size_at. rewrite (load_ok s _ H3).
  replace (w64 (cur + load64 (heap s) cur + WORD) =? load64 (heap s) (w64 (cur + WORD)))
    with false by (symmetry; apply Z.eqb_neq; exact H4).
  reflexivity.
Qed.

(** The insertion search stops at once on a head that is not below the block. *)
Lemma ufree_insert_head fuel b s :
  (negb (free_list s =? NULL) && (free_list s <? b)) = false ->
  ufree_insert (S fuel) b s = ufree_insert 1 b s.
Proof.
  intros H. unfold ufree_insert, bind, get_free_list. cbn [ufree_scan].
  rewrite H. reflexivity.
Qed.

(** * Concrete scenarios *)

(** Next fit, after [umalloc(100)] on a fresh region: a scan for 4000 bytes
    starts on the split remainder, which is not linked into the free list,
    wraps to the list head and then goes round the list without ever
    meeting its starting point again. *)
Lemma next_fit_scan_spins : diverges (fun fuel => umalloc fuel 4000) nf1.
Proof.
  assert (spin : forall fuel, next_fit_loop fuel 4000 (base0 + 112)
                                (set_last_allocated nf1 base0) = OutOfFuel).
  { induction fuel as [|fuel IH]; [reflexivity|].
    rewrite (next_fit_loop_miss fuel 4000 (base0 + 112)
               (set_last_allocated nf1 base0)
               ltac:(closed) ltac:(closed) ltac:(closed) base0
               ltac:(closed) ltac:(closed)).
    rewrite set_last_allocated_twice. exact IH. }
  intros fuel.
  change (umalloc fuel 4000 nf1)
    with (next_fit_loop fuel 4000 (base0 + 112) nf1).
  destruct fuel as [|fuel]; [reflexivity|].
  rewrite (next_fit_loop_miss fuel 4000 (base0 + 112) nf1
             ltac:(closed) ltac:(closed) ltac:(closed) base0
             ltac:(closed) ltac:(closed)).
  apply spin.
Qed.

(** Next fit, after [umalloc(4080)] on a fresh region: the only block was
    handed out without being unlinked; [ufree] links it in front of itself
    and the coalescer follows that one-block cycle for ever. *)
Lemma release_spins_on_self_link :
  diverges (fun fuel => ufree fuel (base0 + 8)) nf_whole.
Proof.
  assert (spin : forall fuel, coalescing_loop fuel base0 nf_linked = OutOfFuel).
  { induction fuel as [|fuel IH]; [reflexivity|].
    rewrite (coalescing_loop_advance fuel base0 nf_linked
               ltac:(closed) ltac:(closed) ltac:(closed) ltac:(closed)
               ltac:(closed)).
    change (load64 (heap nf_linked) (w64 (base0 + WORD))) with base0.
    exact IH. }
  intros [|fuel]; [closed|].
  unfold ufree.
  change (base0 + 8 =? NULL) with false. cbv iota.
  change (w64 (base0 + 8 - WORD)) with base0.
  unfold bind at 1. unfold size_at. rewrite (load_ok nf_whole base0 ltac:(closed)).
  unfold bind at 1.
  rewrite (ufree_insert_head fuel base0 nf_whole ltac:(closed)).
  rewrite (done_intro (ufree_insert 1 base0) nf_whole tt ltac:(closed)).
  fold nf_linked.
  unfold bind at 1. unfold coalescing_memory, bind at 1, get_free_list.
  change (free_list nf_linked) with base0.
  rewrite spin. reflexivity.
Qed.

(** C9 (the code does not meet the claim): not every operation returns.
    Under next fit, after [umeminit(4096)] and [umalloc(100)], the call
    [umalloc(4000)] never returns: the scan never meets its starting point
    again.  After [umeminit(4096)] and [umalloc(4080)], the release of the
    returned pointer never returns either: the coalescer follows a cycle. *)
Theorem operations_that_never_return :
  result (umalloc 10 100) (fresh NEXT_FIT) = Some (base0 + 120) /\
  registry_of 10 nf1 = Some [(base0, 104)] /\
  last_allocated nf1 = base0 + 112 /\
  diverges (fun fuel => umalloc fuel 4000) nf1 /\
  result (umalloc 10 4080) (fresh NEXT_FIT) = Some (base0 + 8) /\
  diverges (fun fuel => ufree fuel (base0 + 8)) nf_whole.
Proof.
  split; [closed|]. split; [closed|]. split; [closed|].
  split; [exact next_fit_scan_spins|]. split; [closed|].
  exact release_spins_on_self_link.
Qed.

(** C8 (the code does not meet the claim): under next fit the round trip
    cannot even be completed for [n = 4080].  [umalloc(4080)] hands out the
    only block, which stays in the registry; the release of the returned
    pointer never returns, so the second allocation is never reached. *)
Theorem next_fit_round_trip_never_returns :
  registry_of 10 (fresh NEXT_FIT) = Some [(base0, 4088)] /\
  result (umalloc 10 4080) (fresh NEXT_FIT) = Some (base0 + 8) /\
  registry_of 10 nf_whole = Some [(base0, 4088)] /\
  diverges (fun fuel => ufree fuel (base0 + 8)) nf_whole.
Proof.
  split; [closed|]. split; [closed|]. split; [closed|].
  exact release_spins_on_self_link.
Qed.

(** C1 (the code does not meet the claim): the partition invariant holds
    right after initialisation and is lost by a single allocation.  Under
    worst fit, [umalloc(4079)] takes the whole 4088-byte block without
    splitting but overwrites its header with 4079, so that the last nine
    bytes of the region belong to no block.  Under first fit,
    [umalloc(100)] splits the block and drops the remainder: it is neither
    in the registry nor allocated. *)
Theorem partition_lost_by_one_allocation :
  partition_ok 10 (fresh WORST_FIT) [] = true /\
  header_walk 10 (fresh WORST_FIT) base0 = true /\
  result (run_calls 10 [Allocate 4079] []) (fresh WORST_FIT) = Some [base0 + 8] /\
  (let s := after (run_calls 10 [Allocate 4079] []) (fresh WORST_FIT) in
   registry_of 10 s = Some [] /\
   allocated_blocks s [base0 + 8] = [(base0, 4079)] /\
   partition_ok 10 s [base0 + 8] = false /\
   header_walk 10 s base0 = false) /\
  partition_ok 10 (fresh FIRST_FIT) [] = true /\
  result (run_calls 10 [Allocate 100] []) (fresh FIRST_FIT) = Some [base0 + 8] /\
  (let s := after (run_calls 10 [Allocate 100] []) (fresh FIRST_FIT) in
   registry_of 10 s = Some [] /\
   allocated_blocks s [base0 + 8] = [(base0, 104)] /\
   partition_ok 10 s [base0 + 8] = false).
Proof. repeat split; closed. Qed.

(** C2 (the code does not meet the claim): under worst fit a block whose
    size equals the request is never chosen, because the scan only accepts a
    difference strictly above its initial value 0: [umalloc(4088)] fails
    although the registry holds a block of 4088 bytes.  Under next fit,
    [umalloc(4080)] returns the payload of a block that stays in the
    registry. *)
Theorem allocation_fails_on_exact_fit :
  registry_of 10 (fresh WORST_FIT) = Some [(base0, 4088)] /\
  result (umalloc 10 4088) (fresh WORST_FIT) = Some NULL /\
  registry_of 10 (after (umalloc 10 4088) (fresh WORST_FIT)) = Some [(base0, 4088)] /\
  result (umalloc 10 4080) (fresh NEXT_FIT) = Some (base0 + 8) /\
  registry_of 10 (after (umalloc 10 4080) (fresh NEXT_FIT)) = Some [(base0, 4088)].
Proof. repeat split; closed. Qed.

(** C10: [ufree] reports an error exactly for the null pointer, and then
    leaves the whole allocator state as it was.  A call on a non-null pointer
    that returns, returns 0. *)
Theorem ufree_error_iff_null (fuel : nat) (ptr : Z) (s : state) :
  match ufree fuel ptr s with
  | Done r s' => (r = UMEM_ERROR <-> ptr = NULL) /\ (ptr = NULL -> s' = s)
  | Fault | OutOfFuel => ptr <> NULL
  end.
Proof.
  unfold ufree. destruct (ptr =? NULL) eqn:E.
  - apply Z.eqb_eq in E. cbn. split; [tauto | reflexivity].
  - apply Z.eqb_neq in E.
    unfold bind.
    destruct (size_at (w64 (ptr - WORD)) s) as [sz s1| |]; try exact E.
    destruct (ufree_insert fuel (w64 (ptr - WORD)) s1) as [u s2| |]; try exact E.
    destruct (coalescing_memory fuel s2) as [u' s3| |]; try exact E.
    cbn. unfold UMEM_ERROR. split; [split; intros H; [discriminate | contradiction]
                                   | intros H; contradiction].
Qed.

(** C3, as stated, fails: the split threshold differs from strategy to
    strategy.  First fit splits a 4088-byte block for a 4072-byte request,
    leaving a remainder of 8 bytes, although 4088 does not exceed
    4072 + 8 + 8. *)
Lemma split_rule_counterexample :
  ~ splits_by_stated_rule 10 4072 (fresh FIRST_FIT).
Proof.
  intros H.
  specialize (H (base0 + 8) _
                (done_intro (umalloc 10 4072) (fresh FIRST_FIT) (base0 + 8)
                            ltac:(closed))
                ltac:(closed)).
  change (base0 + 8 - WORD) with base0 in H.
  change (load64 (heap (fresh FIRST_FIT)) base0) with 4088 in H.
  change (align_up 4072 WORD) with 4072 in H.
  change (4072 + WORD + WORD <? 4088) with false in H.
  cbv beta iota zeta in H.
  destruct H as [H _]. revert H. closed.
Qed.

(** The other strategies on the same starting state.  Next fit does not
    split the block for a 4064-byte request although 4088 exceeds
    4064 + 8 + 8.  Worst fit, when it does not split, does not hand the
    block out as it is but overwrites its header.  First fit does not link
    the remainder of a split into the registry. *)
Lemma split_rule_other_strategies :
  registry_of 10 (fresh FIRST_FIT) = Some [(base0, 4088)] /\
  result (umalloc 10 4072) (fresh FIRST_FIT) = Some (base0 + 8) /\
  (let s := after (umalloc 10 4072) (fresh FIRST_FIT) in
   load64 (heap s) base0 = 4072 /\
   load64 (heap s) (base0 + 8 + 4072) = 8 /\
   registry_of 10 s = Some []) /\
  (4088 >? 4064 + WORD + WORD) = true /\
  result (umalloc 10 4064) (fresh NEXT_FIT) = Some (base0 + 8) /\
  load64 (heap (after (umalloc 10 4064) (fresh NEXT_FIT))) base0 = 4088 /\
  result (umalloc 10 4072) (fresh WORST_FIT) = Some (base0 + 8) /\
  load64 (heap (after (umalloc 10 4072) (fresh WORST_FIT))) base0 = 4072 /\
  registry_of 10 (after (umalloc 10 4072) (fresh WORST_FIT)) = Some [].
Proof. repeat split; closed. Qed.

(** C6, as stated, fails: when the chosen block is not split its header is
    left alone.  After [umalloc(4080)] under first fit the header of the
    returned block holds 4088, not 4080. *)
Lemma header_counterexample :
  ~ header_is_aligned_request 10 4080 (fresh FIRST_FIT).
Proof.
  intros H.
  specialize (H (base0 + 8) _
                (done_intro (umalloc 10 4080) (fresh FIRST_FIT) (base0 + 8)
                            ltac:(closed))
                ltac:(closed)).
  revert H. closed.
Qed.

(** The other strategies: best fit behaves like first fit here; worst fit
    stores the request without aligning it; next fit returns the payload of
    the remainder, whose header holds the remaining size. *)
Lemma header_other_strategies :
  result (umalloc 10 4080) (fresh BEST_FIT) = Some (base0 + 8) /\
  load64 (heap (after (umalloc 10 4080) (fresh BEST_FIT))) base0 = 4088 /\
  align_up 100 WORD = 104 /\
  result (umalloc 10 100) (fresh WORST_FIT) = Some (base0 + 8) /\
  load64 (heap (after (umalloc 10 100) (fresh WORST_FIT))) base0 = 100 /\
  result (umalloc 10 100) (fresh NEXT_FIT) = Some (base0 + 120) /\
  load64 (heap (after (umalloc 10 100) (fresh NEXT_FIT))) (base0 + 112) = 3976.
Proof. repeat split; closed. Qed.

(** C7, as stated, fails: the guard compares the cursor with the bounds of
    the region, not with the registry.  After one allocation the cursor is on
    the split remainder, which is not a registry entry, and it is not
    reset. *)
Lemma cursor_reset_counterexample :
  ~ cursor_reset_when_off_registry 10 nf1.
Proof.
  intros H.
  specialize (H [(base0, 104)] ltac:(closed)).
  assert (N : ~ In (last_allocated nf1) (map fst [(base0, 104)])).
  { cbn. intros [E | []]. revert E. closed. }
  specialize (H N). revert H. closed.
Qed.

(** The next scan then starts on the stale cursor, although the registry
    head could serve the request. *)
Lemma stale_cursor_is_used :
  registry_of 10 nf1 = Some [(base0, 104)] /\
  last_allocated nf1 = base0 + 112 /\
  result (umalloc 10 8) nf1 = Some (base0 + 112 + 24).
Proof. repeat split; closed. Qed.

(** C7, amended: the cursor is replaced by the registry head exactly when it
    is null or lies outside the address range of the region; a cursor inside
    the region is kept, whether or not it is a registry entry.  The scan
    starts from the cursor so obtained. *)
Theorem next_fit_guard_by_bounds (s : state)
  (Hregion : 0 <= memory_region s + region_size s < 2 ^ 64) :
  let c := last_allocated (after next_fit_guard s) in
  (last_allocated s = NULL \/ last_allocated s < memory_region s \/
   memory_region s + region_size s <= last_allocated s -> c = free_list s) /\
  (last_allocated s <> NULL /\
   memory_region s <= last_allocated s < memory_region s + region_size s ->
   c = last_allocated s) /\
  forall fuel n,
    next_fit_algorithm fuel n s
    = next_fit_loop fuel (align_up n WORD) c (after next_fit_guard s).
Proof.
  assert (G : cursor_out_of_bounds s = true <->
              (last_allocated s = NULL \/ last_allocated s < memory_region s \/
               memory_region s + region_size s <= last_allocated s)).
  { unfold cursor_out_of_bounds. rewrite (w64_small _ Hregion).
    rewrite !orb_true_iff, Z.eqb_eq, Z.ltb_lt, Z.leb_le. tauto. }
  unfold after, next_fit_guard.
  destruct (cursor_out_of_bounds s) eqn:E; cbn zeta.
  - split; [reflexivity|]. split.
    + intros [H1 H2]. assert (X : true = true) by reflexivity.
      apply G in X. lia.
    + intros fuel n. unfold next_fit_algorithm, bind, next_fit_guard.
      rewrite E. reflexivity.
  - split.
    + intros H. apply G in H. discriminate.
    + split; [reflexivity|].
      intros fuel n. unfold next_fit_algorithm, bind, next_fit_guard.
      rewrite E. reflexivity.
Qed.

Lemma next_fit_guard_by_bounds_witness :
  last_allocated (after next_fit_guard nf1) = last_allocated nf1.
Proof.
  apply (next_fit_guard_by_bounds nf1).
  - vm_compute. split; congruence.
  - vm_compute. repeat split; congruence.
Defined.

(** * Alignment *)

Lemma mask_down_8 x : 0 <= x < 2 ^ 64 -> mask_down x 8 = 8 * (x / 8).
Proof.
  intros Hx. unfold mask_down.
  change (Z.lxor SIZE_MAX (8 - 1)) with (Z.ldiff (Z.ones 64) (Z.ones 3)).
  apply Z.bits_inj'. intros i Hi.
  rewrite Z.land_spec, Z.ldiff_spec.
  replace (8 * (x / 8)) with (Z.shiftl (Z.shiftr x 3) 3)
    by (rewrite Z.shiftl_mul_pow2, Z.shiftr_div_pow2 by lia;
        change (2 ^ 3) with 8; lia).
  rewrite Z.shiftl_spec by lia.
  destruct (Z.lt_ge_cases i 3) as [L | G].
  - rewrite (Z.testbit_neg_r _ (i - 3)) by lia.
    rewrite (Z.ones_spec_low 3 i) by lia. cbn. rewrite !andb_false_r. reflexivity.
  - rewrite Z.shiftr_spec by lia. replace (i - 3 + 3) with i by lia.
    rewrite (Z.ones_spec_high 3 i) by lia. cbn [negb]. rewrite andb_true_r.
    destruct (Z.lt_ge_cases i 64) as [L | G'].
    + rewrite (Z.ones_spec_low 64 i) by lia. apply andb_true_r.
    + rewrite (Z.ones_spec_high 64 i) by lia. rewrite andb_false_r.
      symmetry. destruct (Z.eq_dec x 0) as [-> | N]; [apply Z.testbit_0_l|].
      apply Z.bits_above_log2; [lia|].
      assert (Z.log2 x < 64) by (apply Z.log2_lt_pow2; lia). lia.
Qed.

Lemma align_up_8 n :
  0 <= n <= 2 ^ 64 - 8 -> align_up n WORD = 8 * ((n + 7) / 8).
Proof.
  intros H. unfold align_up, WORD. replace (n + 8 - 1) with (n + 7) by lia.
  unfold w64. rewrite Z.mod_small by lia. apply mask_down_8. lia.
Qed.

Lemma align_up_8_bounds n :
  0 <= n <= 2 ^ 64 - 8 ->
  n <= align_up n WORD < n + 8 /\ align_up n WORD mod 8 = 0.
Proof.
  intros H. rewrite (align_up_8 n H).
  pose proof (Z.div_mod (n + 7) 8 ltac:(lia)) as D.
  pose proof (Z.mod_pos_bound (n + 7) 8 ltac:(lia)) as B.
  repeat split; try lia.
  rewrite Z.mul_comm. apply Z.mod_mul. lia.
Qed.

(** Among multiples of 8, being at least [n] and being at least the aligned
    [n] are the same. *)
Lemma align_up_8_le n x :
  0 <= n <= 2 ^ 64 - 8 -> x mod 8 = 0 -> (align_up n WORD <= x <-> n <= x).
Proof.
  intros H Hx. destruct (align_up_8_bounds n H) as [[B1 B2] B3].
  split; [lia|]. intros L.
  pose proof (Z.div_mod x 8 ltac:(lia)) as Dx.
  pose proof (Z.div_mod (align_up n WORD) 8 ltac:(lia)) as Da.
  rewrite Hx in Dx. rewrite B3 in Da. lia.
Qed.

(** * Frames *)

Lemma agree_outside_refl lo hi m : agree_outside lo hi m m.
Proof. intros a _. reflexivity. Qed.

Lemma agree_outside_trans lo hi m1 m2 m3 :
  agree_outside lo hi m1 m2 -> agree_outside lo hi m2 m3 ->
  agree_outside lo hi m1 m3.
Proof. intros H1 H2 a Ha. rewrite (H2 a Ha). apply H1. exact Ha. Qed.

Lemma agree_outside_store lo hi m a v :
  lo <= a -> a + WORD <= hi -> agree_outside lo hi m (store64 m a v).
Proof.
  intros H1 H2 b Hb. apply load_store_other. unfold WORD in *. lia.
Qed.

Lemma agree_outside_weaken lo hi lo' hi' m m' :
  lo' <= lo -> hi <= hi' -> agree_outside lo hi m m' ->
  agree_outside lo' hi' m m'.
Proof. intros H1 H2 H a Ha. apply H. lia. Qed.

(** * Address-ordered chains *)

Lemma chain_ok_le lo hi l : chain_ok lo hi l -> lo <= hi.
Proof.
  revert lo. induction l as [|e l IH]; intros lo H; cbn in H.
  - exact H.
  - destruct H as (H1 & H2 & H3). apply IH in H3.
    unfold block_end, WORD in *. lia.
Qed.

Lemma chain_ok_weaken lo lo' hi hi' l :
  lo' <= lo -> hi <= hi' -> chain_ok lo hi l -> chain_ok lo' hi' l.
Proof.
  revert lo lo'. induction l as [|e l IH]; intros lo lo' H1 H2 H; cbn in *.
  - lia.
  - destruct H as (A & B & C). repeat split; try lia.
    apply (IH (block_end e)); [lia | exact H2 | exact C].
Qed.

Lemma chain_ok_app lo hi l1 l2 :
  chain_ok lo hi (l1 ++ l2) <->
  exists mid, chain_ok lo mid l1 /\ chain_ok mid hi l2.
Proof.
  revert lo. induction l1 as [|e l1 IH]; intros lo; cbn.
  - split.
    + intros H. exists lo. split; [lia | exact H].
    + intros (mid & H1 & H2). apply (chain_ok_weaken mid lo hi hi); try lia.
      exact H2.
  - split.
    + intros (A & B & C). apply IH in C. destruct C as (mid & C1 & C2).
      exists mid. repeat split; assumption.
    + intros (mid & (A & B & C1) & C2). repeat split; try assumption.
      apply IH. exists mid. split; assumption.
Qed.

Lemma chain_ok_In lo hi l e :
  chain_ok lo hi l -> In e l ->
  lo <= fst e /\ WORD <= snd e /\ block_end e <= hi.
Proof.
  revert lo. induction l as [|x l IH]; intros lo H Hin; [destruct Hin|].
  cbn in H. destruct H as (A & B & C). destruct Hin as [-> | Hin].
  - repeat split; try assumption. apply (chain_ok_le _ _ _ C).
  - destruct (IH _ C Hin) as (A' & B' & C'). repeat split; try assumption.
    unfold block_end, WORD in *. lia.
Qed.

(** * List segments *)

Lemma lseg_app s a l1 l2 z :
  lseg s a (l1 ++ l2) z <-> exists mid, lseg s a l1 mid /\ lseg s mid l2 z.
Proof.
  revert a. induction l1 as [|e l1 IH]; intros a; cbn.
  - split.
    + intros H. exists a. split; [reflexivity | exact H].
    + intros (mid & -> & H). exact H.
  - split.
    + intros (A & B & C). apply IH in C. destruct C as (mid & C1 & C2).
      exists mid. repeat split; assumption.
    + intros (mid & (A & B & C1) & C2). repeat split; try assumption.
      apply IH. exists mid. split; assumption.
Qed.

(** A segment survives any change of the heap outside the headers and link
    fields of its blocks. *)
Lemma lseg_frame s s' a l z lo hi flo fhi :
  lseg s a l z -> chain_ok lo hi l ->
  hi <= flo \/ fhi <= lo ->
  agree_outside flo fhi (heap s) (heap s') ->
  lseg s' a l z.
Proof.
  revert a lo. induction l as [|e l IH]; intros a lo H C D F; cbn in *.
  - exact H.
  - destruct H as (A & B & H). destruct C as (C1 & C2 & C3).
    pose proof (chain_ok_le _ _ _ C3) as C4.
    unfold block_end, WORD in *.
    assert (E1 : load64 (heap s') (fst e) = load64 (heap s) (fst e))
      by (apply F; unfold WORD; lia).
    assert (E2 : load64 (heap s') (fst e + 8) = load64 (heap s) (fst e + 8))
      by (apply F; unfold WORD; lia).
    split; [exact A|]. split; [congruence|].
    rewrite E2. apply (IH _ (fst e + 8 + snd e)); try assumption. lia.
Qed.

Lemma in_region_intro s a :
  memory_region s <= a -> a + WORD <= memory_region s + region_size s ->
  in_region s a = true.
Proof.
  intros H1 H2. unfold in_region. apply andb_true_iff.
  split; apply Z.leb_le; assumption.
Qed.

Lemma link_after_snoc pre e : link_after (pre ++ [e]) = Field (fst e + WORD).
Proof. unfold link_after. rewrite rev_app_distr. reflexivity. Qed.

(** * Best fit *)

Section BestFitScan.
Variable s : state.
Variable size : Z.
Hypothesis Hregion : region_ok s.
Hypothesis Hsize : 0 <= size.

(** The scan reads the registry without changing the state; it needs one
    unit of fuel per block and one more, and ends with the invariant
    established for the whole list. *)
Lemma best_fit_scan_spec :
  forall l2 l1 a lo fuel best bestp sd,
    lseg s a l2 NULL ->
    chain_ok lo (memory_region s + region_size s) l2 ->
    memory_region s <= lo ->
    best_so_far size l1 best bestp sd ->
    match best_fit_scan fuel size best bestp sd (link_after l1) a s with
    | Done (best', bestp') s' =>
        s' = s /\ (length l2 < fuel)%nat /\
        exists sd', best_so_far size (l1 ++ l2) best' bestp' sd'
    | Fault => False
    | OutOfFuel => (fuel <= length l2)%nat
    end.
Proof.
  destruct Hregion as [Hbase Hend].
  induction l2 as [|e l2 IH]; intros l1 a lo fuel best bestp sd L C Hlo I.
  - cbn in L. subst a. destruct fuel as [|fuel]; cbn; [lia|].
    split; [reflexivity|]. split; [lia|].
    exists sd. rewrite app_nil_r. exact I.
  - cbn in L. destruct L as (-> & Hsz & L).
    cbn in C. destruct C as (C1 & C2 & C3).
    pose proof (chain_ok_le _ _ _ C3) as C4.
    unfold block_end, WORD in C2, C3, C4.
    destruct fuel as [|fuel]; cbn [best_fit_scan length]; [lia|].
    replace (fst e =? NULL) with false
      by (symmetry; apply Z.eqb_neq; unfold NULL; lia).
    unfold bind at 1. unfold size_at.
    rewrite load_ok by (apply in_region_intro; unfold WORD; lia).
    rewrite Hsz.
    unfold bind at 1. cbn [read_link].
    rewrite (w64_small (fst e + WORD)) by (unfold WORD; lia).
    rewrite load_ok by (apply in_region_intro; unfold WORD; lia).
    rewrite <- (link_after_snoc l1 e).
    set (better := (size <=? snd e) && (w64 (snd e - size) <? sd)).
    assert (I' : best_so_far size (l1 ++ [e])
                   (if better then fst e else best)
                   (if better then link_after l1 else bestp)
                   (if better then w64 (snd e - size) else sd)).
    { destruct better eqn:B; subst better.
      - apply andb_true_iff in B. destruct B as [B1 B2].
        apply Z.leb_le in B1. apply Z.ltb_lt in B2.
        rewrite w64_small in * by lia.
        right. exists l1, e, []. repeat split; try assumption.
        + destruct I as [(I1 & I2 & I3) | (pre & e0 & post & I1 & I2 & I3 & I4 & I5 & I6 & I7)].
          * intros x Hx Hx'. apply I3 in Hx. lia.
          * subst l1 sd. intros x Hx Hx'.
            apply in_app_or in Hx. destruct Hx as [Hx | [<- | Hx]].
            -- specialize (I6 x Hx Hx'). lia.
            -- lia.
            -- specialize (I7 x Hx Hx'). lia.
        + intros x [].
      - apply andb_false_iff in B.
        destruct I as [(I1 & I2 & I3) | (pre & e0 & post & I1 & I2 & I3 & I4 & I5 & I6 & I7)].
        + left. repeat split; try assumption.
          intros x Hx. apply in_app_or in Hx. destruct Hx as [Hx | [<- | []]].
          * apply I3. exact Hx.
          * destruct B as [B | B]; [apply Z.leb_gt in B; exact B|].
            apply Z.ltb_ge in B. subst sd. unfold SIZE_MAX in B.
            destruct (Z.lt_ge_cases (snd e) size) as [X | X]; [exact X|].
            rewrite w64_small in B by lia. lia.
        + right. exists pre, e0, (post ++ [e]). subst l1.
          rewrite <- app_assoc. cbn [app]. repeat split; try assumption.
          intros x Hx Hx'. apply in_app_or in Hx. destruct Hx as [Hx | [<- | []]].
          * apply I7; assumption.
          * destruct B as [B | B]; [apply Z.leb_gt in B; lia|].
            apply Z.ltb_ge in B. subst sd.
            rewrite w64_small in B by lia. lia. }
    specialize (IH (l1 ++ [e]) _ _ fuel _ _ _ L C3
                   ltac:(unfold WORD in *; lia) I').
    destruct (best_fit_scan fuel size _ _ _ (link_after (l1 ++ [e])) _ s)
      as [[b' p'] s' | | ]; try assumption; try lia.
    destruct IH as (E & F & sd' & I''). split; [exact E|]. split; [lia|].
    exists sd'. rewrite <- app_assoc in I''. exact I''.
Qed.
End BestFitScan.

(** * Relinking *)

Lemma lseg_head_range s a l lo hi :
  lseg s a l NULL -> chain_ok lo hi l -> 0 < lo -> hi < 2 ^ 64 ->
  0 <= a < 2 ^ 64.
Proof.
  destruct l as [|e l]; cbn; intros L C H1 H2.
  - subst a. unfold NULL. lia.
  - destruct L as (-> & _). destruct C as (C1 & C2 & C3).
    apply chain_ok_le in C3. unfold block_end, WORD in *. lia.
Qed.

Lemma lseg_snoc s a pre q z :
  lseg s a (pre ++ [q]) z <->
  lseg s a pre (fst q) /\ load64 (heap s) (fst q) = snd q /\
  load64 (heap s) (fst q + WORD) = z.
Proof.
  rewrite lseg_app. cbn. split.
  - intros (mid & H1 & -> & H2 & H3). auto.
  - intros (H1 & H2 & H3). exists (fst q). auto.
Qed.

Lemma chain_ok_snoc lo hi pre q :
  chain_ok lo hi (pre ++ [q]) <->
  chain_ok lo (fst q) pre /\ WORD <= snd q /\ block_end q <= hi.
Proof.
  rewrite chain_ok_app. cbn. split.
  - intros (mid & H1 & H2 & H3 & H4). repeat split; try assumption.
    apply (chain_ok_weaken lo lo mid (fst q)); try lia. exact H1.
  - intros (H1 & H2 & H3). exists (fst q). repeat split; try assumption. lia.
Qed.

(** Writing [v] into the link that follows [pre] makes [pre] lead to [v];
    only the link field of the last block of [pre] changes in the heap. *)
Lemma relink s pre z v lo hi :
  region_ok s ->
  lseg s (free_list s) pre z ->
  chain_ok lo hi pre ->
  memory_region s <= lo -> hi <= memory_region s + region_size s ->
  0 <= v < 2 ^ 64 ->
  exists s',
    write_link (link_after pre) v s = Done tt s' /\
    lseg s' (free_list s') pre v /\
    agree_outside lo hi (heap s) (heap s') /\
    (forall e, In e pre -> load64 (heap s') (fst e) = snd e) /\
    memory_region s' = memory_region s /\ region_size s' = region_size s /\
    last_allocated s' = last_allocated s /\ alloc_algo s' = alloc_algo s.
Proof.
  intros [Hbase Hend] L C Hlo Hhi Hv.
  destruct (rev pre) as [|q rpre] eqn:R.
  - assert (pre = []) as -> by (rewrite <- (rev_involutive pre), R; reflexivity).
    exists (set_free_list s v). cbn.
    split; [reflexivity|]. split; [reflexivity|].
    split; [apply agree_outside_refl|].
    split; [intros e []|]. repeat split; reflexivity.
  - assert (pre = rev rpre ++ [q]) as ->
        by (rewrite <- (rev_involutive pre), R; reflexivity).
    set (pre' := rev rpre) in *.
    apply lseg_snoc in L. destruct L as (L1 & L2 & L3).
    apply chain_ok_snoc in C. destruct C as (C1 & C2 & C3).
    pose proof (chain_ok_le _ _ _ C1) as C4.
    unfold block_end, WORD in *.
    rewrite link_after_snoc. cbn [write_link]. unfold WORD.
    rewrite store_ok by (apply in_region_intro; unfold WORD; lia).
    eexists. split; [reflexivity|].
    assert (F : agree_outside (fst q + 8) (fst q + 16) (heap s)
                  (store64 (heap s) (fst q + 8) v))
      by (apply agree_outside_store; unfold WORD; lia).
    assert (Lpre : lseg (set_heap s (store64 (heap s) (fst q + 8) v))
                        (free_list s) pre' (fst q)).
    { apply (lseg_frame s _ _ _ _ lo (fst q) (fst q + 8) (fst q + 16));
        try assumption. left. lia. }
    assert (Hq : load64 (store64 (heap s) (fst q + 8) v) (fst q) = snd q).
    { rewrite load_store_other by lia. exact L2. }
    split.
    + cbn [free_list set_heap]. apply lseg_snoc. unfold WORD.
      split; [exact Lpre|]. cbn [heap set_heap].
      split; [exact Hq|].
      rewrite load_store_same. apply w64_small. exact Hv.
    + split.
      * apply (agree_outside_weaken (fst q + 8) (fst q + 16)); try lia. exact F.
      * split; [|repeat split; reflexivity].
        intros e He. cbn [heap set_heap].
        apply in_app_or in He. destruct He as [He | [<- | []]]; [|exact Hq].
        destruct (chain_ok_In _ _ _ _ C1 He) as (E1 & E2 & E3).
        unfold block_end, WORD in *.
        rewrite load_store_other by lia.
        clear - L1 He. revert L1. generalize (free_list s).
        induction pre' as [|x pre' IH]; [destruct He|].
        intros a (A1 & A2 & A3). destruct He as [<- | He]; [exact A2|].
        apply (IH He _ A3).
Qed.

(** * Best fit: the whole call *)

Lemma set_heap_in_region s m a : in_region (set_heap s m) a = in_region s a.
Proof. reflexivity. Qed.

Lemma best_fit_run s l fuel n :
  registry s l -> 0 <= n <= 2 ^ 64 - 8 ->
  match best_fit_algorithm fuel n s with
  | OutOfFuel => (fuel <= length l)%nat
  | Fault => False
  | Done p s' =>
      (length l < fuel)%nat /\
      ((p = NULL /\ s' = s /\ forall x, In x l -> snd x < align_up n WORD) \/
       exists pre e post,
         l = pre ++ e :: post /\ p = fst e + WORD /\
         align_up n WORD <= snd e /\
         (forall x, In x pre -> align_up n WORD <= snd x -> snd e < snd x) /\
         (forall x, In x post -> align_up n WORD <= snd x -> snd e <= snd x) /\
         if align_up n WORD + WORD + WORD <? snd e then
           load64 (heap s') (fst e) = align_up n WORD /\
           (0 < n ->
            registry s' (pre ++ (fst e + WORD + align_up n WORD,
                                 snd e - align_up n WORD - WORD) :: post))
         else
           load64 (heap s') (fst e) = snd e /\ registry s' (pre ++ post))
  end.
Proof.
  intros (Hreg & L & C) Hn.
  destruct (align_up_8_bounds n Hn) as [[A1 A2] A3].
  set (size := align_up n WORD) in *.
  assert (Hsize : 0 <= size) by lia.
  unfold best_fit_algorithm. fold size. unfold bind at 1, get_free_list.
  assert (I0 : best_so_far size [] NULL Head SIZE_MAX)
    by (left; repeat split; intros x []).
  pose proof (best_fit_scan_spec s size Hreg Hsize l [] (free_list s)
                (memory_region s) fuel NULL Head SIZE_MAX L C (Z.le_refl _) I0)
    as S.
  change (link_after []) with Head in S. cbn [app] in S.
  unfold bind at 1.
  destruct (best_fit_scan fuel size NULL Head SIZE_MAX Head (free_list s) s)
    as [[bb bp] s1 | |]; try assumption.
  destruct S as (-> & Hf & sd' & I). 
  destruct Hreg as [Hbase Hend].
  destruct I as [(I1 & _ & I3) | (pre & e & post & -> & I1 & I2 & I3 & I4 & I5 & I6)].
  { subst bb. cbn. split; [exact Hf|]. left. auto. }
  apply lseg_app in L. destruct L as (mid & Lpre & Le).
  cbn [lseg] in Le. destruct Le as (-> & Lsz & Lpost).
  apply chain_ok_app in C. destruct C as (cm & Cpre & Ce).
  cbn [chain_ok] in Ce. destruct Ce as (Ce1 & Ce2 & Cpost).
  pose proof (chain_ok_le _ _ _ Cpost) as Ce3.
  pose proof (chain_ok_le _ _ _ Cpre) as Ce4.
  unfold block_end in Cpost, Ce3. unfold WORD in *.
  subst bb bp.
  replace (fst e =? NULL) with false
    by (symmetry; apply Z.eqb_neq; unfold NULL; lia).
  unfold bind at 1. unfold size_at.
  rewrite load_ok by (apply in_region_intro; unfold WORD; lia).
  rewrite Lsz. rewrite (w64_small (snd e - size)) by lia.
  replace (size + 8 + 8 <? snd e) with (8 + 8 <? snd e - size)
    by (destruct (8 + 8 <? snd e - size) eqn:E1;
        destruct (size + 8 + 8 <? snd e) eqn:E2; try reflexivity;
        rewrite ?Z.ltb_lt, ?Z.ltb_ge in *; lia).
  pose proof (lseg_head_range s _ post _ _ Lpost Cpost ltac:(lia) ltac:(lia))
    as Hnxt.
  rewrite (w64_small (fst e + 8)) by lia.
  destruct (8 + 8 <? snd e - size) eqn:Split.
  - (* the block is split *)
    apply Z.ltb_lt in Split.
    rewrite (w64_small (fst e + 8 + size)) by lia.
    rewrite (w64_small (snd e - size - 8)) by lia.
    set (nb := fst e + 8 + size).
    rewrite (w64_small (nb + 8)) by lia.
    unfold bind, next_at, WORD.
    rewrite store_ok by (apply in_region_intro; unfold WORD; lia).
    rewrite (w64_small (fst e + 8)) by lia.
    rewrite load_ok
      by (rewrite set_heap_in_region; apply in_region_intro; unfold WORD; lia).
    rewrite store_ok
      by (rewrite set_heap_in_region; apply in_region_intro; unfold WORD; lia).
    rewrite store_ok
      by (rewrite !set_heap_in_region; apply in_region_intro; unfold WORD; lia).
    cbn [heap set_heap].
    set (m1 := store64 (heap s) nb (snd e - size - 8)).
    set (nxt1 := load64 m1 (fst e + 8)).
    set (m3 := store64 (store64 m1 (nb + 8) nxt1) (fst e) size).
    set (s3 := set_heap _ m3).
    assert (F3 : agree_outside (fst e) (fst e + 8 + snd e) (heap s) m3).
    { subst m3 m1.
      apply (agree_outside_trans _ _ _ (store64 (heap s) nb (snd e - size - 8)));
        [apply agree_outside_store; unfold WORD; lia|].
      apply (agree_outside_trans _ _ _
               (store64 (store64 (heap s) nb (snd e - size - 8)) (nb + 8) nxt1));
        apply agree_outside_store; unfold WORD; lia. }
    assert (R3 : region_ok s3) by (split; assumption).
    assert (Lpre3 : lseg s3 (free_list s3) pre (fst e)).
    { apply (lseg_frame s s3 _ _ _ (memory_region s) cm (fst e) (fst e + 8 + snd e));
        try assumption. left. lia. }
    destruct (relink s3 pre (fst e) nb (memory_region s) cm R3 Lpre3 Cpre
                (Z.le_refl _) ltac:(cbn; lia) ltac:(lia))
      as (s4 & W & L4 & F4 & H4 & G1 & G2 & G3 & G4).
    rewrite W. unfold ret.
    split; [exact Hf|]. right.
    exists pre, e, post. split; [reflexivity|]. split; [reflexivity|].
    split; [exact I4|]. split; [exact I5|]. split; [exact I6|].
    assert (Hhdr : load64 (heap s4) (fst e) = size).
    { rewrite (F4 (fst e)) by lia. cbn [heap s3 set_heap]. subst m3.
      rewrite load_store_same. apply w64_small. lia. }
    replace (size + 8 + 8 <? snd e) with true
      by (symmetry; apply Z.ltb_lt; lia).
    split; [exact Hhdr|].
    intros Hpos.
    assert (Hsz8 : 8 <= size).
    { pose proof (Z.div_mod size 8 ltac:(lia)) as D. lia. }
    split; [split; [rewrite G1 | rewrite G1, G2]; assumption|].
    split.
    + apply lseg_app. exists nb. split; [exact L4|].
      cbn [lseg fst snd]. fold nb.
      split; [reflexivity|].
      assert (Hnb : load64 m3 nb = snd e - size - 8).
      { subst m3 m1. rewrite load_store_other by lia.
        rewrite load_store_other by lia.
        rewrite load_store_same. apply w64_small. lia. }
      assert (Hnx : load64 m3 (nb + 8) = load64 (heap s) (fst e + 8)).
      { subst m3. rewrite load_store_other by lia.
        rewrite load_store_same. subst nxt1 m1.
        rewrite load_store_other by lia. apply w64_small. exact Hnxt. }
      split; [rewrite (F4 nb) by lia; exact Hnb|].
      unfold WORD. rewrite (F4 (nb + 8)) by lia. cbn [heap s3 set_heap].
      rewrite Hnx.
      apply (lseg_frame s3 s4 _ _ _ (fst e + 8 + snd e)
               (memory_region s + region_size s) (memory_region s) cm);
        try assumption; [|right; lia].
      apply (lseg_frame s s3 _ _ _ (fst e + 8 + snd e)
               (memory_region s + region_size s) (fst e) (fst e + 8 + snd e));
        try assumption. right. lia.
    + rewrite G1, G2. apply chain_ok_app. exists cm. split; [exact Cpre|].
      cbn [chain_ok fst snd]. unfold block_end, WORD. cbn [fst snd]. fold nb.
      split; [lia|]. split; [lia|].
      replace (nb + 8 + (snd e - size - 8)) with (fst e + 8 + snd e) by lia.
      exact Cpost.
  - (* the block is handed out whole *)
    apply Z.ltb_ge in Split.
    unfold bind, next_at, WORD.
    rewrite (w64_small (fst e + 8)) by lia.
    rewrite load_ok by (apply in_region_intro; unfold WORD; lia).
    destruct (relink s pre (fst e) (load64 (heap s) (fst e + 8))
                (memory_region s) cm (conj Hbase Hend) Lpre Cpre
                (Z.le_refl _) ltac:(lia) Hnxt)
      as (s4 & W & L4 & F4 & H4 & G1 & G2 & G3 & G4).
    rewrite W. unfold ret.
    split; [exact Hf|]. right.
    exists pre, e, post. split; [reflexivity|]. split; [reflexivity|].
    split; [exact I4|]. split; [exact I5|]. split; [exact I6|].
    replace (size + 8 + 8 <? snd e) with false
      by (symmetry; apply Z.ltb_ge; lia).
    split; [rewrite (F4 (fst e)) by lia; exact Lsz|].
    split; [split; [rewrite G1 | rewrite G1, G2]; assumption|].
    split.
    + apply lseg_app. exists (load64 (heap s) (fst e + 8)). split; [exact L4|].
      apply (lseg_frame s s4 _ _ _ (fst e + 8 + snd e)
               (memory_region s + region_size s) (memory_region s) cm);
        try assumption. right. lia.
    + rewrite G1, G2. apply chain_ok_app. exists cm. split; [exact Cpre|].
      apply (chain_ok_weaken (fst e + 8 + snd e) cm
               (memory_region s + region_size s)); try lia. exact Cpost.
Qed.

(** * First fit: the header of the returned block *)

Ltac region_tests H :=
  repeat match type of H with
         | context [in_region ?s ?a] =>
             let E := fresh "R" in
             destruct (in_region s a) eqn:E; cbv beta iota in H;
             [| discriminate H]
         end.

Section FirstFitLoop.
Variable s : state.
Variable size : Z.
Hypothesis Hregion : region_ok s.
Hypothesis Hsize : 0 <= size.

Lemma first_fit_loop_header :
  forall l2 prev a lo fuel p s',
    lseg s a l2 NULL ->
    chain_ok lo (memory_region s + region_size s) l2 ->
    memory_region s <= lo ->
    prev = NULL \/ (memory_region s <= prev /\ prev + 16 <= lo) ->
    first_fit_loop fuel size prev a s = Done p s' ->
    p <> NULL ->
    exists e,
      In e l2 /\ p = fst e + WORD /\ size <= snd e /\
      load64 (heap s') (fst e)
      = if size + WORD <? snd e then size else snd e.
Proof.
  destruct Hregion as [Hbase Hend].
  induction l2 as [|e l2 IH]; intros prev a lo fuel p s' L C Hlo Hprev H Hp.
  - cbn in L. subst a. destruct fuel as [|fuel]; cbn in H; [discriminate|].
    inversion H. congruence.
  - cbn in L. destruct L as (-> & Hsz & L).
    cbn in C. destruct C as (C1 & C2 & C3).
    pose proof (chain_ok_le _ _ _ C3) as C4.
    unfold block_end, WORD in C2, C3, C4.
    destruct fuel as [|fuel]; cbn [first_fit_loop] in H; [discriminate|].
    replace (fst e =? NULL) with false in H
      by (symmetry; apply Z.eqb_neq; unfold NULL; lia).
    unfold bind at 1 in H. unfold size_at in H.
    rewrite load_ok in H by (apply in_region_intro; unfold WORD; lia).
    rewrite Hsz in H.
    destruct (size <=? snd e) eqn:Fit.
    + apply Z.leb_le in Fit. exists e. split; [left; reflexivity|].
      unfold WORD in *.
      rewrite (w64_small (size + 8)) in H by lia.
      rewrite (w64_small (fst e + 8)) in H by lia.
      assert (Hpv : prev <> NULL -> w64 (prev + 1) = prev + 1 /\ prev + 9 <= fst e).
      { intros N. destruct Hprev as [-> | [P1 P2]]; [contradiction|].
        split; [apply w64_small|]; lia. }
      destruct (size + 8 <? snd e) eqn:Split.
      * apply Z.ltb_lt in Split.
        rewrite (w64_small (fst e + 8 + size)) in H by lia.
        rewrite (w64_small (snd e - size - 8)) in H by lia.
        destruct (prev =? NULL) eqn:Pn.
        -- unfold bind, next_at, store, load, ret, put_free_list, WORD in H.
           rewrite (w64_small (fst e + 8)) in H by lia.
           region_tests H. inversion H; subst p s'.
           split; [reflexivity|]. split; [exact Fit|].
           cbn [heap set_heap set_free_list].
           rewrite load_store_same. apply w64_small. lia.
        -- apply Z.eqb_neq in Pn. destruct (Hpv Pn) as [Pw Pd].
           unfold bind, next_at, store, load, ret, WORD in H.
           rewrite (w64_small (fst e + 8)) in H by lia. rewrite Pw in H.
           region_tests H. inversion H; subst p s'.
           split; [reflexivity|]. split; [exact Fit|].
           cbn [heap set_heap].
           rewrite !(load_store_other _ (prev + 1)) by lia.
           rewrite load_store_same. apply w64_small. lia.
      * destruct (prev =? NULL) eqn:Pn.
        -- unfold bind, next_at, store, load, ret, put_free_list, WORD in H.
           rewrite (w64_small (fst e + 8)) in H by lia.
           region_tests H. inversion H; subst p s'.
           split; [reflexivity|]. split; [exact Fit|].
           cbn [heap set_heap set_free_list]. exact Hsz.
        -- apply Z.eqb_neq in Pn. destruct (Hpv Pn) as [Pw Pd].
           unfold bind, next_at, store, load, ret, WORD in H.
           rewrite (w64_small (fst e + 8)) in H by lia. rewrite Pw in H.
           region_tests H. inversion H; subst p s'.
           split; [reflexivity|]. split; [exact Fit|].
           cbn [heap set_heap].
           rewrite load_store_other by lia. exact Hsz.
    + unfold bind at 1 in H. unfold next_at, WORD in H.
      rewrite (w64_small (fst e + 8)) in H by lia.
      rewrite load_ok in H by (apply in_region_intro; unfold WORD; lia).
      destruct (IH (fst e) _ (fst e + 8 + snd e) fuel p s' L C3
                   ltac:(lia) ltac:(right; lia) H Hp)
        as (e' & E1 & E2).
      exists e'. split; [right; exact E1 | exact E2].
Qed.
End FirstFitLoop.

Lemma first_fit_header s l fuel n p s' :
  registry s l -> 0 <= n <= 2 ^ 64 - 8 ->
  first_fit_algorithm fuel n s = Done p s' -> p <> NULL ->
  exists e,
    In e l /\ p = fst e + WORD /\ align_up n WORD <= snd e /\
    load64 (heap s') (fst e)
    = if align_up n WORD + WORD <? snd e then align_up n WORD else snd e.
Proof.
  intros (Hreg & L & C) Hn H Hp.
  destruct (align_up_8_bounds n Hn) as [[A1 A2] A3].
  unfold first_fit_algorithm, bind, get_free_list in H.
  replace (mask_down (w64 (n + 7)) 8) with (align_up n WORD) in H
    by (unfold align_up, WORD; do 2 f_equal; lia).
  apply (first_fit_loop_header s (align_up n WORD) Hreg ltac:(lia)
           l NULL (free_list s) (memory_region s) fuel p s' L C
           (Z.le_refl _) (or_introl eq_refl) H Hp).
Qed.

(** * Worst fit: the header of the returned block *)

Create HintDb region.

Lemma keeps_region_ret {A} (a : A) : keeps_region (ret a).
Proof. intros s x s' H. inversion H. auto. Qed.

Lemma keeps_region_bind {A B} (c : M A) (k : A -> M B) :
  keeps_region c -> (forall a, keeps_region (k a)) -> keeps_region (bind c k).
Proof.
  intros Hc Hk s b s' H. unfold bind in H.
  destruct (c s) as [a s1 | |] eqn:E; try discriminate.
  destruct (Hc _ _ _ E) as [E1 E2]. destruct (Hk a _ _ _ H) as [E3 E4].
  split; congruence.
Qed.

Lemma keeps_region_load a : keeps_region (load a).
Proof.
  intros s x s' H. unfold load in H.
  destruct (in_region s a); inversion H. auto.
Qed.

Lemma keeps_region_store a v : keeps_region (store a v).
Proof.
  intros s x s' H. unfold store in H.
  destruct (in_region s a); inversion H. auto.
Qed.

Lemma keeps_region_get_free_list : keeps_region get_free_list.
Proof. intros s x s' H. inversion H. auto. Qed.

Lemma keeps_region_put_free_list p : keeps_region (put_free_list p).
Proof. intros s x s' H. inversion H. auto. Qed.

Lemma keeps_region_read_link l : keeps_region (read_link l).
Proof.
  destruct l; [apply keeps_region_get_free_list | apply keeps_region_load].
Qed.

Lemma keeps_region_write_link l v : keeps_region (write_link l v).
Proof.
  destruct l; [apply keeps_region_put_free_list | apply keeps_region_store].
Qed.

Lemma keeps_region_if {A} (b : bool) (c1 c2 : M A) :
  keeps_region c1 -> keeps_region c2 -> keeps_region (if b then c1 else c2).
Proof. destruct b; auto. Qed.

#[local] Hint Resolve keeps_region_ret keeps_region_load keeps_region_store
  keeps_region_get_free_list keeps_region_put_free_list keeps_region_read_link
  keeps_region_write_link : region.
#[local] Hint Extern 2 (keeps_region (bind _ _)) =>
  apply keeps_region_bind; [| intro] : region.
#[local] Hint Extern 2 (keeps_region (if _ then _ else _)) =>
  apply keeps_region_if : region.
#[local] Hint Extern 1 (keeps_region (size_at _)) => unfold size_at : region.
#[local] Hint Extern 1 (keeps_region (next_at _)) => unfold next_at : region.

Lemma keeps_region_worst_fit_scan fuel size :
  forall wb wp ld pp cur,
    keeps_region (worst_fit_scan fuel size wb wp ld pp cur).
Proof.
  induction fuel as [|fuel IH]; intros wb wp ld pp cur; cbn [worst_fit_scan].
  - intros s a s' H. discriminate.
  - auto 10 with region.
Qed.

Lemma worst_fit_header s fuel n p s' :
  0 <= memory_region s -> memory_region s + region_size s <= 2 ^ 64 ->
  0 <= n < 2 ^ 64 ->
  worst_fit_algorithm fuel n s = Done p s' -> p <> NULL ->
  load64 (heap s') (p - WORD) = n.
Proof.
  intros Hbase Hend Hn H Hp.
  unfold worst_fit_algorithm in H. unfold bind at 1 in H.
  unfold get_free_list in H. unfold bind at 1 in H.
  destruct (worst_fit_scan fuel n NULL Head 0 Head (free_list s) s)
    as [[wb wp] s1 | |] eqn:Scan; try discriminate.
  destruct (keeps_region_worst_fit_scan _ _ _ _ _ _ _ _ _ _ Scan) as [K1 K2].
  destruct (wb =? NULL); [inversion H; congruence|].
  unfold bind at 1 in H.
  destruct (size_at wb s1) as [ws s2 | |] eqn:E1; try discriminate.
  destruct (keeps_region_load _ _ _ _ E1) as [K3 K4].
  unfold bind at 1 in H.
  match type of H with
  | match ?c s2 with _ => _ end = _ =>
      assert (K : keeps_region c) by auto 10 with region;
      destruct (c s2) as [u s3 | |] eqn:E2; try discriminate
  end.
  destruct (K _ _ _ E2) as [K5 K6].
  unfold bind at 1 in H. unfold store in H.
  destruct (in_region s3 wb) eqn:R; try discriminate.
  cbn in H. inversion H; subst p s'. clear H.
  unfold in_region in R. apply andb_true_iff in R. destruct R as [R1 R2].
  apply Z.leb_le in R1. apply Z.leb_le in R2. unfold WORD in *.
  assert (Hw : wb + 8 < 2 ^ 64).
  { destruct (Z.eq_dec (wb + 8) (2 ^ 64)) as [E | E]; [|lia].
    exfalso. apply Hp. unfold w64. rewrite E. reflexivity. }
  rewrite (w64_small (wb + 8)) by lia.
  replace (wb + 8 - 8) with wb by lia.
  cbn [heap set_heap]. rewrite load_store_same. apply w64_small. exact Hn.
Qed.

(** * Allocation: the claims *)

(** On a concrete state the registry is checked by evaluation. *)
Ltac registry_by_evaluation :=
  split; [split; closed|];
  split; [cbn [lseg fst snd]; repeat split; closed
         | cbn [chain_ok fst snd]; repeat split; closed].

Lemma chain_ok_before lo hi pre e post x :
  chain_ok lo hi (pre ++ e :: post) -> In x pre -> fst x < fst e.
Proof.
  intros C Hx. apply chain_ok_app in C. destruct C as (mid & C1 & C2).
  destruct (chain_ok_In _ _ _ _ C1 Hx) as (A & B & D).
  cbn in C2. destruct C2 as (E & _). unfold block_end, WORD in *. lia.
Qed.

Lemma chain_ok_behind lo hi pre e post x :
  chain_ok lo hi (pre ++ e :: post) -> In x post -> fst e < fst x.
Proof.
  intros C Hx. apply chain_ok_app in C. destruct C as (mid & C1 & C2).
  cbn in C2. destruct C2 as (E & F & G).
  destruct (chain_ok_In _ _ _ _ G Hx) as (A & B & D).
  unfold block_end, WORD in *. lia.
Qed.

(** C4: best fit returns, among the free blocks of size at least [n], the
    one of least excess [size - n], and among several of least excess the
    one of lowest address; it fails only when no free block has size at
    least [n].  The registry is any address-ordered list of blocks inside
    the region whose sizes are multiples of 8, as every size recorded under
    best fit is. *)
Theorem best_fit_optimal (s : state) (l : list block) (fuel : nat) (n : Z)
  (Hreg : registry s l)
  (Hmul : forall x, In x l -> snd x mod 8 = 0)
  (Halgo : alloc_algo s = BEST_FIT)
  (Hn : 0 <= n <= 2 ^ 64 - 8)
  (Hfuel : (length l < fuel)%nat) :
  exists p s',
    umalloc fuel n s = Done p s' /\
    ((p = NULL /\ forall x, In x l -> snd x < n) \/
     exists pre e post,
       l = pre ++ e :: post /\ p = fst e + WORD /\ n <= snd e /\
       (forall x, In x pre ->
          fst x < fst e /\ (n <= snd x -> snd e - n < snd x - n)) /\
       (forall x, In x post ->
          fst e < fst x /\ (n <= snd x -> snd e - n <= snd x - n))).
Proof.
  pose proof (best_fit_run s l fuel n Hreg Hn) as R.
  unfold umalloc. rewrite Halgo.
  destruct (best_fit_algorithm fuel n s) as [p s' | |]; [| contradiction | lia].
  exists p, s'. split; [reflexivity|].
  destruct R as (_ & [(P & _ & N) | (pre & e & post & E & P & Fit & B1 & B2 & _)]).
  - left. split; [exact P|]. intros x Hx.
    specialize (N x Hx).
    pose proof (align_up_8_le n (snd x) Hn (Hmul x Hx)). lia.
  - right. exists pre, e, post. subst l.
    destruct Hreg as (_ & _ & C).
    assert (Ae : forall x, In x (pre ++ e :: post) ->
                   (align_up n WORD <= snd x <-> n <= snd x)).
    { intros x Hx. apply (align_up_8_le n (snd x) Hn (Hmul x Hx)). }
    split; [reflexivity|]. split; [exact P|].
    split; [apply (Ae e); [apply in_elt | exact Fit]|].
    split.
    + intros x Hx. split; [apply (chain_ok_before _ _ _ _ _ _ C Hx)|].
      intros Hnx. assert (In x (pre ++ e :: post)) as Hin
          by (apply in_or_app; left; exact Hx).
      apply (Ae x Hin) in Hnx. specialize (B1 x Hx Hnx). lia.
    + intros x Hx. split; [apply (chain_ok_behind _ _ _ _ _ _ C Hx)|].
      intros Hnx. assert (In x (pre ++ e :: post)) as Hin
          by (apply in_or_app; right; right; exact Hx).
      apply (Ae x Hin) in Hnx. specialize (B2 x Hx Hnx). lia.
Qed.

Lemma best_fit_optimal_witness :
  exists p s',
    umalloc 5 50 bf2 = Done p s' /\
    ((p = NULL /\ forall x, In x [(base0, 104); (base0 + 224, 3864)] -> snd x < 50) \/
     exists pre e post,
       [(base0, 104); (base0 + 224, 3864)] = pre ++ e :: post /\
       p = fst e + WORD /\ 50 <= snd e /\
       (forall x, In x pre ->
          fst x < fst e /\ (50 <= snd x -> snd e - 50 < snd x - 50)) /\
       (forall x, In x post ->
          fst e < fst x /\ (50 <= snd x -> snd e - 50 <= snd x - 50))).
Proof.
  apply (best_fit_optimal bf2 [(base0, 104); (base0 + 224, 3864)] 5 50).
  - registry_by_evaluation.
  - intros x [<- | [<- | []]]; reflexivity.
  - reflexivity.
  - lia.
  - cbn. lia.
Defined.

(** C3, amended: under best fit the chosen block is split exactly when its
    size exceeds the aligned request by more than a header and a pointer
    (16 bytes).  Split, the block keeps exactly the aligned request and the
    remainder, of size [size - request - 8], takes its place in the
    registry; unsplit, its header is untouched and it leaves the registry.
    The request is positive. *)
Theorem best_fit_split_rule (s : state) (l : list block) (fuel : nat) (n : Z)
  (Hreg : registry s l)
  (Halgo : alloc_algo s = BEST_FIT)
  (Hn : 0 < n <= 2 ^ 64 - 8)
  (Hfuel : (length l < fuel)%nat) :
  exists p s',
    umalloc fuel n s = Done p s' /\
    (p = NULL \/
     exists pre e post,
       l = pre ++ e :: post /\ p = fst e + WORD /\
       if align_up n WORD + WORD + WORD <? snd e then
         load64 (heap s') (fst e) = align_up n WORD /\
         registry s' (pre ++ (fst e + WORD + align_up n WORD,
                              snd e - align_up n WORD - WORD) :: post)
       else
         load64 (heap s') (fst e) = snd e /\ registry s' (pre ++ post)).
Proof.
  pose proof (best_fit_run s l fuel n Hreg ltac:(lia)) as R.
  unfold umalloc. rewrite Halgo.
  destruct (best_fit_algorithm fuel n s) as [p s' | |]; [| contradiction | lia].
  exists p, s'. split; [reflexivity|].
  destruct R as (_ & [(P & _) | (pre & e & post & E & P & _ & _ & _ & R)]).
  - left. exact P.
  - right. exists pre, e, post. split; [exact E|]. split; [exact P|].
    destruct (align_up n WORD + WORD + WORD <? snd e).
    + destruct R as [R1 R2]. split; [exact R1 | apply R2; lia].
    + exact R.
Qed.

Lemma best_fit_split_rule_witness :
  exists p s',
    umalloc 5 50 bf2 = Done p s' /\
    (p = NULL \/
     exists pre e post,
       [(base0, 104); (base0 + 224, 3864)] = pre ++ e :: post /\
       p = fst e + WORD /\
       if align_up 50 WORD + WORD + WORD <? snd e then
         load64 (heap s') (fst e) = align_up 50 WORD /\
         registry s' (pre ++ (fst e + WORD + align_up 50 WORD,
                              snd e - align_up 50 WORD - WORD) :: post)
       else
         load64 (heap s') (fst e) = snd e /\ registry s' (pre ++ post)).
Proof.
  apply (best_fit_split_rule bf2 [(base0, 104); (base0 + 224, 3864)] 5 50).
  - registry_by_evaluation.
  - reflexivity.
  - lia.
  - cbn. lia.
Defined.

(** C6, amended: after a successful allocation under first fit or best
    fit, the header of the returned block holds the aligned request when the
    block was split, and otherwise the unchanged size of the chosen block,
    which is at least the aligned request; first fit splits when the block
    exceeds the aligned request by more than 8 bytes, best fit by more than
    16.  Worst fit and next fit are outside the statement. *)
Theorem header_after_allocation (s : state) (l : list block) (fuel : nat)
  (n p : Z) (s' : state)
  (Halgo : alloc_algo s = FIRST_FIT \/ alloc_algo s = BEST_FIT)
  (Hreg : registry s l)
  (Hn : 0 <= n <= 2 ^ 64 - 8)
  (Hrun : umalloc fuel n s = Done p s')
  (Hp : p <> NULL) :
  let h := load64 (heap s') (p - WORD) in
  let size := align_up n WORD in
  let surplus := match alloc_algo s with
                 | FIRST_FIT => WORD
                 | _ => WORD + WORD
                 end in
  exists bs, In (p - WORD, bs) l /\ size <= bs /\
             h = if size + surplus <? bs then size else bs.
Proof.
  intros h size surplus. subst h size surplus. unfold umalloc in Hrun.
  destruct Halgo as [Halgo | Halgo]; rewrite Halgo in Hrun |- *.
  - destruct (first_fit_header s l fuel n p s' Hreg Hn Hrun Hp)
      as (e & E1 & E2 & E3 & E4).
    exists (snd e). subst p. replace (fst e + WORD - WORD) with (fst e) by lia.
    rewrite <- surjective_pairing. auto.
  - pose proof (best_fit_run s l fuel n Hreg Hn) as R. rewrite Hrun in R.
    destruct R as (_ & [(P & _) | (pre & e & post & E & P & Fit & _ & _ & R)]);
      [contradiction|].
    exists (snd e). subst p. replace (fst e + WORD - WORD) with (fst e) by lia.
    rewrite <- surjective_pairing. subst l.
    split; [apply in_elt|]. split; [exact Fit|].
    rewrite Z.add_assoc.
    destruct (align_up n WORD + WORD + WORD <? snd e); apply R.
Qed.

Lemma header_after_allocation_witness :
  exists bs, In (base0 + 8 - WORD, bs) [(base0, 4088)] /\
             align_up 4080 WORD <= bs /\
             load64 (heap (after (umalloc 5 4080) (fresh FIRST_FIT)))
                    (base0 + 8 - WORD)
             = if align_up 4080 WORD + WORD <? bs then align_up 4080 WORD else bs.
Proof.
  apply (header_after_allocation (fresh FIRST_FIT) [(base0, 4088)] 5 4080
           (base0 + 8) (after (umalloc 5 4080) (fresh FIRST_FIT))).
  - left. reflexivity.
  - registry_by_evaluation.
  - lia.
  - apply done_intro. closed.
  - closed.
Defined.

(** * Release *)

Section Release.
Variable s : state.
Variable b : Z.
Hypothesis Hregion : region_ok s.

(** The search stops at the first block that is not below [b]. *)
Lemma ufree_scan_spec :
  forall l prev a lo fuel,
    lseg s a l NULL ->
    chain_ok lo (memory_region s + region_size s) l ->
    memory_region s <= lo ->
    (length l < fuel)%nat ->
    exists l1 l2,
      l = l1 ++ l2 /\
      (forall x, In x l1 -> fst x < b) /\
      lseg s a l1 (match l2 with [] => NULL | y :: _ => fst y end) /\
      match l2 with [] => True | y :: _ => b <= fst y end /\
      ufree_scan fuel b prev a s
      = Done (match rev l1 with [] => prev | q :: _ => fst q end,
              match l2 with [] => NULL | y :: _ => fst y end) s.
Proof.
  destruct Hregion as [Hbase Hend].
  induction l as [|e l IH]; intros prev a lo fuel L C Hlo Hf.
  - cbn in L. subst a. exists [], []. cbn.
    destruct fuel as [|fuel]; [cbn in Hf; lia|]. cbn.
    repeat split; try reflexivity. intros x [].
  - cbn in L. destruct L as (-> & Hsz & L).
    cbn in C. destruct C as (C1 & C2 & C3).
    pose proof (chain_ok_le _ _ _ C3) as C4.
    unfold block_end, WORD in C2, C3, C4.
    destruct fuel as [|fuel]; [cbn in Hf; lia|].
    cbn [ufree_scan].
    replace (fst e =? NULL) with false
      by (symmetry; apply Z.eqb_neq; unfold NULL; lia).
    cbn [negb andb].
    destruct (fst e <? b) eqn:Below.
    + apply Z.ltb_lt in Below.
      destruct (IH (fst e) _ (fst e + 8 + snd e) fuel L C3 ltac:(lia)
                   ltac:(cbn in Hf; lia))
        as (l1 & l2 & E & Hl1 & L1 & Hl2 & Run).
      exists (e :: l1), l2. split; [cbn; congruence|].
      split; [intros x [<- | Hx]; [exact Below | apply Hl1; exact Hx]|].
      split; [cbn; auto|]. split; [exact Hl2|].
      unfold bind, next_at, WORD.
      rewrite (w64_small (fst e + 8)) by lia.
      rewrite load_ok by (apply in_region_intro; unfold WORD; lia).
      unfold WORD in Run. rewrite Run. cbn [rev].
      destruct (rev l1) as [|q r]; reflexivity.
    + apply Z.ltb_ge in Below.
      exists [], (e :: l). cbn.
      repeat split; try reflexivity; try assumption. intros x [].
Qed.
End Release.

Lemma insert_by_address_app (b : block) (l1 l2 : list block) :
  (forall x, In x l1 -> fst x < fst b) ->
  match l2 with [] => True | y :: _ => fst b <= fst y end ->
  insert_by_address b (l1 ++ l2) = l1 ++ b :: l2.
Proof.
  induction l1 as [|e l1 IH]; intros H1 H2; cbn.
  - destruct l2 as [|y l2]; [reflexivity|].
    cbn. replace (fst b <=? fst y) with true
      by (symmetry; apply Z.leb_le; exact H2). reflexivity.
  - replace (fst b <=? fst e) with false
      by (symmetry; apply Z.leb_gt; apply H1; left; reflexivity).
    rewrite IH; [reflexivity | | exact H2].
    intros x Hx. apply H1. right. exact Hx.
Qed.

Lemma link_after_prev (l1 : list block) :
  (forall x, In x l1 -> fst x <> NULL) ->
  let prev := match rev l1 with [] => NULL | q :: _ => fst q end in
  (prev =? NULL) = match rev l1 with [] => true | _ => false end /\
  link_after l1 = if negb (prev =? NULL) then Field (prev + WORD) else Head.
Proof.
  intros H. cbv zeta. unfold link_after.
  destruct (rev l1) as [|q r] eqn:R.
  - split; reflexivity.
  - assert (In q l1) as Hq by (apply in_rev; rewrite R; left; reflexivity).
    apply H in Hq. apply Z.eqb_neq in Hq. rewrite Hq. split; reflexivity.
Qed.

(** [ufree_insert] links the block into the registry at its place. *)
Lemma ufree_insert_spec s l fuel b :
  registry s l ->
  chain_ok (memory_region s) (memory_region s + region_size s)
           (insert_by_address (b, load64 (heap s) b) l) ->
  (length l < fuel)%nat ->
  exists s',
    ufree_insert fuel b s = Done tt s' /\
    registry s' (insert_by_address (b, load64 (heap s) b) l).
Proof.
  intros (Hreg & L & C) Cins Hf.
  set (bs := load64 (heap s) b) in *.
  destruct (ufree_scan_spec s b Hreg l NULL (free_list s) (memory_region s)
              fuel L C (Z.le_refl _) Hf)
    as (l1 & l2 & -> & Hl1 & L1 & Hl2 & Run).
  rewrite (insert_by_address_app (b, bs) l1 l2 Hl1 Hl2) in Cins |- *.
  destruct Hreg as [Hbase Hend].
  apply chain_ok_app in Cins. destruct Cins as (cm & C1 & Cb).
  cbn [chain_ok fst snd] in Cb. destruct Cb as (Cb1 & Cb2 & C2).
  pose proof (chain_ok_le _ _ _ C1) as Cb3.
  pose proof (chain_ok_le _ _ _ C2) as Cb4.
  unfold block_end, WORD in Cb2, C2, Cb4. cbn [fst snd] in C2, Cb4.
  apply lseg_app in L. destruct L as (mid & _ & L2).
  assert (mid = match l2 with [] => NULL | y :: _ => fst y end) as ->.
  { destruct l2 as [|y l2]; cbn in L2; [exact L2 | apply L2]. }
  set (cur := match l2 with [] => NULL | y :: _ => fst y end) in *.
  assert (Hcur : 0 <= cur < 2 ^ 64)
    by (apply (lseg_head_range s cur l2 _ _ L2 C2); lia).
  assert (Hnz : forall x, In x l1 -> fst x <> NULL).
  { intros x Hx. destruct (chain_ok_In _ _ _ _ C1 Hx) as (A & _).
    unfold NULL. lia. }
  destruct (link_after_prev l1 Hnz) as [Pn Pl]. cbn zeta in Pl.
  destruct (relink s l1 cur b (memory_region s) cm (conj Hbase Hend) L1 C1
              (Z.le_refl _) ltac:(lia) ltac:(lia))
    as (s1 & W & Ls1 & F1 & H1 & G1 & G2 & G3 & G4).
  unfold ufree_insert, bind, get_free_list. rewrite Run.
  set (prev := match rev l1 with [] => NULL | q :: _ => fst q end) in *.
  assert (W' : (if negb (prev =? NULL) then store (w64 (prev + WORD)) b
                else put_free_list b) s = Done tt s1).
  { rewrite <- W, Pl. destruct (rev l1) as [|q r] eqn:R.
    - subst prev. cbn. reflexivity.
    - rewrite Pn. cbn [negb write_link].
      assert (In q l1) as Hq by (apply in_rev; rewrite R; left; reflexivity).
      destruct (chain_ok_In _ _ _ _ C1 Hq) as (A1 & A2 & A3).
      unfold block_end, WORD in *. subst prev.
      rewrite (w64_small (fst q + 8)) by lia. reflexivity. }
  rewrite W'. unfold WORD. rewrite (w64_small (b + 8)) by lia.
  rewrite store_ok by (apply in_region_intro; unfold WORD; lia).
  eexists. split; [reflexivity|].
  set (s2 := set_heap s1 (store64 (heap s1) (b + 8) cur)).
  assert (F2 : agree_outside (b + 8) (b + 16) (heap s1) (heap s2))
    by (apply agree_outside_store; unfold WORD; lia).
  split; [split; cbn; lia|].
  split.
  - cbn [free_list set_heap s2].
    apply lseg_app. exists b. split.
    + apply (lseg_frame s1 s2 _ _ _ (memory_region s) cm (b + 8) (b + 16));
        try assumption. left. lia.
    + cbn [lseg fst snd]. split; [reflexivity|].
      split.
      * cbn [heap s2 set_heap]. rewrite load_store_other by lia.
        rewrite (F1 b) by lia. reflexivity.
      * unfold WORD. cbn [heap s2 set_heap]. rewrite load_store_same.
        rewrite (w64_small cur Hcur).
        apply (lseg_frame s1 s2 _ _ _ (b + 8 + bs)
                 (memory_region s + region_size s) (b + 8) (b + 16));
          try assumption; [|right; lia].
        apply (lseg_frame s s1 _ _ _ (b + 8 + bs)
                 (memory_region s + region_size s) (memory_region s) cm);
          try assumption. right. lia.
  - cbn [memory_region region_size set_heap s2]. rewrite G1, G2.
    apply chain_ok_app. exists cm. split; [exact C1|].
    cbn [chain_ok fst snd]. unfold block_end, WORD. cbn [fst snd].
    auto.
Qed.

(** * The coalescer *)

Lemma coalescing_loop_spec :
  forall rest cur s fuel lo,
    region_ok s ->
    lseg s (fst cur) (cur :: rest) NULL ->
    chain_ok lo (memory_region s + region_size s) (cur :: rest) ->
    memory_region s <= lo ->
    (length rest < fuel)%nat ->
    exists s',
      coalescing_loop fuel (fst cur) s = Done tt s' /\
      lseg s' (fst cur) (coalesce_from cur rest) NULL /\
      chain_ok lo (memory_region s + region_size s) (coalesce_from cur rest) /\
      agree_outside (fst cur) (memory_region s + region_size s)
                    (heap s) (heap s') /\
      memory_region s' = memory_region s /\ region_size s' = region_size s /\
      free_list s' = free_list s.
Proof.
  induction rest as [|nxt rest IH]; intros cur s fuel lo Hreg L C Hlo Hf;
    pose proof Hreg as [Hbase Hend];
    cbn [lseg] in L; destruct L as (_ & Hcs & L);
    destruct (chain_ok_In _ _ _ cur C (or_introl eq_refl)) as (C1 & C2 & C4);
    cbn [chain_ok] in C; destruct C as (_ & _ & C3);
    unfold block_end, WORD in C2, C4, L;
    (destruct fuel as [|fuel]; [cbn in Hf; lia|]);
    cbn [coalescing_loop];
    (replace (fst cur =? NULL) with false
      by (symmetry; apply Z.eqb_neq; unfold NULL; lia));
    unfold bind at 1; unfold next_at, WORD;
    rewrite (w64_small (fst cur + 8)) by lia;
    rewrite load_ok by (apply in_region_intro; unfold WORD; lia).
  - cbn [lseg] in L. rewrite L. cbn.
    exists s. split; [reflexivity|]. cbn [lseg chain_ok].
    split; [auto|]. split; [unfold block_end, WORD; auto|].
    split; [apply agree_outside_refl|]. auto.
  - cbn [lseg] in L. destruct L as (Hn & Hns & L).
    cbn [chain_ok] in C3. destruct C3 as (D1 & D2 & D3).
    pose proof (chain_ok_le _ _ _ D3) as D4.
    unfold block_end, WORD in D1, D2, D3, D4.
    rewrite Hn.
    replace (fst nxt =? NULL) with false
      by (symmetry; apply Z.eqb_neq; unfold NULL; lia).
    unfold bind at 1. unfold size_at.
    rewrite load_ok by (apply in_region_intro; unfold WORD; lia).
    rewrite Hcs. rewrite (w64_small (fst cur + snd cur + 8)) by lia.
    cbn [coalesce_from].
    replace (block_end cur) with (fst cur + snd cur + 8)
      by (unfold block_end, WORD; lia).
    destruct (fst cur + snd cur + 8 =? fst nxt) eqn:Adj.
    + apply Z.eqb_eq in Adj.
      unfold bind at 1.
      rewrite load_ok by (apply in_region_intro; unfold WORD; lia).
      rewrite Hns.
      rewrite (w64_small (snd nxt + 8)) by lia.
      rewrite (w64_small (snd cur + (snd nxt + 8))) by lia.
      unfold bind at 1.
      rewrite store_ok by (apply in_region_intro; unfold WORD; lia).
      unfold bind at 1. unfold next_at, WORD.
      rewrite (w64_small (fst nxt + 8)) by lia.
      rewrite load_ok
        by (rewrite set_heap_in_region; apply in_region_intro;
            unfold WORD; lia).
      cbn [heap set_heap].
      rewrite load_store_other by lia.
      unfold bind at 1.
      rewrite store_ok
        by (rewrite set_heap_in_region; apply in_region_intro;
            unfold WORD; lia).
      cbn [heap set_heap].
      set (m2 := store64 (store64 (heap s) (fst cur) (snd cur + (snd nxt + 8)))
                         (fst cur + 8) (load64 (heap s) (fst nxt + 8))).
      set (s2 := set_heap (set_heap s _) m2).
      assert (F2 : agree_outside (fst cur) (fst cur + 16) (heap s) m2).
      { subst m2.
        apply (agree_outside_trans _ _ _
                 (store64 (heap s) (fst cur) (snd cur + (snd nxt + 8))));
          apply agree_outside_store; unfold WORD; lia. }
      pose proof (lseg_head_range s _ rest _ _ L D3 ltac:(lia) ltac:(lia))
        as Hnn.
      assert (L2 : lseg s2 (fst cur)
                     ((fst cur, snd cur + snd nxt + 8) :: rest) NULL).
      { cbn [lseg fst snd]. split; [reflexivity|].
        cbn [heap s2 set_heap]. subst m2. split.
        - rewrite load_store_other by lia. rewrite load_store_same.
          rewrite w64_small by lia. lia.
        - unfold WORD. rewrite load_store_same. rewrite (w64_small _ Hnn).
          apply (lseg_frame s s2 _ _ _ (fst nxt + 8 + snd nxt)
                   (memory_region s + region_size s) (fst cur) (fst cur + 16));
            try assumption. right. lia. }
      destruct (IH (fst cur, snd cur + snd nxt + 8) s2 fuel lo
                   (conj Hbase Hend) L2)
        as (s' & Run & L' & C' & F' & G1 & G2 & G3).
      * cbn [chain_ok fst snd]. unfold block_end, WORD. cbn [fst snd].
        split; [exact C1|]. split; [lia|].
        replace (fst cur + 8 + (snd cur + snd nxt + 8))
          with (fst nxt + 8 + snd nxt) by lia. exact D3.
      * exact Hlo.
      * cbn in Hf. lia.
      * cbn [fst] in Run, L', F'. exists s'.
        split; [exact Run|]. split; [exact L'|]. split; [exact C'|].
        split; [|auto].
        apply (agree_outside_trans _ _ _ m2); [|exact F'].
        apply (agree_outside_weaken (fst cur) (fst cur + 16)); try lia.
        exact F2.
    + apply Z.eqb_neq in Adj.
      destruct (IH nxt s fuel (fst cur + 8 + snd cur) (conj Hbase Hend))
        as (s' & Run & L' & C' & F' & G1 & G2 & G3).
      * cbn [lseg]. auto.
      * cbn [chain_ok]. unfold block_end, WORD. auto.
      * lia.
      * cbn in Hf. lia.
      * exists s'. split; [exact Run|].
        split.
        -- cbn [lseg]. split; [reflexivity|].
           split; [rewrite (F' (fst cur)) by (unfold WORD; lia); exact Hcs|].
           unfold WORD. rewrite (F' (fst cur + 8)) by (unfold WORD; lia).
           rewrite Hn. exact L'.
        -- split.
           ++ cbn [chain_ok]. unfold block_end, WORD. auto.
           ++ split; [|auto].
              apply (agree_outside_weaken (fst nxt)
                       (memory_region s + region_size s)); try lia.
              exact F'.
Qed.

(** What the coalescer leaves behind has a gap between any two
    neighbours. *)
Lemma coalesce_from_apart :
  forall rest cur lo hi lo',
    chain_ok lo hi (cur :: rest) -> lo' < fst cur ->
    apart lo' (coalesce_from cur rest).
Proof.
  induction rest as [|nxt rest IH]; intros cur lo hi lo' C Hlo;
    cbn [chain_ok] in C; destruct C as (C1 & C2 & C3); unfold WORD in C2.
  - cbn. repeat split; [exact Hlo | lia].
  - cbn [coalesce_from]. cbn [chain_ok] in C3. destruct C3 as (D1 & D2 & D3).
    unfold WORD in D2.
    destruct (block_end cur =? fst nxt) eqn:Adj.
    + apply Z.eqb_eq in Adj.
      apply (IH _ (fst cur) hi); [|exact Hlo].
      cbn [chain_ok fst snd]. unfold block_end, WORD in *. cbn [fst snd].
      split; [lia|]. split; [lia|].
      replace (fst cur + 8 + (snd cur + snd nxt + 8))
        with (fst nxt + 8 + snd nxt) by lia. exact D3.
    + apply Z.eqb_neq in Adj. cbn [apart].
      split; [exact Hlo|]. split; [lia|].
      apply (IH _ (block_end cur) hi); [|lia].
      cbn [chain_ok]. auto.
Qed.

Lemma apart_In lo l x : apart lo l -> In x l -> lo < fst x /\ 0 <= snd x.
Proof.
  revert lo. induction l as [|e l IH]; intros lo A Hx; [destruct Hx|].
  cbn in A. destruct A as (A1 & A2 & A3). destruct Hx as [<- | Hx]; [auto|].
  destruct (IH _ A3 Hx) as [B1 B2]. unfold block_end, WORD in *. lia.
Qed.

Lemma apart_no_adjacent lo l : apart lo l -> no_adjacent l.
Proof.
  revert lo. induction l as [|e l IH]; intros lo A e1 e2 H1 H2;
    [destruct H1|].
  cbn in A. destruct A as (A1 & A2 & A3).
  destruct H1 as [<- | H1]; destruct H2 as [<- | H2].
  - unfold block_end, WORD. lia.
  - destruct (apart_In _ _ _ A3 H2). lia.
  - destruct (apart_In _ _ _ A3 H1). unfold block_end, WORD in *. lia.
  - apply (IH _ A3); assumption.
Qed.

Lemma ufree_run (s : state) (l : list block) (fuel : nat)
  (ptr : Z)
  (Hreg : registry s l)
  (Hblock : chain_ok (memory_region s) (memory_region s + region_size s)
              (insert_by_address
                 (ptr - WORD, load64 (heap s) (ptr - WORD)) l))
  (Hfuel : (length l < fuel)%nat) :
  exists s' l',
    ufree fuel ptr s = Done 0 s' /\
    l' = coalesce (insert_by_address
                     (ptr - WORD, load64 (heap s) (ptr - WORD)) l) /\
    registry s' l' /\
    no_adjacent l'.
Proof.
  set (b := ptr - WORD) in *.
  set (ins := insert_by_address (b, load64 (heap s) b) l) in *.
  destruct Hreg as (Hr & Hl & Hc). pose proof Hr as [Hbase Hend].
  assert (Hin : In (b, load64 (heap s) b) ins).
  { subst ins. clear. induction l as [|c l IH]; cbn; [auto|].
    destruct (_ <=? _); cbn; auto. }
  destruct (chain_ok_In _ _ _ _ Hblock Hin) as (B1 & B2 & B3).
  unfold block_end, WORD in B2, B3. cbn [fst snd] in B1, B2, B3.
  destruct (ufree_insert_spec s l fuel b (conj Hr (conj Hl Hc)) Hblock Hfuel)
    as (s1 & Ins & (Hr1 & Hl1 & Hc1)).
  fold ins in Hl1, Hc1.
  assert (K : keeps_region (ufree_insert fuel b)).
  { unfold ufree_insert. apply keeps_region_bind; [auto with region|].
    intros hd. apply keeps_region_bind.
    - clear. generalize NULL at 1. revert hd.
      induction fuel as [|fuel IH]; intros hd pv; cbn [ufree_scan].
      + intros s0 a s' H. discriminate.
      + apply keeps_region_if; [|auto with region].
        apply keeps_region_bind; [auto with region|]. intros nx. apply IH.
    - intros [pv cu]. auto 10 with region. }
  destruct (K _ _ _ Ins) as [K1 K2].
  unfold ufree.
  replace (ptr =? NULL) with false
    by (symmetry; apply Z.eqb_neq; unfold NULL, WORD in *; lia).
  cbv zeta. fold b. rewrite (w64_small b) by lia.
  unfold bind at 1. unfold size_at.
  rewrite load_ok by (apply in_region_intro; unfold WORD; lia).
  unfold bind at 1. rewrite Ins.
  unfold bind at 1. unfold coalescing_memory, bind at 1, get_free_list.
  destruct ins as [|cur rest] eqn:Eins; [destruct Hin|].
  cbn [lseg] in Hl1. pose proof Hl1 as (Hfl & _). rewrite Hfl in Hl1 |- *.
  assert (Hlen : (length rest < fuel)%nat).
  { assert (length (cur :: rest) = S (length l)) as E.
    { rewrite <- Eins. subst ins. clear.
      induction l as [|c l IH]; cbn; [reflexivity|].
      destruct (_ <=? _); cbn; [reflexivity | rewrite IH; reflexivity]. }
    cbn in E. lia. }
  destruct (coalescing_loop_spec rest cur s1 fuel (memory_region s1) Hr1 Hl1
              Hc1 (Z.le_refl _) Hlen)
    as (s2 & Run & L2 & C2 & F2 & G1 & G2 & G3).
  rewrite Run. cbn.
  exists s2, (coalesce_from cur rest).
  split; [reflexivity|]. split; [reflexivity|].
  split.
  - split; [split; rewrite G1, ?G2; apply Hr1|].
    split; [rewrite G3, Hfl; exact L2|].
    rewrite G1, G2. exact C2.
  - apply (apart_no_adjacent 0).
    apply (coalesce_from_apart rest cur _ _ 0 Hc1).
    cbn [chain_ok] in Hc1. destruct Hr1. lia.
Qed.

(** X13: the coalescer does its work on a well-formed registry.  When the
    registry before the call is address ordered and inside the region, and
    the released block is a block of the region that overlaps no free block,
    [ufree] returns 0 and the registry it leaves is the merged list, in which
    no entry ends where another begins. *)
Theorem release_on_ordered_registry (s : state) (l : list block) (fuel : nat)
  (ptr : Z)
  (Hreg : registry s l)
  (Hblock : chain_ok (memory_region s) (memory_region s + region_size s)
              (insert_by_address
                 (ptr - WORD, load64 (heap s) (ptr - WORD)) l))
  (Hfuel : (length l < fuel)%nat) :
  exists s' l',
    ufree fuel ptr s = Done 0 s' /\
    l' = coalesce (insert_by_address
                     (ptr - WORD, load64 (heap s) (ptr - WORD)) l) /\
    registry s' l' /\
    no_adjacent l'.
Proof. exact (ufree_run s l fuel ptr Hreg Hblock Hfuel). Qed.

Lemma release_on_ordered_registry_example :
  exists s' l',
    ufree 5 (base0 + 120) bf_two_live = Done 0 s' /\
    l' = coalesce (insert_by_address
                     (base0 + 120 - WORD,
                      load64 (heap bf_two_live) (base0 + 120 - WORD))
                     [(base0 + 224, 3864)]) /\
    registry s' l' /\
    no_adjacent l'.
Proof.
  apply (release_on_ordered_registry bf_two_live [(base0 + 224, 3864)] 5
           (base0 + 120)).
  - registry_by_evaluation.
  - vm_compute. repeat split; congruence.
  - cbn. lia.
Defined.

(** The two blocks of the scenario are merged into one. *)
Lemma release_merges_neighbours :
  coalesce (insert_by_address
              (base0 + 120 - WORD,
               load64 (heap bf_two_live) (base0 + 120 - WORD))
              [(base0 + 224, 3864)])
  = [(base0 + 112, 3976)] /\
  registry_of 10 (after (ufree 5 (base0 + 120)) bf_two_live)
  = Some [(base0 + 112, 3976)].
Proof. split; closed. Qed.

(** C5 (the code does not meet the claim): under next fit the registry does
    not stay well formed, and a release can leave two adjacent entries.
    After [umalloc(8)], [ufree], [umalloc(16)], [ufree], [umalloc(4056)],
    [ufree] on a fresh 4096-byte region, every call has returned and the
    registry holds the entries at [base], [base + 40] and [base + 4064]; the
    first one, of size 4056, ends exactly where the third begins.  The
    coalescer compares list neighbours only, and the second entry, which lies
    inside the extent of the first, stands between them. *)
Theorem next_fit_release_leaves_adjacent_entries :
  result (run_calls 10 nf_three_pairs_calls []) (fresh NEXT_FIT) = Some [] /\
  registry_of 10 nf_three_pairs
  = Some [(base0, 4056); (base0 + 40, 4048); (base0 + 4064, 24)] /\
  block_end (base0, 4056) = fst (base0 + 4064, 24) /\
  ~ no_adjacent [(base0, 4056); (base0 + 40, 4048); (base0 + 4064, 24)].
Proof.
  split; [closed|]. split; [closed|]. split; [reflexivity|].
  intros H.
  apply (H (base0, 4056) (base0 + 4064, 24)); cbn; auto.
Qed.

(** The calls of that scenario one by one: the pointer each allocation
    returns and the registry after each release. *)
Lemma next_fit_three_pairs_steps :
  let s0 := fresh NEXT_FIT in
  let s1 := after (umalloc 10 8) s0 in
  let s2 := after (ufree 10 (base0 + 24)) s1 in
  let s3 := after (umalloc 10 16) s2 in
  let s4 := after (ufree 10 (base0 + 48)) s3 in
  let s5 := after (umalloc 10 4056) s4 in
  let s6 := after (ufree 10 (base0 + 4072)) s5 in
  result (umalloc 10 8) s0 = Some (base0 + 24) /\
  result (ufree 10 (base0 + 24)) s1 = Some 0 /\
  registry_of 10 s2 = Some [(base0, 4088)] /\
  last_allocated s2 = base0 + 16 /\
  result (umalloc 10 16) s2 = Some (base0 + 48) /\
  result (ufree 10 (base0 + 48)) s3 = Some 0 /\
  registry_of 10 s4 = Some [(base0, 4088); (base0 + 40, 4048)] /\
  result (umalloc 10 4056) s4 = Some (base0 + 4072) /\
  result (ufree 10 (base0 + 4072)) s5 = Some 0 /\
  registry_of 10 s6
  = Some [(base0, 4056); (base0 + 40, 4048); (base0 + 4064, 24)].
Proof. cbv zeta. repeat split; closed. Qed.

(** The rule the specification states is that of [allocate_memory_block],
    which no strategy calls: on a 4088-byte block it splits for a request of
    4064 bytes and not for one of 4072. *)
Lemma unused_splitter_threshold :
  result (allocate_memory_block 10 base0 4064) (fresh BEST_FIT)
  = Some (base0 + 8) /\
  load64 (heap (after (allocate_memory_block 10 base0 4064) (fresh BEST_FIT)))
         base0 = 4064 /\
  load64 (heap (after (allocate_memory_block 10 base0 4064) (fresh BEST_FIT)))
         (base0 + 8 + 4064) = 16 /\
  result (allocate_memory_block 10 base0 4072) (fresh BEST_FIT)
  = Some (base0 + 8) /\
  load64 (heap (after (allocate_memory_block 10 base0 4072) (fresh BEST_FIT)))
         base0 = 4088 /\
  registry_of 10 (after (allocate_memory_block 10 base0 4072) (fresh BEST_FIT))
  = Some [].
Proof. repeat split; closed. Qed.

(** A request of zero bytes is outside the split rule proved above: the
    remainder then starts on the link field of the chosen block, so that
    the link copied into the remainder is the remainder's own size, and the
    next traversal of the registry leaves the region. *)
Lemma zero_request_breaks_registry :
  result (umalloc 10 0) (fresh BEST_FIT) = Some (base0 + 8) /\
  (let s := after (umalloc 10 0) (fresh BEST_FIT) in
   free_list s = base0 + 8 /\
   load64 (heap s) (base0 + 8) = 4080 /\
   load64 (heap s) (base0 + 16) = 4080 /\
   umemdump 10 s = Fault /\
   umalloc 10 8 s = Fault).
Proof. repeat split; closed. Qed.

(** * Initialisation *)

Lemma land_clear_low x k :
  0 <= x < 2 ^ 64 -> 0 <= k ->
  Z.land x (Z.ldiff (Z.ones 64) (Z.ones k)) = 2 ^ k * (x / 2 ^ k).
Proof.
  intros Hx Hk. apply Z.bits_inj'. intros i Hi.
  rewrite Z.land_spec, Z.ldiff_spec.
  replace (2 ^ k * (x / 2 ^ k)) with (Z.shiftl (Z.shiftr x k) k)
    by (rewrite Z.shiftl_mul_pow2, Z.shiftr_div_pow2 by lia; lia).
  rewrite Z.shiftl_spec by lia.
  destruct (Z.lt_ge_cases i k) as [L | G].
  - rewrite (Z.testbit_neg_r _ (i - k)) by lia.
    rewrite (Z.ones_spec_low k i) by lia. cbn. rewrite !andb_false_r. reflexivity.
  - rewrite Z.shiftr_spec by lia. replace (i - k + k) with i by lia.
    rewrite (Z.ones_spec_high k i) by lia. cbn [negb]. rewrite andb_true_r.
    destruct (Z.lt_ge_cases i 64) as [L | G'].
    + rewrite (Z.ones_spec_low 64 i) by lia. apply andb_true_r.
    + rewrite (Z.ones_spec_high 64 i) by lia. rewrite andb_false_r.
      symmetry. destruct (Z.eq_dec x 0) as [-> | N]; [apply Z.testbit_0_l|].
      apply Z.bits_above_log2; [lia|].
      assert (Z.log2 x < 64) by (apply Z.log2_lt_pow2; lia). lia.
Qed.

Lemma mask_down_page x :
  0 <= x < 2 ^ 64 -> mask_down x PAGE_SIZE = 4096 * (x / 4096).
Proof.
  intros Hx. unfold mask_down.
  change (Z.lxor SIZE_MAX (PAGE_SIZE - 1))
    with (Z.ldiff (Z.ones 64) (Z.ones 12)).
  rewrite (land_clear_low x 12 Hx) by lia. reflexivity.
Qed.

(** X1: a first [umeminit] with a positive size and a successful [mmap]
    returns 0 and installs one free block that spans the region: the region
    size is the request rounded up to the next multiple of 4096, the block
    starts at the region base with size [region size - 8] and ends at the
    region end, and the strategy is recorded.  From then on every further
    [umeminit] returns the error code and changes nothing. *)
Theorem umeminit_installs_one_block (s : state) (base size : Z) (a : algo)
  (Hfresh : is_initialized s = false)
  (Hsize : 0 < size)
  (Hbase : 0 < base)
  (Hfit : base + size + 4096 <= 2 ^ 64) :
  exists s',
    umeminit (Some base) size a s = Done 0 s' /\
    memory_region s' = base /\
    size <= region_size s' < size + 4096 /\
    region_size s' mod 4096 = 0 /\
    alloc_algo s' = a /\
    registry s' [(base, region_size s' - WORD)] /\
    block_end (base, region_size s' - WORD)
    = memory_region s' + region_size s' /\
    forall mm size' a', umeminit mm size' a' s' = Done UMEM_ERROR s'.
Proof.
  unfold umeminit. rewrite Hfresh.
  replace (size <=? 0) with false by (symmetry; apply Z.leb_gt; lia).
  set (R := 4096 * ((size + 4096 - 1) / 4096)).
  assert (E : mask_down (w64 (size + PAGE_SIZE - 1)) PAGE_SIZE = R).
  { unfold PAGE_SIZE at 1.
    rewrite (w64_small (size + 4096 - 1)) by lia.
    apply mask_down_page. lia. }
  pose proof (Z.div_mod (size + 4096 - 1) 4096 ltac:(lia)) as D.
  pose proof (Z.mod_pos_bound (size + 4096 - 1) 4096 ltac:(lia)) as B.
  assert (HR : size <= R < size + 4096) by (subst R; lia).
  cbv zeta. rewrite E.
  eexists. split; [reflexivity|]. cbn [memory_region region_size alloc_algo].
  split; [reflexivity|]. split; [exact HR|].
  split; [subst R; rewrite Z.mul_comm; apply Z.mod_mul; lia|].
  split; [reflexivity|].
  unfold WORD, NULL.
  rewrite (w64_small (R - 8)) by lia. rewrite (w64_small (base + 8)) by lia.
  split.
  - split; [split; cbn [memory_region region_size]; lia|]. split.
    + cbn [lseg fst snd free_list heap]. split; [reflexivity|]. split.
      * rewrite load_store_other by lia. rewrite load_store_same.
        apply w64_small. lia.
      * unfold WORD. rewrite load_store_same. reflexivity.
    + cbn [chain_ok fst snd memory_region region_size].
      unfold block_end, WORD. cbn [fst snd]. lia.
  - split; [unfold block_end, WORD; cbn [fst snd]; lia|].
    intros mm size' a'. reflexivity.
Qed.

Lemma umeminit_installs_one_block_witness :
  exists s',
    umeminit (Some base0) 100 BEST_FIT initial_state = Done 0 s' /\
    memory_region s' = base0 /\
    100 <= region_size s' < 100 + 4096 /\
    region_size s' mod 4096 = 0 /\
    alloc_algo s' = BEST_FIT /\
    registry s' [(base0, region_size s' - WORD)] /\
    block_end (base0, region_size s' - WORD)
    = memory_region s' + region_size s' /\
    forall mm size' a', umeminit mm size' a' s' = Done UMEM_ERROR s'.
Proof.
  apply (umeminit_installs_one_block initial_state base0 100 BEST_FIT).
  - reflexivity.
  - lia.
  - reflexivity.
  - vm_compute. congruence.
Defined.

(** * Introspection *)

Lemma umemdump_loop_reads_only fuel :
  forall k c s rows s',
    umemdump_loop fuel k c s = Done rows s' -> s' = s.
Proof.
  induction fuel as [|fuel IH]; intros k c s rows s' H;
    cbn [umemdump_loop] in H; [discriminate|].
  destruct (c =? NULL); [inversion H; reflexivity|].
  unfold bind, size_at, next_at, load, ret in H.
  destruct (in_region s c); [|discriminate].
  destruct (in_region s (w64 (c + WORD))); [|discriminate].
  destruct (umemdump_loop fuel (w64 (k + 1)) _ s) as [r s1 | |] eqn:E;
    try discriminate.
  apply IH in E. inversion H. congruence.
Qed.

(** X2: [umemdump] never changes the allocator state, whatever the state
    is, so a second dump right after the first prints the same rows. *)
Theorem umemdump_reads_only (fuel : nat) (s s' : state)
  (rows : list (Z * Z * Z))
  (Hrun : umemdump fuel s = Done rows s') :
  s' = s /\ umemdump fuel s' = Done rows s'.
Proof.
  assert (E : s' = s).
  { unfold umemdump, bind, get_free_list in Hrun.
    apply (umemdump_loop_reads_only _ _ _ _ _ _ Hrun). }
  split; [exact E|]. rewrite E at 1. rewrite Hrun, E. reflexivity.
Qed.

Lemma umemdump_reads_only_witness :
  after (umemdump 5) bf2 = bf2 /\
  umemdump 5 (after (umemdump 5) bf2)
  = Done [(1, 104, base0); (2, 3864, base0 + 224)] (after (umemdump 5) bf2).
Proof.
  apply (umemdump_reads_only 5 bf2 (after (umemdump 5) bf2)
           [(1, 104, base0); (2, 3864, base0 + 224)]).
  apply done_intro. closed.
Defined.

Lemma chain_ok_length lo hi (l : list block) :
  chain_ok lo hi l -> lo + 16 * Z.of_nat (length l) <= hi.
Proof.
  revert lo. induction l as [|e l IH]; intros lo C; cbn [chain_ok] in C.
  - cbn. lia.
  - destruct C as (C1 & C2 & C3). apply IH in C3.
    unfold block_end, WORD in *. cbn [length]. lia.
Qed.

Section Traversals.
Variable s : state.
Hypothesis Hregion : region_ok s.

Lemma umemdump_loop_lists :
  forall l a lo k fuel,
    lseg s a l NULL ->
    chain_ok lo (memory_region s + region_size s) l ->
    memory_region s <= lo -> 0 <= k -> k <= lo ->
    (length l < fuel)%nat ->
    umemdump_loop fuel k a s = Done (numbered k l) s.
Proof.
  destruct Hregion as [Hbase Hend].
  induction l as [|e l IH]; intros a lo k fuel L C Hlo Hk Hkl Hf;
    (destruct fuel as [|fuel]; [cbn in Hf; lia|]); cbn [umemdump_loop].
  - cbn in L. subst a. reflexivity.
  - cbn in L. destruct L as (-> & Hsz & L).
    cbn in C. destruct C as (C1 & C2 & C3).
    pose proof (chain_ok_le _ _ _ C3) as C4.
    unfold block_end, WORD in C2, C3, C4.
    replace (fst e =? NULL) with false
      by (symmetry; apply Z.eqb_neq; unfold NULL; lia).
    unfold bind, size_at, next_at, WORD.
    rewrite (w64_small (fst e + 8)) by lia.
    rewrite load_ok by (apply in_region_intro; unfold WORD; lia).
    rewrite load_ok by (apply in_region_intro; unfold WORD; lia).
    rewrite (w64_small (k + 1)) by lia. unfold WORD in L.
    rewrite (IH _ (fst e + 8 + snd e) (k + 1) fuel L C3); try lia;
      [| cbn in Hf; lia].
    rewrite Hsz. reflexivity.
Qed.

Lemma print_free_list_loop_lists :
  forall l a lo fuel,
    lseg s a l NULL ->
    chain_ok lo (memory_region s + region_size s) l ->
    memory_region s <= lo ->
    (length l < fuel)%nat ->
    print_free_list_loop fuel a s = Done (linked l) s.
Proof.
  destruct Hregion as [Hbase Hend].
  induction l as [|e l IH]; intros a lo fuel L C Hlo Hf;
    (destruct fuel as [|fuel]; [cbn in Hf; lia|]); cbn [print_free_list_loop].
  - cbn in L. subst a. reflexivity.
  - cbn in L. destruct L as (-> & Hsz & L).
    cbn in C. destruct C as (C1 & C2 & C3).
    pose proof (chain_ok_le _ _ _ C3) as C4.
    unfold block_end, WORD in C2, C3, C4.
    replace (fst e =? NULL) with false
      by (symmetry; apply Z.eqb_neq; unfold NULL; lia).
    unfold bind, size_at, next_at, WORD.
    rewrite (w64_small (fst e + 8)) by lia.
    rewrite load_ok by (apply in_region_intro; unfold WORD; lia).
    rewrite load_ok by (apply in_region_intro; unfold WORD; lia).
    unfold WORD in L.
    rewrite (IH _ (fst e + 8 + snd e) fuel L C3); try lia;
      [| cbn in Hf; lia].
    rewrite Hsz. cbn [linked]. unfold ret. do 3 f_equal.
    destruct l as [|y l]; cbn in L; [exact L | apply L].
Qed.
End Traversals.

Lemma umemdump_run (s : state) (l : list block) (fuel : nat) :
  registry s l -> (length l < fuel)%nat ->
  umemdump fuel s = Done (numbered 1 l) s /\
  registry_of fuel s = Some l.
Proof.
  intros (Hr & L & C) Hfuel. pose proof Hr as [Hb He].
  assert (E : umemdump fuel s = Done (numbered 1 l) s).
  { unfold umemdump, bind, get_free_list.
    apply (umemdump_loop_lists s Hr l _ (memory_region s)); try assumption; lia. }
  split; [exact E|]. unfold registry_of. rewrite E. apply f_equal.
  generalize 1. clear. induction l as [|e l IH]; intros k; cbn; [reflexivity|].
  rewrite IH. destruct e. reflexivity.
Qed.

(** X3: on an address-ordered registry inside the region, [umemdump] with
    fuel above the number of free blocks returns one row per free block, in
    registry order, numbered 1, 2, 3, ..., each with the recorded size and
    the header address; the registry read back from the dump is the list
    itself. *)
Theorem umemdump_lists_registry (s : state) (l : list block) (fuel : nat)
  (Hreg : registry s l)
  (Hfuel : (length l < fuel)%nat) :
  umemdump fuel s = Done (numbered 1 l) s /\
  registry_of fuel s = Some l.
Proof. exact (umemdump_run s l fuel Hreg Hfuel). Qed.

Lemma umemdump_lists_registry_witness :
  umemdump 5 bf2
  = Done (numbered 1 [(base0, 104); (base0 + 224, 3864)]) bf2 /\
  registry_of 5 bf2 = Some [(base0, 104); (base0 + 224, 3864)].
Proof.
  apply (umemdump_lists_registry bf2 [(base0, 104); (base0 + 224, 3864)] 5).
  - registry_by_evaluation.
  - cbn. lia.
Defined.

(** X4: on an address-ordered registry inside the region,
    [print_free_list] reads the same blocks in the same order as
    [umemdump], each with the address of its successor (null for the
    last), and leaves the state as it was. *)
Theorem print_free_list_lists_registry (s : state) (l : list block)
  (fuel : nat)
  (Hreg : registry s l)
  (Hfuel : (length l < fuel)%nat) :
  print_free_list fuel s = Done (linked l) s /\
  map (fun r => (fst (fst r), snd (fst r))) (linked l) = l /\
  registry_of fuel s
  = Some (map (fun r => (fst (fst r), snd (fst r))) (linked l)).
Proof.
  destruct Hreg as (Hr & L & C).
  assert (M : map (fun r : Z * Z * Z => (fst (fst r), snd (fst r))) (linked l)
              = l).
  { clear. induction l as [|e l IH]; cbn; [reflexivity|].
    rewrite IH. destruct e. reflexivity. }
  split.
  - unfold print_free_list, bind, get_free_list.
    apply (print_free_list_loop_lists s Hr l _ (memory_region s));
      try assumption. lia.
  - split; [exact M|]. rewrite M.
    apply (umemdump_run s l fuel (conj Hr (conj L C)) Hfuel).
Qed.

Lemma print_free_list_lists_registry_witness :
  print_free_list 5 bf2
  = Done (linked [(base0, 104); (base0 + 224, 3864)]) bf2 /\
  map (fun r => (fst (fst r), snd (fst r)))
      (linked [(base0, 104); (base0 + 224, 3864)])
  = [(base0, 104); (base0 + 224, 3864)] /\
  registry_of 5 bf2
  = Some (map (fun r => (fst (fst r), snd (fst r)))
              (linked [(base0, 104); (base0 + 224, 3864)])).
Proof.
  apply (print_free_list_lists_registry bf2
           [(base0, 104); (base0 + 224, 3864)] 5).
  - registry_by_evaluation.
  - cbn. lia.
Defined.

(** * Requests and their alignment *)

Lemma align_up_wraps n :
  2 ^ 64 - 8 < n < 2 ^ 64 -> align_up n WORD = 0.
Proof.
  intros H. unfold align_up, WORD, w64.
  replace (n + 8 - 1) with (n + 7 - 2 ^ 64 + 1 * 2 ^ 64) by lia.
  rewrite Z.mod_add by lia. rewrite Z.mod_small by lia.
  rewrite mask_down_8 by lia.
  rewrite Z.div_small by lia. reflexivity.
Qed.

(** X5: the size a strategy works with, [(size + 7) & ~7], is the least
    multiple of 8 that is at least the request, as long as the request is at
    most [2^64 - 8]; above that the addition wraps and the aligned size
    is 0. *)
Theorem request_alignment (n : Z) (Hn : 0 <= n < 2 ^ 64) :
  (n <= 2 ^ 64 - 8 ->
   n <= align_up n WORD < n + 8 /\
   align_up n WORD mod 8 = 0 /\
   forall m, m mod 8 = 0 -> n <= m -> align_up n WORD <= m) /\
  (2 ^ 64 - 8 < n -> align_up n WORD = 0).
Proof.
  split.
  - intros H. destruct (align_up_8_bounds n ltac:(lia)) as [B1 B2].
    split; [exact B1|]. split; [exact B2|].
    intros m Hm Hnm. apply (align_up_8_le n m ltac:(lia) Hm). exact Hnm.
  - intros H. apply align_up_wraps. lia.
Qed.

Lemma request_alignment_witness :
  (100 <= 2 ^ 64 - 8 ->
   100 <= align_up 100 WORD < 100 + 8 /\
   align_up 100 WORD mod 8 = 0 /\
   forall m, m mod 8 = 0 -> 100 <= m -> align_up 100 WORD <= m) /\
  (2 ^ 64 - 8 < 100 -> align_up 100 WORD = 0).
Proof. apply (request_alignment 100). lia. Defined.

(** X6: under first fit, best fit and next fit a request above [2^64 - 8]
    is served exactly like a request of zero bytes, because its aligned size
    wraps to 0; only worst fit, which does not align, sees the request as
    it is. *)
Theorem huge_request_is_zero_request (fuel : nat) (n : Z) (s : state)
  (Hn : 2 ^ 64 - 8 < n < 2 ^ 64)
  (Halgo : alloc_algo s <> WORST_FIT) :
  umalloc fuel n s = umalloc fuel 0 s.
Proof.
  pose proof (align_up_wraps n Hn) as E.
  assert (E0 : align_up 0 WORD = 0) by reflexivity.
  assert (F : mask_down (w64 (n + 7)) 8 = mask_down (w64 (0 + 7)) 8).
  { change (mask_down (w64 (0 + 7)) 8) with 0. rewrite <- E.
    unfold align_up, WORD. do 2 f_equal. lia. }
  unfold umalloc. destruct (alloc_algo s); try reflexivity.
  - unfold first_fit_algorithm. rewrite F. reflexivity.
  - unfold best_fit_algorithm. rewrite E, E0. reflexivity.
  - contradiction.
  - unfold next_fit_algorithm. rewrite E, E0. reflexivity.
Qed.

Lemma huge_request_is_zero_request_witness :
  umalloc 5 (2 ^ 64 - 1) bf2 = umalloc 5 0 bf2.
Proof.
  apply (huge_request_is_zero_request 5 (2 ^ 64 - 1) bf2).
  - lia.
  - vm_compute. congruence.
Defined.

(** The call then succeeds although no block is that large. *)
Lemma huge_request_succeeds :
  result (umalloc 5 (2 ^ 64 - 1)) bf2 = Some (base0 + 8).
Proof. closed. Qed.

(** * First fit: which block is chosen, and what is left of the registry *)

Lemma lseg_same_heap s s' a l z :
  heap s' = heap s -> lseg s a l z -> lseg s' a l z.
Proof.
  intros E. revert a. induction l as [|e l IH]; intros a; cbn; [auto|].
  rewrite E. intros (A & B & C). auto.
Qed.

Section FirstFitSelect.
Variable s : state.
Variable size : Z.
Hypothesis Hregion : region_ok s.
Hypothesis Hsize : 0 <= size.
Hypothesis Hsize8 : size mod 8 = 0.

Lemma first_fit_loop_select :
  forall l2 prev a lo fuel,
    lseg s a l2 NULL ->
    chain_ok lo (memory_region s + region_size s) l2 ->
    memory_region s <= lo ->
    prev = NULL \/ (memory_region s <= prev /\ prev + 16 <= lo) ->
    word_sized l2 ->
    (length l2 < fuel)%nat ->
    exists p s',
      first_fit_loop fuel size prev a s = Done p s' /\
      ((p = NULL /\ s' = s /\ forall x, In x l2 -> snd x < size) \/
       exists pre e post,
         l2 = pre ++ e :: post /\ p = fst e + WORD /\ size <= snd e /\
         (forall x, In x pre -> snd x < size) /\
         (pre = [] -> prev = NULL -> 0 < size ->
          memory_region s' = memory_region s /\
          region_size s' = region_size s /\
          lseg s' (free_list s') post NULL)).
Proof.
  destruct Hregion as [Hbase Hend].
  induction l2 as [|e l2 IH]; intros prev a lo fuel L C Hlo Hprev Hw Hf;
    (destruct fuel as [|fuel]; [cbn in Hf; lia|]); cbn [first_fit_loop].
  - cbn in L. subst a. cbn. exists NULL, s. split; [reflexivity|].
    left. repeat split. intros x [].
  - cbn in L. destruct L as (-> & Hsz & L).
    cbn in C. destruct C as (C1 & C2 & C3).
    pose proof (chain_ok_le _ _ _ C3) as C4.
    unfold block_end, WORD in C2, C3, C4, L.
    assert (He8 : snd e mod 8 = 0) by (apply Hw; left; reflexivity).
    replace (fst e =? NULL) with false
      by (symmetry; apply Z.eqb_neq; unfold NULL; lia).
    unfold bind at 1. unfold size_at.
    rewrite load_ok by (apply in_region_intro; unfold WORD; lia).
    rewrite Hsz.
    destruct (size <=? snd e) eqn:Fit.
    + apply Z.leb_le in Fit. unfold WORD.
      rewrite (w64_small (size + 8)) by lia.
      rewrite (w64_small (fst e + 8)) by lia.
      assert (Hpv : prev <> NULL ->
                    w64 (prev + 1) = prev + 1 /\ prev + 9 <= fst e /\
                    memory_region s <= prev + 1).
      { intros N. destruct Hprev as [-> | [P1 P2]]; [contradiction|].
        split; [apply w64_small|]; lia. }
      pose proof (lseg_head_range s _ l2 _ _ L C3 ltac:(lia) ltac:(lia))
        as Hnxt.
      destruct (size + 8 <? snd e) eqn:Split.
      * apply Z.ltb_lt in Split.
        assert (Hroom : size + 16 <= snd e).
        { pose proof (Z.div_mod size 8 ltac:(lia)) as D1.
          pose proof (Z.div_mod (snd e) 8 ltac:(lia)) as D2. lia. }
        rewrite (w64_small (fst e + 8 + size)) by lia.
        rewrite (w64_small (snd e - size - 8)) by lia.
        set (nb := fst e + 8 + size).
        rewrite (w64_small (nb + 8)) by lia.
        unfold bind, next_at, WORD.
        rewrite (w64_small (fst e + 8)) by lia.
        rewrite store_ok by (apply in_region_intro; unfold WORD; lia).
        rewrite load_ok
          by (rewrite set_heap_in_region; apply in_region_intro;
              unfold WORD; lia).
        rewrite store_ok
          by (rewrite set_heap_in_region; apply in_region_intro;
              unfold WORD; lia).
        rewrite store_ok
          by (rewrite !set_heap_in_region; apply in_region_intro;
              unfold WORD; lia).
        cbn [heap set_heap].
        set (m1 := store64 (heap s) nb (snd e - size - 8)).
        set (m3 := store64 (store64 m1 (nb + 8) (load64 m1 (fst e + 8)))
                           (fst e) size).
        assert (F3 : agree_outside (fst e) (fst e + 8 + snd e) (heap s) m3).
        { subst m3 m1.
          apply (agree_outside_trans _ _ _
                   (store64 (heap s) nb (snd e - size - 8)));
            [apply agree_outside_store; unfold WORD; lia|].
          apply (agree_outside_trans _ _ _
                   (store64 (store64 (heap s) nb (snd e - size - 8))
                            (nb + 8)
                            (load64 (store64 (heap s) nb (snd e - size - 8))
                                    (fst e + 8))));
            apply agree_outside_store; unfold WORD; lia. }
        destruct (prev =? NULL) eqn:Pn.
        -- unfold ret, put_free_list. rewrite load_ok
             by (rewrite !set_heap_in_region; apply in_region_intro;
                 unfold WORD; lia).
           eexists _, _. split; [reflexivity|]. right.
           exists [], e, l2. split; [reflexivity|]. split; [reflexivity|].
           split; [exact Fit|]. split; [intros x []|].
           intros _ _ Hpos. cbn [memory_region region_size free_list
                                 set_free_list set_heap heap].
           split; [reflexivity|]. split; [reflexivity|].
           assert (Hs8 : 8 <= size).
           { pose proof (Z.div_mod size 8 ltac:(lia)) as D. lia. }
           assert (E : load64 m3 (fst e + 8) = load64 (heap s) (fst e + 8)).
           { subst m3 m1. rewrite !load_store_other by lia. reflexivity. }
           rewrite E.
           apply (lseg_frame s _ _ _ _ (fst e + 8 + snd e)
                    (memory_region s + region_size s) (fst e)
                    (fst e + 8 + snd e)); try assumption. right. lia.
        -- apply Z.eqb_neq in Pn. destruct (Hpv Pn) as (Pw & Pd & Pb).
           rewrite Pw.
           rewrite store_ok
             by (rewrite !set_heap_in_region; apply in_region_intro;
                 unfold WORD; lia).
           rewrite load_ok
             by (rewrite !set_heap_in_region; apply in_region_intro;
                 unfold WORD; lia).
           rewrite store_ok
             by (rewrite !set_heap_in_region; apply in_region_intro;
                 unfold WORD; lia).
           unfold ret.
           eexists _, _. split; [reflexivity|]. right.
           exists [], e, l2. split; [reflexivity|]. split; [reflexivity|].
           split; [exact Fit|]. split; [intros x []|].
           intros _ Hp. contradiction.
      * apply Z.ltb_ge in Split.
        unfold bind, next_at, WORD.
        rewrite (w64_small (fst e + 8)) by lia.
        destruct (prev =? NULL) eqn:Pn.
        -- unfold ret, put_free_list.
           rewrite load_ok by (apply in_region_intro; unfold WORD; lia).
           eexists _, _. split; [reflexivity|]. right.
           exists [], e, l2. split; [reflexivity|]. split; [reflexivity|].
           split; [exact Fit|]. split; [intros x []|].
           intros _ _ _. cbn [memory_region region_size free_list
                               set_free_list].
           split; [reflexivity|]. split; [reflexivity|].
           apply (lseg_same_heap s); [reflexivity | exact L].
        -- apply Z.eqb_neq in Pn. destruct (Hpv Pn) as (Pw & Pd & Pb).
           rewrite Pw. unfold ret.
           rewrite load_ok by (apply in_region_intro; unfold WORD; lia).
           rewrite store_ok by (apply in_region_intro; unfold WORD; lia).
           eexists _, _. split; [reflexivity|]. right.
           exists [], e, l2. split; [reflexivity|]. split; [reflexivity|].
           split; [exact Fit|]. split; [intros x []|].
           intros _ Hp. contradiction.
    + apply Z.leb_gt in Fit.
      unfold bind at 1. unfold next_at, WORD.
      rewrite (w64_small (fst e + 8)) by lia.
      rewrite load_ok by (apply in_region_intro; unfold WORD; lia).
      destruct (IH (fst e) _ (fst e + 8 + snd e) fuel L C3 ltac:(lia)
                   ltac:(right; lia)
                   ltac:(intros x Hx; apply Hw; right; exact Hx)
                   ltac:(cbn in Hf; lia))
        as (p & s' & Run & [(P & S & N) | (pre & e' & post & E & P & F & B & _)]).
      * exists p, s'. split; [exact Run|]. left.
        split; [exact P|]. split; [exact S|].
        intros x [<- | Hx]; [exact Fit | apply N; exact Hx].
      * exists p, s'. split; [exact Run|]. right.
        exists (e :: pre), e', post. split; [cbn; congruence|].
        split; [exact P|]. split; [exact F|].
        split; [intros x [<- | Hx]; [exact Fit | apply B; exact Hx]|].
        intros Hnil. discriminate.
Qed.
End FirstFitSelect.

Lemma first_fit_run s l fuel n :
  registry s l -> word_sized l -> 0 <= n <= 2 ^ 64 - 8 ->
  (length l < fuel)%nat ->
  exists p s',
    first_fit_algorithm fuel n s = Done p s' /\
    ((p = NULL /\ s' = s /\ forall x, In x l -> snd x < align_up n WORD) \/
     exists pre e post,
       l = pre ++ e :: post /\ p = fst e + WORD /\
       align_up n WORD <= snd e /\
       (forall x, In x pre -> snd x < align_up n WORD) /\
       (pre = [] -> 0 < n -> registry s' post)).
Proof.
  intros (Hreg & L & C) Hw Hn Hf.
  destruct (align_up_8_bounds n Hn) as [[A1 A2] A3].
  unfold first_fit_algorithm, bind, get_free_list.
  replace (mask_down (w64 (n + 7)) 8) with (align_up n WORD)
    by (unfold align_up, WORD; do 2 f_equal; lia).
  destruct (first_fit_loop_select s (align_up n WORD) Hreg ltac:(lia) A3
              l NULL (free_list s) (memory_region s) fuel L C (Z.le_refl _)
              (or_introl eq_refl) Hw Hf)
    as (p & s' & Run & [H | (pre & e & post & E & P & F & B & R)]).
  - exists p, s'. split; [exact Run|]. left. exact H.
  - exists p, s'. split; [exact Run|]. right.
    exists pre, e, post. split; [exact E|]. split; [exact P|].
    split; [exact F|]. split; [exact B|].
    intros Hnil Hpos. destruct (R Hnil eq_refl ltac:(lia)) as (G1 & G2 & Lp).
    subst pre l. cbn [app chain_ok] in C. destruct C as (C1 & C2 & C3).
    split; [split; rewrite G1, ?G2; apply Hreg|].
    split; [exact Lp|]. rewrite G1, G2.
    apply (chain_ok_weaken (block_end e) (memory_region s)
             (memory_region s + region_size s)
             (memory_region s + region_size s)); try lia; [|exact C3].
    unfold block_end, WORD in *. lia.
Qed.

(** X7: first fit returns the first block in address order whose size is
    at least the request, and fails, leaving the state untouched, exactly
    when no free block is that large.  The registry is address ordered,
    inside the region, with sizes that are multiples of 8. *)
Theorem first_fit_first_match (s : state) (l : list block) (fuel : nat)
  (n : Z)
  (Hreg : registry s l)
  (Hmul : word_sized l)
  (Halgo : alloc_algo s = FIRST_FIT)
  (Hn : 0 <= n <= 2 ^ 64 - 8)
  (Hfuel : (length l < fuel)%nat) :
  exists p s',
    umalloc fuel n s = Done p s' /\
    ((p = NULL /\ s' = s /\ forall x, In x l -> snd x < n) \/
     exists pre e post,
       l = pre ++ e :: post /\ p = fst e + WORD /\ n <= snd e /\
       forall x, In x pre -> fst x < fst e /\ snd x < n).
Proof.
  destruct (first_fit_run s l fuel n Hreg Hmul Hn Hfuel)
    as (p & s' & Run & H).
  unfold umalloc. rewrite Halgo. exists p, s'. split; [exact Run|].
  assert (Ae : forall x, In x l -> (align_up n WORD <= snd x <-> n <= snd x))
    by (intros x Hx; apply (align_up_8_le n (snd x) Hn (Hmul x Hx))).
  destruct H as [(P & S & N) | (pre & e & post & E & P & F & B & _)].
  - left. split; [exact P|]. split; [exact S|].
    intros x Hx. specialize (N x Hx). pose proof (Ae x Hx). lia.
  - right. exists pre, e, post. subst l. split; [reflexivity|].
    split; [exact P|].
    split; [apply (Ae e); [apply in_elt | exact F]|].
    intros x Hx. destruct Hreg as (_ & _ & C).
    split; [apply (chain_ok_before _ _ _ _ _ _ C Hx)|].
    assert (In x (pre ++ e :: post)) as Hin
        by (apply in_or_app; left; exact Hx).
    specialize (B x Hx). pose proof (Ae x Hin). lia.
Qed.

Lemma first_fit_first_match_witness :
  exists p s',
    umalloc 5 200 ff2 = Done p s' /\
    ((p = NULL /\ s' = ff2 /\
      forall x, In x [(base0, 104); (base0 + 224, 3864)] -> snd x < 200) \/
     exists pre e post,
       [(base0, 104); (base0 + 224, 3864)] = pre ++ e :: post /\
       p = fst e + WORD /\ 200 <= snd e /\
       forall x, In x pre -> fst x < fst e /\ snd x < 200).
Proof.
  apply (first_fit_first_match ff2 [(base0, 104); (base0 + 224, 3864)] 5 200).
  - registry_by_evaluation.
  - intros x [<- | [<- | []]]; reflexivity.
  - reflexivity.
  - lia.
  - cbn. lia.
Defined.

(** X8: when first fit serves a positive request from the first block of
    the registry, the registry afterwards is the rest of the list and
    nothing else: the chosen block is unlinked whether or not it was split,
    and the remainder of a split is not linked in.  The header of the
    returned block then records the aligned request if the block exceeded
    it by more than 8 bytes, and its old size otherwise. *)
Theorem first_fit_unlinks_head_block (s : state) (e : block)
  (post : list block) (fuel : nat) (n : Z)
  (Hreg : registry s (e :: post))
  (Hmul : word_sized (e :: post))
  (Halgo : alloc_algo s = FIRST_FIT)
  (Hn : 0 < n <= 2 ^ 64 - 8)
  (Hfit : n <= snd e)
  (Hfuel : (length post + 1 < fuel)%nat) :
  exists s',
    umalloc fuel n s = Done (fst e + WORD) s' /\
    registry s' post /\
    load64 (heap s') (fst e)
    = if align_up n WORD + WORD <? snd e then align_up n WORD else snd e.
Proof.
  destruct (first_fit_run s (e :: post) fuel n Hreg Hmul ltac:(lia)
              ltac:(cbn; lia))
    as (p & s' & Run & H).
  pose proof (align_up_8_le n (snd e) ltac:(lia)
                (Hmul e (or_introl eq_refl))) as Ae.
  assert (Hp : p <> NULL).
  { destruct H as [(P & S & N) | (pre & e' & post' & E & P & F & B & _)].
    - specialize (N e (or_introl eq_refl)). lia.
    - destruct Hreg as ((Hb & _) & _ & C). subst p.
      assert (In e' (e :: post)) as Hin by (rewrite E; apply in_elt).
      destruct (chain_ok_In _ _ _ _ C Hin) as (X & _). unfold NULL, WORD. lia. }
  destruct (first_fit_header s (e :: post) fuel n p s' Hreg ltac:(lia) Run Hp)
    as (e1 & In1 & P1 & F1 & H1).
  destruct H as [(P & _) | (pre & e' & post' & E & P & F & B & R)];
    [contradiction|].
  destruct pre as [|x pre].
  - cbn [app] in E. inversion E; subst e' post'.
    assert (e1 = e) as ->.
    { destruct In1 as [<- | In1]; [reflexivity|].
      exfalso. destruct Hreg as (_ & _ & C).
      pose proof (chain_ok_behind _ _ [] e post e1 C In1). lia. }
    exists s'. unfold umalloc. rewrite Halgo.
    split; [rewrite Run, P; reflexivity|].
    split; [apply R; [reflexivity | lia] | exact H1].
  - cbn [app] in E. inversion E; subst x.
    specialize (B e (or_introl eq_refl)). lia.
Qed.

Lemma first_fit_unlinks_head_block_witness :
  exists s',
    umalloc 5 50 (fresh FIRST_FIT) = Done (fst (base0, 4088) + WORD) s' /\
    registry s' [] /\
    load64 (heap s') (fst (base0, 4088))
    = if align_up 50 WORD + WORD <? snd (base0, 4088)
      then align_up 50 WORD else snd (base0, 4088).
Proof.
  apply (first_fit_unlinks_head_block (fresh FIRST_FIT) (base0, 4088) [] 5 50).
  - registry_by_evaluation.
  - intros x [<- | []]. reflexivity.
  - reflexivity.
  - lia.
  - cbn. lia.
  - cbn. lia.
Defined.

(** * Worst fit: which block is chosen, and what becomes of the registry *)

Section WorstFitScan.
Variable s : state.
Variable size : Z.
Hypothesis Hregion : region_ok s.
Hypothesis Hsize : 0 <= size.

Lemma worst_fit_scan_spec :
  forall l2 l1 a lo fuel worst wp ld,
    lseg s a l2 NULL ->
    chain_ok lo (memory_region s + region_size s) l2 ->
    memory_region s <= lo ->
    worst_so_far size l1 worst wp ld ->
    (length l2 < fuel)%nat ->
    exists worst' wp' ld',
      worst_fit_scan fuel size worst wp ld (link_after l1) a s
      = Done (worst', wp') s /\
      worst_so_far size (l1 ++ l2) worst' wp' ld'.
Proof.
  destruct Hregion as [Hbase Hend].
  induction l2 as [|e l2 IH]; intros l1 a lo fuel worst wp ld L C Hlo I Hf;
    (destruct fuel as [|fuel]; [cbn in Hf; lia|]); cbn [worst_fit_scan].
  - cbn in L. subst a. cbn. exists worst, wp, ld.
    split; [reflexivity|]. rewrite app_nil_r. exact I.
  - cbn in L. destruct L as (-> & Hsz & L).
    cbn in C. destruct C as (C1 & C2 & C3).
    pose proof (chain_ok_le _ _ _ C3) as C4.
    unfold block_end, WORD in C2, C3, C4, L.
    replace (fst e =? NULL) with false
      by (symmetry; apply Z.eqb_neq; unfold NULL; lia).
    unfold bind at 1. unfold size_at.
    rewrite load_ok by (apply in_region_intro; unfold WORD; lia).
    rewrite Hsz.
    unfold bind at 1. cbn [read_link]. unfold WORD.
    rewrite (w64_small (fst e + 8)) by lia.
    rewrite load_ok by (apply in_region_intro; unfold WORD; lia).
    change (Field (fst e + 8)) with (Field (fst e + WORD)).
    rewrite <- (link_after_snoc l1 e).
    set (worse := (size <=? snd e) && (ld <? w64 (snd e - size))).
    assert (I' : worst_so_far size (l1 ++ [e])
                   (if worse then fst e else worst)
                   (if worse then link_after l1 else wp)
                   (if worse then w64 (snd e - size) else ld)).
    { destruct worse eqn:B; subst worse.
      - apply andb_true_iff in B. destruct B as [B1 B2].
        apply Z.leb_le in B1. apply Z.ltb_lt in B2.
        rewrite w64_small in * by lia.
        right. exists l1, e, [].
        destruct I as [(I1 & I2 & I3) | (pre & e0 & post & I1 & I2 & I3 & I4 & I5 & I6 & I7)].
        + subst ld. repeat split; try reflexivity; try lia.
          * intros x Hx. apply I3 in Hx. lia.
          * intros x [].
        + subst l1 ld. repeat split; try reflexivity; try lia.
          * intros x Hx.
            apply in_app_or in Hx. destruct Hx as [Hx | [<- | Hx]].
            -- specialize (I6 x Hx). lia.
            -- lia.
            -- specialize (I7 x Hx). lia.
          * intros x [].
      - apply andb_false_iff in B.
        destruct I as [(I1 & I2 & I3) | (pre & e0 & post & I1 & I2 & I3 & I4 & I5 & I6 & I7)].
        + left. repeat split; try assumption.
          intros x Hx. apply in_app_or in Hx. destruct Hx as [Hx | [<- | []]].
          * apply I3. exact Hx.
          * destruct B as [B | B]; [apply Z.leb_gt in B; lia|].
            apply Z.ltb_ge in B. subst ld.
            destruct (Z.lt_ge_cases (snd e) size) as [X | X]; [lia|].
            rewrite w64_small in B by lia. lia.
        + right. exists pre, e0, (post ++ [e]). subst l1.
          rewrite <- app_assoc. cbn [app]. repeat split; try assumption.
          intros x Hx. apply in_app_or in Hx. destruct Hx as [Hx | [<- | []]].
          * apply I7; assumption.
          * destruct B as [B | B]; [apply Z.leb_gt in B; lia|].
            apply Z.ltb_ge in B. subst ld.
            destruct (Z.lt_ge_cases (snd e) size) as [X | X]; [lia|].
            rewrite w64_small in B by lia. lia. }
    destruct (IH (l1 ++ [e]) _ (fst e + 8 + snd e) fuel _ _ _ L C3
                 ltac:(lia) I' ltac:(cbn in Hf; lia))
      as (w' & p' & d' & Run & I'').
    exists w', p', d'. split; [exact Run|].
    rewrite <- app_assoc in I''. exact I''.
Qed.
End WorstFitScan.

Lemma worst_fit_run s l fuel n :
  registry s l -> word_sized l -> 0 <= n < 2 ^ 64 -> n mod 8 = 0 ->
  (length l < fuel)%nat ->
  exists p s',
    worst_fit_algorithm fuel n s = Done p s' /\
    ((p = NULL /\ s' = s /\ forall x, In x l -> snd x <= n) \/
     exists pre e post,
       l = pre ++ e :: post /\ p = fst e + WORD /\ n < snd e /\
       (forall x, In x pre -> snd x < snd e) /\
       (forall x, In x post -> snd x <= snd e) /\
       load64 (heap s') (fst e) = n /\
       if n + WORD + WORD <? snd e then
         0 < n ->
         registry s' (pre ++ (fst e + WORD + n, snd e - n - WORD) :: post)
       else
         (snd e = n + 8 \/ snd e = n + 16) /\ registry s' (pre ++ post)).
Proof.
  intros (Hreg & L & C) Hw Hn Hn8 Hf.
  unfold worst_fit_algorithm. unfold bind at 1, get_free_list.
  assert (I0 : worst_so_far n [] NULL Head 0)
    by (left; repeat split; intros x []).
  destruct (worst_fit_scan_spec s n Hreg ltac:(lia) l [] (free_list s)
              (memory_region s) fuel NULL Head 0 L C (Z.le_refl _) I0 Hf)
    as (wb & wp & ld & Scan & I).
  change (link_after []) with Head in Scan. cbn [app] in I.
  unfold bind at 1. rewrite Scan.
  destruct Hreg as [Hbase Hend].
  destruct I as [(I1 & _ & I3) | (pre & e & post & -> & I1 & I2 & I3 & I4 & I5 & I6)].
  { subst wb. cbn. exists NULL, s. split; [reflexivity|]. left. auto. }
  assert (He8 : snd e mod 8 = 0) by (apply Hw; apply in_elt).
  apply lseg_app in L. destruct L as (mid & Lpre & Le).
  cbn [lseg] in Le. destruct Le as (-> & Lsz & Lpost).
  apply chain_ok_app in C. destruct C as (cm & Cpre & Ce).
  cbn [chain_ok] in Ce. destruct Ce as (Ce1 & Ce2 & Cpost).
  pose proof (chain_ok_le _ _ _ Cpost) as Ce3.
  pose proof (chain_ok_le _ _ _ Cpre) as Ce4.
  unfold block_end in Cpost, Ce3. unfold WORD in *.
  subst wb wp.
  assert (Hroom : n + 8 <= snd e).
  { pose proof (Z.div_mod n 8 ltac:(lia)) as D1.
    pose proof (Z.div_mod (snd e) 8 ltac:(lia)) as D2. lia. }
  replace (fst e =? NULL) with false
    by (symmetry; apply Z.eqb_neq; unfold NULL; lia).
  unfold bind at 1. unfold size_at.
  rewrite load_ok by (apply in_region_intro; unfold WORD; lia).
  rewrite Lsz. rewrite (w64_small (snd e - n - 8)) by lia.
  pose proof (lseg_head_range s _ post _ _ Lpost Cpost ltac:(lia) ltac:(lia))
    as Hnxt.
  rewrite (w64_small (fst e + 8)) by lia.
  destruct (8 <? snd e - n - 8) eqn:Split.
  - (* the block is split *)
    apply Z.ltb_lt in Split.
    assert (Hrem : 16 <= snd e - n - 8).
    { pose proof (Z.div_mod n 8 ltac:(lia)) as D1.
      pose proof (Z.div_mod (snd e) 8 ltac:(lia)) as D2. lia. }
    rewrite (w64_small (fst e + 8 + n)) by lia.
    set (nb := fst e + 8 + n).
    rewrite (w64_small (nb + 8)) by lia.
    unfold bind, next_at, WORD.
    rewrite store_ok by (apply in_region_intro; unfold WORD; lia).
    rewrite (w64_small (fst e + 8)) by lia.
    rewrite load_ok
      by (rewrite set_heap_in_region; apply in_region_intro; unfold WORD; lia).
    rewrite store_ok
      by (rewrite set_heap_in_region; apply in_region_intro; unfold WORD; lia).
    cbn [heap set_heap].
    set (m1 := store64 (heap s) nb (snd e - n - 8)).
    set (nxt1 := load64 m1 (fst e + 8)).
    set (m2 := store64 m1 (nb + 8) nxt1).
    set (s2 := set_heap _ m2).
    assert (F2 : agree_outside (fst e) (fst e + 8 + snd e) (heap s) m2).
    { subst m2 m1.
      apply (agree_outside_trans _ _ _ (store64 (heap s) nb (snd e - n - 8)));
        apply agree_outside_store; unfold WORD; lia. }
    assert (R2 : region_ok s2) by (split; assumption).
    assert (Lpre2 : lseg s2 (free_list s2) pre (fst e)).
    { apply (lseg_frame s s2 _ _ _ (memory_region s) cm (fst e)
               (fst e + 8 + snd e)); try assumption. left. lia. }
    destruct (relink s2 pre (fst e) nb (memory_region s) cm R2 Lpre2 Cpre
                (Z.le_refl _) ltac:(cbn; lia) ltac:(lia))
      as (s3 & W & L3 & F3 & H3 & G1 & G2 & G3 & G4).
    rewrite W.
    assert (In3 : in_region s3 (fst e) = true).
    { apply in_region_intro; rewrite G1, ?G2; unfold s2;
        cbn [memory_region region_size set_heap]; unfold WORD; lia. }
    rewrite (store_ok s3 _ _ In3). unfold ret.
    set (s4 := set_heap s3 (store64 (heap s3) (fst e) n)).
    assert (F4 : agree_outside (fst e) (fst e + 8) (heap s3) (heap s4))
      by (apply agree_outside_store; unfold WORD; lia).
    exists (fst e + 8), s4. split; [reflexivity|]. right.
    exists pre, e, post. split; [reflexivity|]. split; [reflexivity|].
    split; [lia|]. split; [exact I5|]. split; [exact I6|].
    split; [cbn [heap s4 set_heap]; rewrite load_store_same;
            apply w64_small; lia|].
    replace (n + 8 + 8 <? snd e) with true
      by (symmetry; apply Z.ltb_lt; lia).
    intros Hpos.
    assert (Hn8' : 8 <= n).
    { pose proof (Z.div_mod n 8 ltac:(lia)) as D. lia. }
    split; [split; cbn [memory_region region_size s4 set_heap];
            rewrite G1, ?G2; unfold s2;
            cbn [memory_region region_size set_heap]; assumption|].
    split.
    + cbn [free_list s4 set_heap].
      apply lseg_app. exists nb. split.
      * apply (lseg_frame s3 s4 _ _ _ (memory_region s) cm (fst e)
                 (fst e + 8)); try assumption. left. lia.
      * cbn [lseg fst snd]. fold nb. split; [reflexivity|].
        assert (Hnb : load64 m2 nb = snd e - n - 8).
        { subst m2 m1. rewrite load_store_other by lia.
          rewrite load_store_same. apply w64_small. lia. }
        assert (Hnx : load64 m2 (nb + 8) = load64 (heap s) (fst e + 8)).
        { subst m2. rewrite load_store_same. subst nxt1 m1.
          rewrite load_store_other by lia. apply w64_small. exact Hnxt. }
        split.
        -- rewrite (F4 nb) by (unfold WORD; lia).
           rewrite (F3 nb) by lia. exact Hnb.
        -- unfold WORD. rewrite (F4 (nb + 8)) by (unfold WORD; lia).
           rewrite (F3 (nb + 8)) by lia. cbn [heap s2 set_heap].
           rewrite Hnx.
           apply (lseg_frame s3 s4 _ _ _ (fst e + 8 + snd e)
                    (memory_region s + region_size s) (fst e) (fst e + 8));
             try assumption; [|right; lia].
           apply (lseg_frame s2 s3 _ _ _ (fst e + 8 + snd e)
                    (memory_region s + region_size s) (memory_region s) cm);
             try assumption; [|right; lia].
           apply (lseg_frame s s2 _ _ _ (fst e + 8 + snd e)
                    (memory_region s + region_size s) (fst e)
                    (fst e + 8 + snd e));
             try assumption. right. lia.
    + cbn [memory_region region_size s4 set_heap]. rewrite G1, G2.
      cbn [memory_region region_size s2 set_heap].
      apply chain_ok_app. exists cm. split; [exact Cpre|].
      cbn [chain_ok fst snd]. unfold block_end, WORD. cbn [fst snd]. fold nb.
      split; [lia|]. split; [lia|].
      replace (nb + 8 + (snd e - n - 8)) with (fst e + 8 + snd e) by lia.
      exact Cpost.
  - (* the block is handed out whole, with its header overwritten *)
    apply Z.ltb_ge in Split.
    unfold bind, next_at, WORD.
    rewrite (w64_small (fst e + 8)) by lia.
    rewrite load_ok by (apply in_region_intro; unfold WORD; lia).
    destruct (relink s pre (fst e) (load64 (heap s) (fst e + 8))
                (memory_region s) cm (conj Hbase Hend) Lpre Cpre
                (Z.le_refl _) ltac:(lia) Hnxt)
      as (s3 & W & L3 & F3 & H3 & G1 & G2 & G3 & G4).
    rewrite W.
    assert (In3 : in_region s3 (fst e) = true).
    { apply in_region_intro; rewrite G1, ?G2; unfold WORD; lia. }
    rewrite (store_ok s3 _ _ In3). unfold ret.
    set (s4 := set_heap s3 (store64 (heap s3) (fst e) n)).
    assert (F4 : agree_outside (fst e) (fst e + 8) (heap s3) (heap s4))
      by (apply agree_outside_store; unfold WORD; lia).
    exists (fst e + 8), s4. split; [reflexivity|]. right.
    exists pre, e, post. split; [reflexivity|]. split; [reflexivity|].
    split; [lia|]. split; [exact I5|]. split; [exact I6|].
    split; [cbn [heap s4 set_heap]; rewrite load_store_same;
            apply w64_small; lia|].
    replace (n + 8 + 8 <? snd e) with false
      by (symmetry; apply Z.ltb_ge; lia).
    split.
    { pose proof (Z.div_mod n 8 ltac:(lia)) as D1.
      pose proof (Z.div_mod (snd e) 8 ltac:(lia)) as D2. lia. }
    split; [split; cbn [memory_region region_size s4 set_heap];
            rewrite G1, ?G2; assumption|].
    split.
    + cbn [free_list s4 set_heap].
      apply lseg_app. exists (load64 (heap s) (fst e + 8)). split.
      * apply (lseg_frame s3 s4 _ _ _ (memory_region s) cm (fst e)
                 (fst e + 8)); try assumption. left. lia.
      * apply (lseg_frame s3 s4 _ _ _ (fst e + 8 + snd e)
                 (memory_region s + region_size s) (fst e) (fst e + 8));
          try assumption; [|right; lia].
        apply (lseg_frame s s3 _ _ _ (fst e + 8 + snd e)
                 (memory_region s + region_size s) (memory_region s) cm);
          try assumption. right. lia.
    + cbn [memory_region region_size s4 set_heap]. rewrite G1, G2.
      apply chain_ok_app. exists cm. split; [exact Cpre|].
      apply (chain_ok_weaken (fst e + 8 + snd e) cm
               (memory_region s + region_size s)); try lia. exact Cpost.
Qed.

(** X9: worst fit returns the first block in address order among those of
    largest size, provided that size is strictly larger than the request;
    it fails, leaving the state untouched, exactly when every free block has
    size at most the request, so a block of exactly the requested size is
    never handed out.  The registry is address ordered, inside the region,
    and the sizes and the request are multiples of 8. *)
Theorem worst_fit_largest (s : state) (l : list block) (fuel : nat) (n : Z)
  (Hreg : registry s l)
  (Hmul : word_sized l)
  (Halgo : alloc_algo s = WORST_FIT)
  (Hn : 0 <= n < 2 ^ 64)
  (Hn8 : n mod 8 = 0)
  (Hfuel : (length l < fuel)%nat) :
  exists p s',
    umalloc fuel n s = Done p s' /\
    ((p = NULL /\ s' = s /\ forall x, In x l -> snd x <= n) \/
     exists pre e post,
       l = pre ++ e :: post /\ p = fst e + WORD /\ n < snd e /\
       (forall x, In x pre -> fst x < fst e /\ snd x < snd e) /\
       (forall x, In x post -> fst e < fst x /\ snd x <= snd e)).
Proof.
  destruct (worst_fit_run s l fuel n Hreg Hmul Hn Hn8 Hfuel)
    as (p & s' & Run & H).
  unfold umalloc. rewrite Halgo. exists p, s'. split; [exact Run|].
  destruct H as [H | (pre & e & post & E & P & F & B1 & B2 & _)];
    [left; exact H|].
  right. exists pre, e, post. subst l. destruct Hreg as (_ & _ & C).
  split; [reflexivity|]. split; [exact P|]. split; [exact F|]. split.
  - intros x Hx. split; [apply (chain_ok_before _ _ _ _ _ _ C Hx) | auto].
  - intros x Hx. split; [apply (chain_ok_behind _ _ _ _ _ _ C Hx) | auto].
Qed.

Lemma worst_fit_largest_witness :
  exists p s',
    umalloc 5 8 wf2 = Done p s' /\
    ((p = NULL /\ s' = wf2 /\
      forall x, In x [(base0, 104); (base0 + 224, 3864)] -> snd x <= 8) \/
     exists pre e post,
       [(base0, 104); (base0 + 224, 3864)] = pre ++ e :: post /\
       p = fst e + WORD /\ 8 < snd e /\
       (forall x, In x pre -> fst x < fst e /\ snd x < snd e) /\
       (forall x, In x post -> fst e < fst x /\ snd x <= snd e)).
Proof.
  apply (worst_fit_largest wf2 [(base0, 104); (base0 + 224, 3864)] 5 8).
  - registry_by_evaluation.
  - intros x [<- | [<- | []]]; reflexivity.
  - reflexivity.
  - lia.
  - reflexivity.
  - cbn. lia.
Defined.

(** X10: after a successful worst-fit allocation of a positive request
    the header of the returned block holds the request, whatever the block
    held before.  If the block exceeded the request by more than 16 bytes it
    was split and the remainder, of size [size - request - 8], takes its
    place in the registry.  Otherwise the block exceeded the request by 8 or
    16 bytes, it leaves the registry, and those bytes are no longer recorded
    in any header.  Same registry and sizes as for X9. *)
Theorem worst_fit_overwrites_header (s : state) (l : list block)
  (fuel : nat) (n p : Z) (s' : state)
  (Hreg : registry s l)
  (Hmul : word_sized l)
  (Halgo : alloc_algo s = WORST_FIT)
  (Hn : 0 < n < 2 ^ 64)
  (Hn8 : n mod 8 = 0)
  (Hrun : umalloc fuel n s = Done p s')
  (Hp : p <> NULL) :
  exists pre e post,
    l = pre ++ e :: post /\ p = fst e + WORD /\
    load64 (heap s') (fst e) = n /\
    if n + WORD + WORD <? snd e then
      registry s' (pre ++ (fst e + WORD + n, snd e - n - WORD) :: post)
    else
      (snd e = n + 8 \/ snd e = n + 16) /\ registry s' (pre ++ post).
Proof.
  unfold umalloc in Hrun. rewrite Halgo in Hrun.
  destruct (Nat.lt_ge_cases (length l) fuel) as [Hf | Hf].
  - destruct (worst_fit_run s l fuel n Hreg Hmul ltac:(lia) Hn8 Hf)
      as (p1 & s1 & Run & H).
    rewrite Run in Hrun. inversion Hrun; subst p1 s1.
    destruct H as [(P & _) | (pre & e & post & E & P & _ & _ & _ & Hh & R)];
      [contradiction|].
    exists pre, e, post. split; [exact E|]. split; [exact P|].
    split; [exact Hh|].
    destruct (n + WORD + WORD <? snd e); [apply R; lia | exact R].
  - exfalso. clear Hp. revert Hrun.
    destruct Hreg as (Hr & L & C).
    unfold worst_fit_algorithm, bind at 1, get_free_list. unfold bind at 1.
    assert (T : forall l2 a lo f wb wp ld pp,
               lseg s a l2 NULL ->
               chain_ok lo (memory_region s + region_size s) l2 ->
               memory_region s <= lo -> (f <= length l2)%nat ->
               worst_fit_scan f n wb wp ld pp a s = OutOfFuel).
    { destruct Hr as [Hb He].
      induction l2 as [|e l2 IH]; intros a lo f wb wp ld pp L2 C2 Hlo Hfl.
      - cbn in Hfl. assert (f = O) as -> by lia. reflexivity.
      - destruct f as [|f]; [reflexivity|]. cbn [worst_fit_scan].
        cbn in L2. destruct L2 as (-> & Hsz & L2).
        cbn in C2. destruct C2 as (C1 & C2' & C3).
        pose proof (chain_ok_le _ _ _ C3) as C4.
        unfold block_end, WORD in C2', C3, C4, L2.
        replace (fst e =? NULL) with false
          by (symmetry; apply Z.eqb_neq; unfold NULL; lia).
        unfold bind, size_at. cbn [read_link]. unfold WORD.
        rewrite (w64_small (fst e + 8)) by lia.
        rewrite load_ok by (apply in_region_intro; unfold WORD; lia).
        rewrite load_ok by (apply in_region_intro; unfold WORD; lia).
        apply (IH _ (fst e + 8 + snd e)); try assumption; try lia.
        cbn in Hfl. lia. }
    rewrite (T l (free_list s) (memory_region s) fuel NULL Head 0 Head L C
               (Z.le_refl _) Hf).
    discriminate.
Qed.

Lemma worst_fit_overwrites_header_witness :
  exists pre e post,
    [(base0, 104); (base0 + 224, 3864)] = pre ++ e :: post /\
    base0 + 232 = fst e + WORD /\
    load64 (heap (after (umalloc 5 8) wf2)) (fst e) = 8 /\
    if 8 + WORD + WORD <? snd e then
      registry (after (umalloc 5 8) wf2)
               (pre ++ (fst e + WORD + 8, snd e - 8 - WORD) :: post)
    else
      (snd e = 8 + 8 \/ snd e = 8 + 16) /\
      registry (after (umalloc 5 8) wf2) (pre ++ post).
Proof.
  apply (worst_fit_overwrites_header wf2 [(base0, 104); (base0 + 224, 3864)]
           5 8 (base0 + 232) (after (umalloc 5 8) wf2)).
  - registry_by_evaluation.
  - intros x [<- | [<- | []]]; reflexivity.
  - reflexivity.
  - lia.
  - reflexivity.
  - apply done_intro. closed.
  - closed.
Defined.

(** * Best fit keeps the registry well formed and accounts for every byte *)

Lemma footprint_app l1 l2 : footprint (l1 ++ l2) = footprint l1 + footprint l2.
Proof. induction l1 as [|e l1 IH]; cbn [app footprint]; lia. Qed.

(** X11: a best-fit allocation of a positive request keeps the registry
    address ordered, inside the region and word sized.  When it fails the
    state is untouched.  When it succeeds the header of the returned block
    records at least the request, and the bytes of the free blocks before
    the call are exactly those of the free blocks after it plus the header
    and the recorded size of the returned block. *)
Theorem best_fit_accounts_for_every_byte (s : state) (l : list block)
  (fuel : nat) (n : Z)
  (Hreg : registry s l)
  (Hmul : word_sized l)
  (Halgo : alloc_algo s = BEST_FIT)
  (Hn : 0 < n <= 2 ^ 64 - 8)
  (Hfuel : (length l < fuel)%nat) :
  exists p s' l',
    umalloc fuel n s = Done p s' /\
    registry s' l' /\ word_sized l' /\
    (p = NULL -> s' = s /\ l' = l) /\
    (p <> NULL ->
     n <= load64 (heap s') (p - WORD) /\
     footprint l = footprint l' + WORD + load64 (heap s') (p - WORD)).
Proof.
  pose proof (best_fit_run s l fuel n Hreg ltac:(lia)) as R.
  destruct (align_up_8_bounds n ltac:(lia)) as [[A1 A2] A3].
  unfold umalloc. rewrite Halgo.
  destruct (best_fit_algorithm fuel n s) as [p s' | |]; [| contradiction | lia].
  destruct R as (_ & [(P & S & N) | (pre & e & post & E & P & Fit & _ & _ & R)]).
  - exists p, s', l. subst s'. split; [reflexivity|]. split; [exact Hreg|].
    split; [exact Hmul|]. split; [auto | contradiction].
  - assert (He : In e l) by (rewrite E; apply in_elt).
    pose proof (Hmul e He) as He8.
    assert (Hpn : p <> NULL).
    { destruct Hreg as ((Hb & _) & _ & C).
      destruct (chain_ok_In _ _ _ _ C He) as (X & _).
      subst p. unfold NULL, WORD. lia. }
    assert (Hsub : forall x, In x pre \/ In x post -> snd x mod 8 = 0).
    { intros x Hx. apply Hmul. rewrite E. apply in_or_app.
      destruct Hx; [left | right; right]; assumption. }
    assert (Ep : p - WORD = fst e) by (subst p; lia).
    destruct (align_up n WORD + WORD + WORD <? snd e) eqn:Split.
    + destruct R as [Hh Rg]. specialize (Rg ltac:(lia)).
      exists p, s', (pre ++ (fst e + WORD + align_up n WORD,
                             snd e - align_up n WORD - WORD) :: post).
      split; [reflexivity|]. split; [exact Rg|]. split.
      * intros x Hx. apply in_app_or in Hx.
        destruct Hx as [Hx | [<- | Hx]]; [apply Hsub; auto | | apply Hsub; auto].
        cbn [snd]. unfold WORD.
        pose proof (Z.div_mod (snd e) 8 ltac:(lia)) as D1.
        pose proof (Z.div_mod (align_up n 8) 8 ltac:(lia)) as D2.
        unfold WORD in A3. rewrite He8 in D1. rewrite A3 in D2.
        replace (snd e - align_up n 8 - 8)
          with ((snd e / 8 - align_up n 8 / 8 - 1) * 8) by lia.
        apply Z.mod_mul. lia.
      * split; [intros Hp; contradiction|]. intros _.
        rewrite Ep, Hh. split; [lia|].
        rewrite E, !footprint_app. cbn [footprint fst snd]. lia.
    + destruct R as [Hh Rg].
      exists p, s', (pre ++ post).
      split; [reflexivity|]. split; [exact Rg|]. split.
      * intros x Hx. apply in_app_or in Hx. apply Hsub. exact Hx.
      * split; [intros Hp; contradiction|]. intros _.
        rewrite Ep, Hh. split; [lia|].
        rewrite E, !footprint_app. cbn [footprint]. lia.
Qed.

Lemma best_fit_accounts_for_every_byte_witness :
  exists p s' l',
    umalloc 5 50 bf2 = Done p s' /\
    registry s' l' /\ word_sized l' /\
    (p = NULL -> s' = bf2 /\ l' = [(base0, 104); (base0 + 224, 3864)]) /\
    (p <> NULL ->
     50 <= load64 (heap s') (p - WORD) /\
     footprint [(base0, 104); (base0 + 224, 3864)]
     = footprint l' + WORD + load64 (heap s') (p - WORD)).
Proof.
  apply (best_fit_accounts_for_every_byte bf2
           [(base0, 104); (base0 + 224, 3864)] 5 50).
  - registry_by_evaluation.
  - intros x [<- | [<- | []]]; reflexivity.
  - reflexivity.
  - lia.
  - cbn. lia.
Defined.

(** * The coalescer as a function on registries *)

Lemma footprint_coalesce_from rest :
  forall cur, footprint (coalesce_from cur rest) = footprint (cur :: rest).
Proof.
  induction rest as [|nxt rest IH]; intros cur; cbn [coalesce_from];
    [reflexivity|].
  destruct (block_end cur =? fst nxt).
  - rewrite IH. cbn [footprint fst snd]. lia.
  - cbn [footprint]. rewrite IH. cbn [footprint]. lia.
Qed.

Lemma coalesce_from_no_adjacent rest :
  forall cur, no_adjacent (cur :: rest) -> coalesce_from cur rest = cur :: rest.
Proof.
  induction rest as [|nxt rest IH]; intros cur N; cbn [coalesce_from];
    [reflexivity|].
  replace (block_end cur =? fst nxt) with false.
  - rewrite IH; [reflexivity|].
    intros e1 e2 H1 H2. apply N; right; assumption.
  - symmetry. apply Z.eqb_neq. apply N; cbn; auto.
Qed.

Lemma coalesce_no_adjacent l : no_adjacent l -> coalesce l = l.
Proof.
  destruct l as [|cur rest]; [reflexivity|].
  apply coalesce_from_no_adjacent.
Qed.

(** X12: on an address-ordered registry inside the region
    [coalescing_memory] returns and leaves the registry with every run of
    adjacent blocks merged into one.  No two entries are adjacent
    afterwards, the merged registry covers exactly the bytes the registry
    covered before, and a second pass would change nothing. *)
Theorem coalescing_memory_merges (s : state) (l : list block) (fuel : nat)
  (Hreg : registry s l)
  (Hfuel : (0 < fuel)%nat /\ (length l <= fuel)%nat) :
  exists s',
    coalescing_memory fuel s = Done tt s' /\
    registry s' (coalesce l) /\
    no_adjacent (coalesce l) /\
    footprint (coalesce l) = footprint l /\
    coalesce (coalesce l) = coalesce l.
Proof.
  destruct Hreg as (Hr & L & C). destruct Hfuel as [F0 F1].
  unfold coalescing_memory, bind, get_free_list.
  destruct l as [|cur rest].
  - cbn in L. rewrite L. destruct fuel as [|fuel]; [lia|]. cbn.
    exists s. split; [reflexivity|].
    split; [split; [exact Hr | split; [cbn; exact L | exact C]]|].
    split; [intros e1 e2 []|]. split; reflexivity.
  - pose proof L as (Hfl & _). rewrite Hfl in L |- *.
    assert (F2 : (length rest < fuel)%nat) by (cbn [length] in F1; lia).
    destruct (coalescing_loop_spec rest cur s fuel (memory_region s) Hr L C
                (Z.le_refl _) F2)
      as (s' & Run & L' & C' & _ & G1 & G2 & G3).
    assert (A : apart 0 (coalesce_from cur rest)).
    { apply (coalesce_from_apart rest cur _ _ 0 C).
      cbn [chain_ok] in C. destruct Hr. lia. }
    pose proof (apart_no_adjacent _ _ A) as N.
    exists s'. split; [exact Run|]. cbn [coalesce].
    split.
    + split; [split; rewrite G1, ?G2; apply Hr|].
      split; [rewrite G3, Hfl; exact L' | rewrite G1, G2; exact C'].
    + split; [exact N|]. split; [apply footprint_coalesce_from|].
      apply coalesce_no_adjacent. exact N.
Qed.

Lemma coalescing_memory_merges_witness :
  exists s',
    coalescing_memory 5 bf_unmerged = Done tt s' /\
    registry s'
      (coalesce [(base0, 104); (base0 + 112, 104); (base0 + 224, 3864)]) /\
    no_adjacent
      (coalesce [(base0, 104); (base0 + 112, 104); (base0 + 224, 3864)]) /\
    footprint (coalesce [(base0, 104); (base0 + 112, 104); (base0 + 224, 3864)])
    = footprint [(base0, 104); (base0 + 112, 104); (base0 + 224, 3864)] /\
    coalesce (coalesce [(base0, 104); (base0 + 112, 104); (base0 + 224, 3864)])
    = coalesce [(base0, 104); (base0 + 112, 104); (base0 + 224, 3864)].
Proof.
  apply (coalescing_memory_merges bf_unmerged
           [(base0, 104); (base0 + 112, 104); (base0 + 224, 3864)] 5).
  - registry_by_evaluation.
  - cbn. lia.
Defined.

(** * What a computation leaves alone *)

Section Keeps.
Context {X : Type}.
Variable f : state -> X.
Hypothesis Hheap : forall s m, f (set_heap s m) = f s.

Lemma keeps_ret {A} (a : A) : keeps f (ret a).
Proof. intros s x s' H. inversion H. reflexivity. Qed.

Lemma keeps_bind {A B} (c : M A) (k : A -> M B) :
  keeps f c -> (forall a, keeps f (k a)) -> keeps f (bind c k).
Proof.
  intros Hc Hk s b s' H. unfold bind in H.
  destruct (c s) as [a s1 | |] eqn:E; try discriminate.
  rewrite (Hk a _ _ _ H). apply (Hc _ _ _ E).
Qed.

Lemma keeps_load a : keeps f (load a).
Proof.
  intros s x s' H. unfold load in H.
  destruct (in_region s a); inversion H. reflexivity.
Qed.

Lemma keeps_store a v : keeps f (store a v).
Proof.
  intros s x s' H. unfold store in H.
  destruct (in_region s a); inversion H. apply Hheap.
Qed.

Lemma keeps_get_free_list : keeps f get_free_list.
Proof. intros s x s' H. inversion H. reflexivity. Qed.

Lemma keeps_get_last_allocated : keeps f get_last_allocated.
Proof. intros s x s' H. inversion H. reflexivity. Qed.

Lemma keeps_if {A} (b : bool) (c1 c2 : M A) :
  keeps f c1 -> keeps f c2 -> keeps f (if b then c1 else c2).
Proof. destruct b; auto. Qed.

Lemma keeps_out_of_fuel {A} : keeps f (fun _ : state => @OutOfFuel A).
Proof. intros s a s' H. discriminate. Qed.

Section Cursor.
Hypothesis Hcursor : forall s p, f (set_last_allocated s p) = f s.

Lemma keeps_put_last_allocated p : keeps f (put_last_allocated p).
Proof. intros s x s' H. inversion H. apply Hcursor. Qed.

Lemma keeps_next_fit_guard : keeps f next_fit_guard.
Proof.
  intros s x s' H. unfold next_fit_guard in H.
  destruct (cursor_out_of_bounds s); inversion H;
    [apply Hcursor | reflexivity].
Qed.

Lemma keeps_next_fit_loop fuel size start :
  keeps f (next_fit_loop fuel size start).
Proof.
  induction fuel as [|fuel IH]; cbn [next_fit_loop];
    [apply keeps_out_of_fuel|].
  unfold size_at, next_at.
  repeat first
    [ exact IH
    | apply keeps_ret | apply keeps_load | apply keeps_store
    | apply keeps_get_free_list | apply keeps_get_last_allocated
    | apply keeps_put_last_allocated
    | apply keeps_bind; [| intro]
    | apply keeps_if ].
Qed.

Lemma keeps_next_fit_algorithm fuel n : keeps f (next_fit_algorithm fuel n).
Proof.
  unfold next_fit_algorithm.
  apply keeps_bind; [apply keeps_next_fit_guard | intros _].
  apply keeps_bind; [apply keeps_get_last_allocated | intros start].
  apply keeps_next_fit_loop.
Qed.
End Cursor.

Section Head.
Hypothesis Hhead : forall s p, f (set_free_list s p) = f s.

Lemma keeps_put_free_list p : keeps f (put_free_list p).
Proof. intros s x s' H. inversion H. apply Hhead. Qed.

Lemma keeps_write_link l v : keeps f (write_link l v).
Proof. destruct l; [apply keeps_put_free_list | apply keeps_store]. Qed.

Lemma keeps_read_link l : keeps f (read_link l).
Proof. destruct l; [apply keeps_get_free_list | apply keeps_load]. Qed.

Ltac keeps_step IH :=
  repeat first
    [ apply IH
    | apply keeps_ret | apply keeps_load | apply keeps_store
    | apply keeps_get_free_list | apply keeps_put_free_list
    | apply keeps_write_link | apply keeps_read_link
    | apply keeps_bind; [| intro]
    | apply keeps_if ].

Lemma keeps_best_fit_scan fuel size :
  forall bb bp sd pp cur, keeps f (best_fit_scan fuel size bb bp sd pp cur).
Proof.
  induction fuel as [|fuel IH]; intros bb bp sd pp cur; cbn [best_fit_scan];
    [apply keeps_out_of_fuel|].
  unfold size_at. keeps_step IH.
Qed.

Lemma keeps_best_fit_algorithm fuel n : keeps f (best_fit_algorithm fuel n).
Proof.
  unfold best_fit_algorithm, size_at, next_at.
  apply keeps_bind; [apply keeps_get_free_list | intros cur].
  apply keeps_bind; [apply keeps_best_fit_scan | intros [bb bp]].
  keeps_step I.
Qed.

Lemma keeps_ufree_scan fuel b :
  forall prev cur, keeps f (ufree_scan fuel b prev cur).
Proof.
  induction fuel as [|fuel IH]; intros prev cur; cbn [ufree_scan];
    [apply keeps_out_of_fuel|].
  unfold next_at. keeps_step IH.
Qed.

Lemma keeps_coalescing_loop fuel :
  forall cur, keeps f (coalescing_loop fuel cur).
Proof.
  induction fuel as [|fuel IH]; intros cur; cbn [coalescing_loop];
    [apply keeps_out_of_fuel|].
  unfold size_at, next_at. keeps_step IH.
Qed.

Lemma keeps_ufree fuel ptr : keeps f (ufree fuel ptr).
Proof.
  unfold ufree, ufree_insert, coalescing_memory, size_at.
  apply keeps_if; [apply keeps_ret|].
  apply keeps_bind; [apply keeps_load | intros sz].
  apply keeps_bind.
  - apply keeps_bind; [apply keeps_get_free_list | intros hd].
    apply keeps_bind; [apply keeps_ufree_scan | intros [pv cu]].
    keeps_step I.
  - intros _. apply keeps_bind; [| intros _; apply keeps_ret].
    apply keeps_bind; [apply keeps_get_free_list | intros cur].
    apply keeps_coalescing_loop.
Qed.
End Head.
End Keeps.

(** * Round trip under best fit *)

Lemma coalesce_from_rejoins (b sz rem : Z) (post : list block) :
  forall (pre : list block) (cur : block),
    coalesce_from cur (pre ++ (b, sz) :: (b + WORD + sz, rem) :: post)
    = coalesce_from cur (pre ++ (b, sz + rem + WORD) :: post).
Proof.
  assert (Adj : (block_end (b, sz) =? fst (b + WORD + sz, rem)) = true)
    by (apply Z.eqb_eq; reflexivity).
  induction pre as [|x pre IH]; intros cur; cbn [app coalesce_from].
  - destruct (block_end cur =? fst (b, sz)) eqn:E; cbn [fst] in E |- *.
    + rewrite E. cbn [coalesce_from fst snd].
      assert (J : (block_end (fst cur, snd cur + sz + WORD) =? b + WORD + sz)
                  = true).
      { apply Z.eqb_eq. apply Z.eqb_eq in E.
        unfold block_end, WORD in *. cbn [fst snd] in *. lia. }
      rewrite J.
      replace (snd cur + sz + WORD + rem + WORD)
        with (snd cur + (sz + rem + WORD) + WORD) by lia.
      reflexivity.
    + rewrite E. cbn [coalesce_from]. cbn [fst] in Adj. cbn [fst].
      rewrite Adj. reflexivity.
  - destruct (block_end cur =? fst x); [apply IH | rewrite IH; reflexivity].
Qed.

Lemma coalesce_rejoins (b sz rem : Z) (pre post : list block) :
  coalesce (pre ++ (b, sz) :: (b + WORD + sz, rem) :: post)
  = coalesce (pre ++ (b, sz + rem + WORD) :: post).
Proof.
  destruct pre as [|x pre]; cbn [app coalesce].
  - cbn [coalesce_from].
    replace (block_end (b, sz) =? fst (b + WORD + sz, rem)) with true
      by (symmetry; apply Z.eqb_eq; reflexivity).
    reflexivity.
  - apply coalesce_from_rejoins.
Qed.

Lemma first_least_excess_unique lo hi size (l pre post pre' post' : list block)
      (e e' : block) :
  chain_ok lo hi l ->
  l = pre ++ e :: post -> l = pre' ++ e' :: post' ->
  size <= snd e -> size <= snd e' ->
  (forall x, In x pre -> size <= snd x -> snd e < snd x) ->
  (forall x, In x post -> size <= snd x -> snd e <= snd x) ->
  (forall x, In x pre' -> size <= snd x -> snd e' < snd x) ->
  (forall x, In x post' -> size <= snd x -> snd e' <= snd x) ->
  fst e = fst e'.
Proof.
  intros C E E' F F' B1 B2 B1' B2'.
  assert (I' : In e' (pre ++ e :: post)) by (rewrite <- E, E'; apply in_elt).
  assert (I : In e (pre' ++ e' :: post')) by (rewrite <- E', E; apply in_elt).
  apply in_app_or in I'. apply in_app_or in I.
  destruct I' as [I' | [I' | I']]; [| congruence |].
  - specialize (B1 e' I' F').
    destruct I as [I | [I | I]]; [| congruence |].
    + specialize (B1' e I F). lia.
    + specialize (B2' e I F). lia.
  - specialize (B2 e' I' F').
    destruct I as [I | [I | I]]; [| congruence |].
    + specialize (B1' e I F). lia.
    + rewrite E in C. pose proof (chain_ok_behind _ _ _ _ _ _ C I') as O1.
      rewrite <- E, E' in C.
      pose proof (chain_ok_behind _ _ _ _ _ _ C I) as O2. lia.
Qed.

Lemma best_fit_release_restores (s s1 : state) (l : list block) (fuel : nat)
  (n p : Z) :
  registry s l -> no_adjacent l -> 0 < n <= 2 ^ 64 - 8 ->
  best_fit_algorithm fuel n s = Done p s1 -> p <> NULL ->
  exists s2, ufree fuel p s1 = Done 0 s2 /\ registry s2 l.
Proof.
  intros Hreg Hadj Hn Hrun Hp.
  pose proof (best_fit_run s l fuel n Hreg ltac:(lia)) as R.
  rewrite Hrun in R.
  destruct (align_up_8_bounds n ltac:(lia)) as [[A1 A2] A3].
  assert (Hs8 : 8 <= align_up n WORD).
  { pose proof (Z.div_mod (align_up n WORD) 8 ltac:(lia)) as D. lia. }
  destruct R as (Hf & [(P & _) | (pre & e & post & E & P & Fit & B1 & B2 & R)]);
    [contradiction|].
  assert (Ep : p - WORD = fst e) by (subst p; lia).
  assert (Km : memory_region s1 = memory_region s).
  { apply (keeps_best_fit_algorithm memory_region (fun _ _ => eq_refl)
             (fun _ _ => eq_refl) fuel n _ _ _ Hrun). }
  assert (Kr : region_size s1 = region_size s).
  { apply (keeps_best_fit_algorithm region_size (fun _ _ => eq_refl)
             (fun _ _ => eq_refl) fuel n _ _ _ Hrun). }
  pose proof Hreg as (Hr & L & C).
  assert (Cl := C). rewrite E in Cl.
  apply chain_ok_app in Cl. destruct Cl as (cm & Cpre & Ce).
  cbn [chain_ok] in Ce. destruct Ce as (Ce1 & Ce2 & Cpost).
  assert (Hbefore : forall (h : Z) (x : block),
             In x pre -> fst x < fst (fst e, h)).
  { intros h x Hx. cbn [fst]. rewrite E in C.
    apply (chain_ok_before _ _ _ _ _ _ C Hx). }
  assert (Hlen : (length pre + S (length post) < fuel)%nat).
  { rewrite E in Hf. rewrite length_app in Hf. cbn [length] in Hf. lia. }
  assert (G : exists l1,
             registry s1 l1 /\ (length l1 < fuel)%nat /\
             chain_ok (memory_region s1) (memory_region s1 + region_size s1)
                      (insert_by_address
                         (fst e, load64 (heap s1) (fst e)) l1) /\
             coalesce (insert_by_address
                         (fst e, load64 (heap s1) (fst e)) l1) = l).
  { rewrite Km, Kr.
    destruct (align_up n WORD + WORD + WORD <? snd e) eqn:Split.
    - apply Z.ltb_lt in Split. destruct R as [Hh Rg].
      specialize (Rg ltac:(lia)). rewrite Hh.
      exists (pre ++ (fst e + WORD + align_up n WORD,
                      snd e - align_up n WORD - WORD) :: post).
      rewrite insert_by_address_app;
        [| apply Hbefore | cbn [fst]; unfold WORD in *; lia].
      split; [exact Rg|].
      split; [rewrite length_app; cbn [length]; lia|].
      split.
      + apply chain_ok_app. exists cm. split; [exact Cpre|].
        cbn [chain_ok fst snd]. unfold block_end in *. cbn [fst snd].
        unfold WORD in *.
        split; [exact Ce1|]. split; [lia|]. split; [lia|]. split; [lia|].
        replace (fst e + 8 + align_up n 8 + 8 + (snd e - align_up n 8 - 8))
          with (fst e + 8 + snd e) by lia.
        exact Cpost.
      + rewrite coalesce_rejoins.
        replace (align_up n WORD + (snd e - align_up n WORD - WORD) + WORD)
          with (snd e) by lia.
        replace (fst e, snd e) with e by (destruct e; reflexivity).
        etransitivity; [| apply (coalesce_no_adjacent l Hadj)].
        apply f_equal. symmetry. exact E.
    - destruct R as [Hh Rg]. rewrite Hh.
      exists (pre ++ post).
      rewrite insert_by_address_app; [| apply Hbefore |].
      + replace (fst e, snd e) with e by (destruct e; reflexivity).
        split; [exact Rg|].
        split; [rewrite length_app; lia|].
        split; [rewrite E in C; exact C|].
        etransitivity; [| apply (coalesce_no_adjacent l Hadj)].
        apply f_equal. symmetry. exact E.
      + destruct post as [|y post]; [exact I|]. cbn [fst].
        cbn [chain_ok] in Cpost. destruct Cpost as (Y & _).
        unfold block_end, WORD in *. lia. }
  destruct G as (l1 & Rg1 & F1 & C1 & Co).
  rewrite <- Ep in C1, Co.
  destruct (ufree_run s1 l1 fuel p Rg1 C1 F1) as (s2 & l' & U & El & Rg2 & _).
  exists s2. split; [exact U|]. rewrite <- Co, <- El. exact Rg2.
Qed.

(** X14: round trip under best fit.  On a registry that is address
    ordered, inside the region and without adjacent entries, a successful
    allocation of a positive request followed at once by the release of the
    returned pointer gives the registry back exactly as it was, and the same
    allocation made again returns the same pointer. *)
Theorem best_fit_round_trip (s : state) (l : list block) (fuel : nat)
  (n p : Z) (s1 : state)
  (Hreg : registry s l)
  (Hadj : no_adjacent l)
  (Halgo : alloc_algo s = BEST_FIT)
  (Hn : 0 < n <= 2 ^ 64 - 8)
  (Hrun : umalloc fuel n s = Done p s1)
  (Hp : p <> NULL) :
  exists s2 s3,
    ufree fuel p s1 = Done 0 s2 /\
    registry s2 l /\
    umalloc fuel n s2 = Done p s3.
Proof.
  unfold umalloc in Hrun. rewrite Halgo in Hrun.
  destruct (best_fit_release_restores s s1 l fuel n p Hreg Hadj Hn Hrun Hp)
    as (s2 & U & Rg2).
  assert (K : alloc_algo s2 = BEST_FIT).
  { rewrite <- Halgo.
    rewrite (keeps_ufree alloc_algo (fun _ _ => eq_refl)
               (fun _ _ => eq_refl) fuel p _ _ _ U).
    apply (keeps_best_fit_algorithm alloc_algo (fun _ _ => eq_refl)
             (fun _ _ => eq_refl) fuel n _ _ _ Hrun). }
  pose proof (best_fit_run s l fuel n Hreg ltac:(lia)) as R.
  rewrite Hrun in R.
  destruct R as (Hf & [(P & _) | (pre & e & post & E & P & Fit & B1 & B2 & _)]);
    [contradiction|].
  pose proof (best_fit_run s2 l fuel n Rg2 ltac:(lia)) as R2.
  destruct (best_fit_algorithm fuel n s2) as [p2 s3| |] eqn:Again;
    [| contradiction | lia].
  exists s2, s3. split; [exact U|]. split; [exact Rg2|].
  unfold umalloc. rewrite K, Again.
  destruct R2 as (_ & [(_ & _ & None) |
                       (pre' & e' & post' & E' & P' & Fit' & B1' & B2' & _)]).
  - assert (I : In e l) by (rewrite E; apply in_elt).
    specialize (None e I). lia.
  - destruct Hreg as (_ & _ & C).
    rewrite (first_least_excess_unique _ _ _ _ _ _ _ _ _ _
               C E E' Fit Fit' B1 B2 B1' B2') in P.
    congruence.
Qed.

Lemma best_fit_round_trip_witness :
  exists s2 s3,
    ufree 5 (base0 + 8) (after (umalloc 5 50) bf2) = Done 0 s2 /\
    registry s2 [(base0, 104); (base0 + 224, 3864)] /\
    umalloc 5 50 s2 = Done (base0 + 8) s3.
Proof.
  apply (best_fit_round_trip bf2 [(base0, 104); (base0 + 224, 3864)] 5 50
           (base0 + 8) (after (umalloc 5 50) bf2)).
  - registry_by_evaluation.
  - intros e1 e2 [<- | [<- | []]] [<- | [<- | []]]; vm_compute; congruence.
  - reflexivity.
  - lia.
  - apply done_intro. closed.
  - vm_compute. congruence.
Defined.

(** * Next fit *)

Lemma next_fit_algorithm_after_guard fuel n s :
  next_fit_algorithm fuel n s
  = next_fit_loop fuel (align_up n WORD)
      (last_allocated (after next_fit_guard s)) (after next_fit_guard s).
Proof.
  unfold next_fit_algorithm, bind, after, next_fit_guard.
  destruct (cursor_out_of_bounds s); reflexivity.
Qed.

Lemma next_fit_guard_fields s :
  heap (after next_fit_guard s) = heap s /\
  memory_region (after next_fit_guard s) = memory_region s /\
  region_size (after next_fit_guard s) = region_size s /\
  free_list (after next_fit_guard s) = free_list s /\
  alloc_algo (after next_fit_guard s) = alloc_algo s.
Proof.
  unfold after, next_fit_guard.
  destruct (cursor_out_of_bounds s); repeat split; reflexivity.
Qed.

Lemma next_fit_guard_idempotent s :
  after next_fit_guard (after next_fit_guard s) = after next_fit_guard s.
Proof.
  assert (G : forall t, after next_fit_guard t
                        = if cursor_out_of_bounds t
                          then set_last_allocated t (free_list t) else t).
  { intros t. unfold after, next_fit_guard.
    destruct (cursor_out_of_bounds t); reflexivity. }
  rewrite (G s). destruct (cursor_out_of_bounds s) eqn:E; rewrite G.
  - destruct (cursor_out_of_bounds (set_last_allocated s (free_list s)));
      reflexivity.
  - rewrite E. reflexivity.
Qed.

Lemma in_region_after_guard s a :
  in_region (after next_fit_guard s) a = in_region s a.
Proof.
  unfold after, next_fit_guard.
  destruct (cursor_out_of_bounds s); reflexivity.
Qed.

(** One turn of the loop on a block that is handed out whole. *)
Lemma next_fit_loop_whole fuel size start s :
  in_region s (last_allocated s) = true ->
  size <= load64 (heap s) (last_allocated s) ->
  w64 (load64 (heap s) (last_allocated s) - size - WORD) <= WORD * 2 ->
  next_fit_loop (S fuel) size start s
  = Done (w64 (last_allocated s + WORD)) s.
Proof.
  intros H1 H2 H3. cbn [next_fit_loop].
  unfold bind at 1. unfold get_last_allocated at 1.
  unfold bind at 1. unfold size_at. rewrite (load_ok s _ H1).
  replace (size <=? load64 (heap s) (last_allocated s)) with true
    by (symmetry; apply Z.leb_le; exact H2).
  cbv zeta.
  replace (WORD * 2 <? w64 (load64 (heap s) (last_allocated s) - size - WORD))
    with false by (symmetry; apply Z.ltb_ge; exact H3).
  reflexivity.
Qed.

(** One turn of the loop on a block that is split. *)
Lemma next_fit_loop_split fuel size start s :
  let c := last_allocated s in
  let remaining_size := w64 (load64 (heap s) c - size - WORD) in
  let new_block := w64 (c + size + WORD) in
  in_region s c = true ->
  size <= load64 (heap s) c ->
  WORD * 2 < remaining_size ->
  next_fit_loop (S fuel) size start s
  = if in_region s new_block then
      if in_region s (w64 (c + WORD)) then
        if in_region s (w64 (new_block + WORD)) then
          let m1 := store64 (heap s) new_block remaining_size in
          let m2 := store64 m1 (w64 (new_block + WORD))
                      (load64 m1 (w64 (c + WORD))) in
          Done (w64 (new_block + WORD))
               (set_last_allocated (set_heap s (store64 m2 c size)) new_block)
        else Fault
      else Fault
    else Fault.
Proof.
  intros c remaining_size new_block H1 H2 H3. cbn [next_fit_loop].
  unfold bind at 1. unfold get_last_allocated at 1.
  unfold bind at 1. unfold size_at.
  rewrite (load_ok s (last_allocated s) H1). fold c.
  replace (size <=? load64 (heap s) c) with true
    by (symmetry; apply Z.leb_le; exact H2).
  cbv zeta. fold remaining_size. fold new_block.
  replace (WORD * 2 <? remaining_size)
    with true by (symmetry; apply Z.ltb_lt; exact H3).
  unfold bind at 1. unfold bind at 1. unfold store at 1.
  destruct (in_region s new_block) eqn:I1; [|reflexivity].
  unfold bind at 1. unfold next_at, load at 1.
  change (in_region (set_heap s (store64 (heap s) new_block remaining_size))
            (w64 (c + WORD))) with (in_region s (w64 (c + WORD))).
  destruct (in_region s (w64 (c + WORD))) eqn:I2; [|reflexivity].
  unfold bind at 1. unfold store at 1.
  change (in_region (set_heap s (store64 (heap s) new_block remaining_size))
            (w64 (new_block + WORD)))
    with (in_region s (w64 (new_block + WORD))).
  destruct (in_region s (w64 (new_block + WORD))) eqn:I3; [|reflexivity].
  unfold bind at 1. unfold store at 1.
  match goal with
  | |- context [in_region ?t c] => change (in_region t c) with (in_region s c)
  end.
  rewrite H1. reflexivity.
Qed.

Lemma next_fit_run fuel n s :
  alloc_algo s = NEXT_FIT ->
  umalloc fuel n s
  = next_fit_loop fuel (align_up n WORD) (next_fit_cursor s)
      (after next_fit_guard s).
Proof.
  intros H. unfold umalloc. rewrite H. apply next_fit_algorithm_after_guard.
Qed.

Lemma next_fit_guard_sets_cursor s :
  after next_fit_guard s = set_last_allocated s (next_fit_cursor s).
Proof.
  unfold next_fit_cursor, after, next_fit_guard.
  destruct (cursor_out_of_bounds s); [reflexivity|].
  destruct s; reflexivity.
Qed.

Lemma registry_same_heap s s' (l : list block) :
  heap s' = heap s -> free_list s' = free_list s ->
  memory_region s' = memory_region s -> region_size s' = region_size s ->
  registry s l -> registry s' l.
Proof.
  intros H1 H2 H3 H4 (Hr & L & C). unfold registry, region_ok.
  rewrite H2, H3, H4. split; [exact Hr|]. split; [|exact C].
  apply (lseg_same_heap s); assumption.
Qed.

(** One turn of the loop on a block that is too small, whatever follows. *)
Lemma next_fit_turn_miss fuel size start s a :
  in_region s a = true ->
  in_region s (w64 (a + WORD)) = true ->
  load64 (heap s) a < size ->
  next_fit_loop (S fuel) size start (set_last_allocated s a)
  = (if (if load64 (heap s) (w64 (a + WORD)) =? NULL then free_list s
         else load64 (heap s) (w64 (a + WORD))) =? start
     then Done NULL
            (set_last_allocated s
               (if load64 (heap s) (w64 (a + WORD)) =? NULL then free_list s
                else load64 (heap s) (w64 (a + WORD))))
     else next_fit_loop fuel size start
            (set_last_allocated s
               (if load64 (heap s) (w64 (a + WORD)) =? NULL then free_list s
                else load64 (heap s) (w64 (a + WORD))))).
Proof.
  intros H1 H2 H3.
  cbn [next_fit_loop]. unfold bind at 1. unfold get_last_allocated at 1.
  change (last_allocated (set_last_allocated s a)) with a.
  unfold bind at 1. unfold size_at.
  rewrite (load_ok (set_last_allocated s a) a H1).
  change (heap (set_last_allocated s a)) with (heap s).
  replace (size <=? load64 (heap s) a) with false
    by (symmetry; apply Z.leb_gt; exact H3).
  unfold bind at 1. unfold next_at.
  rewrite (load_ok (set_last_allocated s a) (w64 (a + WORD)) H2).
  change (heap (set_last_allocated s a)) with (heap s).
  unfold bind at 1. unfold put_last_allocated at 1.
  unfold bind at 1.
  destruct (load64 (heap s) (w64 (a + WORD)) =? NULL) eqn:En;
    unfold bind, put_last_allocated, get_free_list, get_last_allocated, ret;
    cbn [last_allocated free_list set_last_allocated];
    match goal with
    | |- context [?u =? start] => destruct (u =? start)
    end; reflexivity.
Qed.

(** The scan walks over a stretch of blocks that are all too small. *)
Lemma next_fit_walk s size start :
  region_ok s ->
  forall (seg : list block) (a z lo hi : Z) (fuel : nat),
    seg <> [] ->
    lseg s a seg z -> chain_ok lo hi seg ->
    memory_region s <= lo -> hi <= memory_region s + region_size s ->
    0 <= z < 2 ^ 64 ->
    (forall x, In x seg -> snd x < size) ->
    (forall x, In x (tl seg) -> fst x <> start) ->
    next_fit_loop (length seg + fuel) size start (set_last_allocated s a)
    = (if (if z =? NULL then free_list s else z) =? start
       then Done NULL
              (set_last_allocated s (if z =? NULL then free_list s else z))
       else next_fit_loop fuel size start
              (set_last_allocated s (if z =? NULL then free_list s else z))).
Proof.
  intros [R1 R2].
  induction seg as [|x seg IH]; intros a z lo hi fuel Hne L C Hlo Hhi Hz Small Tl;
    [congruence|].
  cbn [lseg] in L. destruct L as (-> & Lsz & L).
  cbn [chain_ok] in C. destruct C as (C1 & C2 & C).
  pose proof (chain_ok_le _ _ _ C) as C3.
  unfold block_end, WORD in *.
  cbn [length Nat.add].
  assert (W : w64 (fst x + 8) = fst x + 8) by (apply w64_small; lia).
  rewrite next_fit_turn_miss;
    [| apply in_region_intro; unfold WORD; lia
     | unfold WORD; rewrite W; apply in_region_intro; unfold WORD; lia
     | rewrite Lsz; apply Small; left; reflexivity].
  unfold WORD. rewrite W.
  destruct seg as [|y seg].
  - cbn [lseg] in L. rewrite L. reflexivity.
  - pose proof L as L'. cbn [lseg] in L'. destruct L' as (Ey & _).
    pose proof C as C'. cbn [chain_ok] in C'. destruct C' as (D1 & _).
    unfold block_end, WORD in *.
    replace (load64 (heap s) (fst x + 8) =? NULL) with false
      by (symmetry; apply Z.eqb_neq; unfold NULL; lia).
    replace (load64 (heap s) (fst x + 8) =? start) with false
      by (symmetry; apply Z.eqb_neq; rewrite Ey; apply Tl; left; reflexivity).
    apply (IH _ z (fst x + 8 + snd x) hi fuel ltac:(discriminate) L C
              ltac:(lia) Hhi Hz
              ltac:(intros u Hu; apply Small; right; exact Hu)
              ltac:(intros u Hu; apply Tl; right; exact Hu)).
Qed.

(** One turn of the loop on a registry entry that fits with room for a
    header: split or not, the entry stays linked where it was. *)
Lemma next_fit_turn_hit s (l1 l2 : list block) (x : block) size start fuel :
  registry s (l1 ++ x :: l2) ->
  8 <= size -> size + 8 <= snd x ->
  exists p s',
    next_fit_loop (S fuel) size start (set_last_allocated s (fst x))
    = Done p s' /\
    if size + 3 * WORD <? snd x then
      p = fst x + size + 2 * WORD /\
      registry s' (l1 ++ (fst x, size) :: l2)
    else
      p = fst x + WORD /\ registry s' (l1 ++ x :: l2).
Proof.
  intros Hreg Hs8 Hroom.
  pose proof Hreg as ([Hbase Hend] & L & C).
  apply lseg_app in L. destruct L as (mid & Lpre & Le).
  cbn [lseg] in Le. destruct Le as (-> & Lsz & Lpost).
  apply chain_ok_app in C. destruct C as (cm & Cpre & Ce).
  cbn [chain_ok] in Ce. destruct Ce as (Ce1 & Ce2 & Cpost).
  pose proof (chain_ok_le _ _ _ Cpost) as Ce3.
  pose proof (chain_ok_le _ _ _ Cpre) as Ce4.
  unfold block_end in Cpost, Ce3. unfold WORD in *.
  set (t := set_last_allocated s (fst x)).
  assert (I : forall a, memory_region s <= a ->
                        a + 8 <= memory_region s + region_size s ->
                        in_region t a = true).
  { intros a H1 H2. apply (in_region_intro s); unfold WORD; assumption. }
  destruct (size + 3 * 8 <? snd x) eqn:Split.
  - apply Z.ltb_lt in Split.
    pose proof (next_fit_loop_split fuel size start t) as R. cbv zeta in R.
    unfold WORD in R.
    change (last_allocated t) with (fst x) in R.
    change (heap t) with (heap s) in R.
    rewrite Lsz in R.
    rewrite (w64_small (snd x - size - 8)) in R by lia.
    rewrite (w64_small (fst x + size + 8)) in R by lia.
    rewrite (w64_small (fst x + size + 8 + 8)) in R by lia.
    rewrite (w64_small (fst x + 8)) in R by lia.
    rewrite !I in R by lia.
    specialize (R eq_refl ltac:(lia) ltac:(lia)).
    set (nb := fst x + size + 8) in *.
    set (m1 := store64 (heap s) nb (snd x - size - 8)) in *.
    set (m3 := store64 (store64 m1 (nb + 8) (load64 m1 (fst x + 8)))
                       (fst x) size) in *.
    eexists _, _. split; [exact R|]. split; [subst nb; lia|].
    assert (F3 : agree_outside (fst x) (fst x + 8 + snd x) (heap s) m3).
    { subst m3 m1.
      apply (agree_outside_trans _ _ _
               (store64 (heap s) nb (snd x - size - 8)));
        [apply agree_outside_store; unfold WORD; subst nb; lia|].
      apply (agree_outside_trans _ _ _
               (store64 (store64 (heap s) nb (snd x - size - 8)) (nb + 8)
                        (load64 (store64 (heap s) nb (snd x - size - 8))
                                (fst x + 8))));
        apply agree_outside_store; unfold WORD; subst nb; lia. }
    assert (Hhdr : load64 m3 (fst x) = size).
    { subst m3. rewrite load_store_same. apply w64_small. lia. }
    assert (Hlk : load64 m3 (fst x + 8) = load64 (heap s) (fst x + 8)).
    { subst m3 m1 nb. rewrite load_store_other by lia.
      rewrite load_store_other by lia.
      rewrite load_store_other by lia. reflexivity. }
    set (s3 := set_last_allocated (set_heap t m3) nb).
    split; [split; assumption|]. split.
    + apply lseg_app. exists (fst x). split.
      * apply (lseg_frame s s3 _ _ _ (memory_region s) cm
                 (fst x) (fst x + 8 + snd x)); try assumption. left. lia.
      * cbn [lseg fst snd]. split; [reflexivity|]. split; [exact Hhdr|].
        unfold WORD.
        change (heap s3) with m3. rewrite Hlk.
        apply (lseg_frame s s3 _ _ _ (fst x + 8 + snd x)
                 (memory_region s + region_size s)
                 (fst x) (fst x + 8 + snd x)); try assumption. right. lia.
    + change (chain_ok (memory_region s) (memory_region s + region_size s)
                (l1 ++ (fst x, size) :: l2)).
      apply chain_ok_app. exists cm. split; [exact Cpre|].
      cbn [chain_ok fst snd]. unfold block_end, WORD. cbn [fst snd].
      split; [lia|]. split; [lia|].
      apply (chain_ok_weaken (fst x + 8 + snd x) _
               (memory_region s + region_size s)); try lia. exact Cpost.
  - apply Z.ltb_ge in Split.
    exists (fst x + 8), t. split.
    + rewrite (next_fit_loop_whole fuel size start t).
      * change (last_allocated t) with (fst x). unfold WORD.
        rewrite (w64_small (fst x + 8)) by lia. reflexivity.
      * change (last_allocated t) with (fst x). apply I; lia.
      * change (load64 (heap t) (last_allocated t))
          with (load64 (heap s) (fst x)). lia.
      * change (load64 (heap t) (last_allocated t))
          with (load64 (heap s) (fst x)).
        rewrite Lsz. unfold WORD. rewrite w64_small; lia.
    + split; [reflexivity|].
      apply (registry_same_heap s t); try reflexivity. exact Hreg.
Qed.

(** The first block of a list that is large enough, if there is one. *)
Lemma first_large_enough (size : Z) (l : list block) :
  (forall x, In x l -> snd x < size) \/
  exists m1 x m2,
    l = m1 ++ x :: m2 /\ size <= snd x /\ forall y, In y m1 -> snd y < size.
Proof.
  induction l as [|e l IH].
  - left. intros x [].
  - destruct (Z_lt_le_dec (snd e) size) as [Lt | Le].
    + destruct IH as [All | (m1 & x & m2 & -> & Hx & Hm)].
      * left. intros y [<- | Hy]; [exact Lt | apply All; exact Hy].
      * right. exists (e :: m1), x, m2. split; [reflexivity|].
        split; [exact Hx|]. intros y [<- | Hy]; [exact Lt | apply Hm; exact Hy].
    + right. exists [], e, l. split; [reflexivity|]. split; [exact Le|].
      intros y [].
Qed.

(** The scan walks over blocks that are too small and stops on one that
    fits. *)
Lemma next_fit_walk_hit s size start (l1 m1 l2 : list block) (x : block)
      (fuel : nat) :
  registry s (l1 ++ m1 ++ x :: l2) ->
  8 <= size -> size + 8 <= snd x ->
  (forall y, In y m1 -> snd y < size) ->
  (forall y, In y (tl (m1 ++ [x])) -> fst y <> start) ->
  exists p s',
    next_fit_loop (length m1 + S fuel) size start
      (set_last_allocated s (fst (hd x m1)))
    = Done p s' /\
    if size + 3 * WORD <? snd x then
      p = fst x + size + 2 * WORD /\
      registry s' ((l1 ++ m1) ++ (fst x, size) :: l2)
    else
      p = fst x + WORD /\ registry s' ((l1 ++ m1) ++ x :: l2).
Proof.
  intros Hreg Hs8 Hroom Small Tl.
  rewrite app_assoc in Hreg.
  destruct (next_fit_turn_hit s (l1 ++ m1) l2 x size start fuel Hreg Hs8 Hroom)
    as (p & s' & Run & Res).
  exists p, s'. split; [|exact Res].
  destruct m1 as [|e m1]; [exact Run|].
  pose proof Hreg as (Hr & L & C).
  rewrite <- app_assoc in L, C.
  apply lseg_app in L. destruct L as (a & L1 & L).
  apply lseg_app in L. destruct L as (z & Lm & Lx).
  apply chain_ok_app in C. destruct C as (c1 & C1 & C).
  apply chain_ok_app in C. destruct C as (c2 & Cm & Cx).
  pose proof (chain_ok_le _ _ _ C1) as G1.
  pose proof (chain_ok_le _ _ _ Cx) as G2.
  pose proof (chain_ok_le _ _ _ Cm) as G3.
  assert (Ea : a = fst e) by (cbn [lseg] in Lm; apply Lm).
  assert (Ez : z = fst x) by (cbn [lseg] in Lx; apply Lx).
  assert (Px : c2 <= fst x < 2 ^ 64).
  { cbn [chain_ok] in Cx. destruct Cx as (P1 & P2 & P3).
    pose proof (chain_ok_le _ _ _ P3) as P4. destruct Hr as [R1 R2].
    unfold block_end, WORD in *. lia. }
  destruct Hr as [R1 R2].
  assert (Nz : fst x <> start).
  { apply Tl. cbn [app tl]. apply in_or_app. right. left. reflexivity. }
  cbn [hd].
  rewrite (next_fit_walk s size start (conj R1 R2) (e :: m1) (fst e) (fst x)
             c1 c2 (S fuel) ltac:(discriminate)
             ltac:(rewrite <- Ea, <- Ez; exact Lm) Cm ltac:(lia) ltac:(lia)
             ltac:(lia) Small
             ltac:(intros y Hy; apply Tl; cbn [app tl] in *;
                   apply in_or_app; left; exact Hy)).
  replace (fst x =? NULL) with false
    by (symmetry; apply Z.eqb_neq; unfold NULL; lia).
  replace (fst x =? start) with false
    by (symmetry; apply Z.eqb_neq; exact Nz).
  exact Run.
Qed.

Lemma tl_snoc_In (m1 m2 post : list block) (e x y : block) :
  e :: post = m1 ++ x :: m2 -> In y (tl (m1 ++ [x])) -> In y post.
Proof.
  intros E Hy. destruct m1 as [|e' m1]; [destruct Hy|].
  cbn [app tl] in *. inversion E; subst.
  apply in_app_or in Hy. apply in_or_app.
  destruct Hy as [Hy | [<- | []]]; [left; exact Hy | right; left; reflexivity].
Qed.

Lemma hd_of_split (m1 m2 post : list block) (e x : block) :
  e :: post = m1 ++ x :: m2 -> hd x m1 = e.
Proof.
  intros E. destruct m1 as [|e' m1]; cbn [app hd] in *; congruence.
Qed.

(** X15: next fit keeps every free block linked.  On a free list that is
    address ordered and inside the region, with the cursor on one of its
    entries, a positive request for which no entry is an exact fit is
    served by a call that returns.  If no entry is large enough the result
    is null and the list is as it was.  Otherwise some entry large enough is chosen, and afterwards the
    list holds the same entries at the same addresses: the chosen entry is
    still linked, with its size cut down to the aligned request when it was
    split, and untouched when it was handed out whole. *)
Theorem next_fit_keeps_blocks_linked (s : state) (pre post : list block)
  (e : block) (fuel : nat) (n : Z)
  (Hreg : registry s (pre ++ e :: post))
  (Halgo : alloc_algo s = NEXT_FIT)
  (Hcur : next_fit_cursor s = fst e)
  (Hn : 0 < n <= 2 ^ 64 - 8)
  (Hroom : forall x, In x (pre ++ e :: post) ->
                     align_up n WORD <= snd x ->
                     align_up n WORD + WORD <= snd x)
  (Hfuel : (length (pre ++ e :: post) < fuel)%nat) :
  exists p s',
    umalloc fuel n s = Done p s' /\
    ((p = NULL /\ registry s' (pre ++ e :: post) /\
      forall x, In x (pre ++ e :: post) -> snd x < align_up n WORD) \/
     exists l1 x l2,
       pre ++ e :: post = l1 ++ x :: l2 /\
       align_up n WORD <= snd x /\
       if align_up n WORD + 3 * WORD <? snd x then
         p = fst x + align_up n WORD + 2 * WORD /\
         registry s' (l1 ++ (fst x, align_up n WORD) :: l2)
       else
         p = fst x + WORD /\ registry s' (l1 ++ x :: l2)).
Proof.
  destruct (align_up_8_bounds n ltac:(lia)) as [[A1 A2] A3].
  set (size := align_up n WORD) in *.
  assert (Hs8 : 8 <= size).
  { pose proof (Z.div_mod size 8 ltac:(lia)) as D. lia. }
  rewrite (next_fit_run fuel n s Halgo), next_fit_guard_sets_cursor, Hcur.
  fold size.
  pose proof Hreg as (Hr & L & C).
  apply lseg_app in L. destruct L as (a & Lpre & Lrest).
  assert (Ea : a = fst e) by (cbn [lseg] in Lrest; apply Lrest). subst a.
  apply chain_ok_app in C. destruct C as (cm & Cpre & Crest).
  pose proof (chain_ok_le _ _ _ Cpre) as G1.
  pose proof (chain_ok_le _ _ _ Crest) as G2.
  assert (Behind : forall y, In y post -> fst y <> fst e).
  { intros y Hy. destruct Hreg as (_ & _ & C).
    pose proof (chain_ok_behind _ _ _ _ _ _ C Hy). lia. }
  assert (Before : forall y, In y pre -> fst y <> fst e).
  { intros y Hy. destruct Hreg as (_ & _ & C).
    pose proof (chain_ok_before _ _ _ _ _ _ C Hy). lia. }
  assert (Pe : 0 < fst e < 2 ^ 64).
  { cbn [chain_ok] in Crest. destruct Crest as (P1 & P2 & P3).
    pose proof (chain_ok_le _ _ _ P3) as P4. destruct Hr as [R1 R2].
    unfold block_end, WORD in *. lia. }
  rewrite length_app in Hfuel. cbn [length] in Hfuel.
  destruct (first_large_enough size (e :: post))
    as [All | (m1 & x & m2 & E & Hx & Hm)].
  - (* nothing fits from the cursor to the end of the list *)
    pose proof (next_fit_walk s size (fst e) Hr (e :: post) (fst e) NULL
                  cm (memory_region s + region_size s)
                  (fuel - length (e :: post)) ltac:(discriminate)
                  Lrest Crest ltac:(lia) ltac:(lia)
                  ltac:(unfold NULL; lia) All Behind) as W.
    replace (length (e :: post) + (fuel - length (e :: post)))%nat
      with fuel in W by (cbn [length]; lia).
    change (NULL =? NULL) with true in W. cbv iota in W.
    destruct pre as [|y0 pre].
    + (* the cursor is on the head: the scan is back where it began *)
      cbn [lseg] in Lpre. rewrite Lpre, Z.eqb_refl in W.
      exists NULL, (set_last_allocated s (fst e)).
      split; [exact W|]. left. split; [reflexivity|].
      split; [apply (registry_same_heap s); try reflexivity; exact Hreg|].
      exact All.
    + assert (Ey : free_list s = fst y0) by (cbn [lseg] in Lpre; apply Lpre).
      assert (Ny : fst y0 <> fst e) by (apply Before; left; reflexivity).
      rewrite Ey in W.
      replace (fst y0 =? fst e) with false in W
        by (symmetry; apply Z.eqb_neq; exact Ny).
      rewrite W. cbn [length] in *.
      destruct (first_large_enough size (y0 :: pre))
        as [All2 | (m1 & x & m2 & E & Hx & Hm)].
      * (* nothing fits before the cursor either *)
        rewrite Ey in Lpre.
        pose proof (next_fit_walk s size (fst e) Hr (y0 :: pre) (fst y0)
                      (fst e) (memory_region s) cm
                      (fuel - S (length post) - length (y0 :: pre))
                      ltac:(discriminate) Lpre Cpre ltac:(lia) ltac:(lia)
                      ltac:(lia) All2
                      ltac:(intros y Hy; apply Before; right; exact Hy)) as W2.
        replace (length (y0 :: pre)
                 + (fuel - S (length post) - length (y0 :: pre)))%nat
          with (fuel - S (length post))%nat in W2 by (cbn [length]; lia).
        replace (fst e =? NULL) with false in W2
          by (symmetry; apply Z.eqb_neq; unfold NULL; lia).
        rewrite Z.eqb_refl in W2.
        exists NULL, (set_last_allocated s (fst e)).
        split; [exact W2|]. left. split; [reflexivity|].
        split; [apply (registry_same_heap s); try reflexivity; exact Hreg|].
        intros u Hu. apply in_app_or in Hu.
        destruct Hu as [Hu | Hu]; [apply All2 | apply All]; exact Hu.
      * (* the scan wraps round and stops on a block before the cursor *)
        assert (El : (y0 :: pre) ++ e :: post
                     = [] ++ m1 ++ x :: (m2 ++ e :: post)).
        { rewrite E. cbn [app]. rewrite <- app_assoc. reflexivity. }
        assert (Ix : In x ((y0 :: pre) ++ e :: post)).
        { rewrite El. cbn [app]. apply in_elt. }
        assert (Len : (length m1 + S (length m2) = S (length pre))%nat).
        { apply (f_equal (@length block)) in E.
          rewrite length_app in E. cbn [length] in E. lia. }
        destruct (next_fit_walk_hit s size (fst e) [] m1 (m2 ++ e :: post) x
                    (fuel - S (length post) - length m1 - 1)
                    ltac:(rewrite <- El; exact Hreg) Hs8
                    (Hroom x Ix Hx) Hm
                    ltac:(intros y Hy; apply Before;
                          right; apply (tl_snoc_In m1 m2 pre y0 x y E Hy)))
          as (p & s' & Run & Res).
        rewrite (hd_of_split m1 m2 pre y0 x E) in Run.
        replace (length m1 + S (fuel - S (length post) - length m1 - 1))%nat
          with (fuel - S (length post))%nat in Run by lia.
        exists p, s'. split; [exact Run|]. right.
        exists m1, x, (m2 ++ e :: post).
        split; [exact El|]. split; [exact Hx|]. exact Res.
  - (* a block from the cursor on fits *)
    assert (El : pre ++ e :: post = pre ++ m1 ++ x :: m2)
      by (rewrite E; reflexivity).
    assert (Ix : In x (pre ++ e :: post)).
    { rewrite El, app_assoc. apply in_elt. }
    assert (Len : (length m1 + S (length m2) = S (length post))%nat).
    { apply (f_equal (@length block)) in E.
      rewrite length_app in E. cbn [length] in E. lia. }
    destruct (next_fit_walk_hit s size (fst e) pre m1 m2 x
                (fuel - length m1 - 1)
                ltac:(rewrite <- El; exact Hreg) Hs8
                (Hroom x Ix Hx) Hm
                ltac:(intros y Hy; apply Behind;
                      apply (tl_snoc_In m1 m2 post e x y E Hy)))
      as (p & s' & Run & Res).
    rewrite (hd_of_split m1 m2 post e x E) in Run.
    replace (length m1 + S (fuel - length m1 - 1))%nat
      with fuel in Run by lia.
    exists p, s'. split; [exact Run|]. right.
    exists (pre ++ m1), x, m2.
    split; [rewrite El, app_assoc; reflexivity|]. split; [exact Hx|].
    exact Res.
Qed.

Lemma next_fit_keeps_blocks_linked_witness :
  exists p s',
    umalloc 5 200 nf_scan = Done p s' /\
    ((p = NULL /\
      registry s' ([] ++ (base0, 104) :: [(base0 + 128, 3928)]) /\
      forall x, In x ([] ++ (base0, 104) :: [(base0 + 128, 3928)]) ->
                snd x < align_up 200 WORD) \/
     exists l1 x l2,
       [] ++ (base0, 104) :: [(base0 + 128, 3928)] = l1 ++ x :: l2 /\
       align_up 200 WORD <= snd x /\
       if align_up 200 WORD + 3 * WORD <? snd x then
         p = fst x + align_up 200 WORD + 2 * WORD /\
         registry s' (l1 ++ (fst x, align_up 200 WORD) :: l2)
       else
         p = fst x + WORD /\ registry s' (l1 ++ x :: l2)).
Proof.
  apply (next_fit_keeps_blocks_linked nf_scan [] [(base0 + 128, 3928)]
           (base0, 104) 5 200).
  - registry_by_evaluation.
  - reflexivity.
  - closed.
  - lia.
  - intros x [<- | [<- | []]]; vm_compute; intros H;
      first [congruence | contradiction H; reflexivity].
  - cbn. lia.
Defined.

(** X16: the split path of next fit.  When the block under the cursor
    exceeds the aligned request by more than three words, the block is cut
    in two, its header is set to the aligned request, and the cursor moves to
    the remainder; what the caller receives is the payload of the remainder,
    which begins at the remainder's link field, while the remainder's header
    records the remaining size.  The free list head does not move. *)
Theorem next_fit_split_returns_remainder (s : state) (fuel : nat) (n : Z)
  (Halgo : alloc_algo s = NEXT_FIT)
  (Hregion : region_ok s)
  (Hn : 0 < n <= 2 ^ 64 - 8)
  (Hlow : memory_region s <= next_fit_cursor s)
  (Hblock : next_fit_cursor s + WORD + load64 (heap s) (next_fit_cursor s)
            <= memory_region s + region_size s)
  (Hsplit : align_up n WORD + 3 * WORD < load64 (heap s) (next_fit_cursor s)) :
  let c := next_fit_cursor s in
  let size := align_up n WORD in
  exists s',
    umalloc (S fuel) n s = Done (c + size + 2 * WORD) s' /\
    last_allocated s' = c + size + WORD /\
    free_list s' = free_list s /\
    load64 (heap s') c = size /\
    load64 (heap s') (c + size + WORD)
    = load64 (heap s) c - size - WORD /\
    load64 (heap s') (c + size + 2 * WORD)
    = w64 (load64 (heap s) (c + WORD)).
Proof.
  intros c size.
  destruct (align_up_8_bounds n ltac:(lia)) as [[A1 A2] A3].
  fold size in A1, A2, A3, Hsplit. fold c in Hlow, Hblock, Hsplit.
  destruct Hregion as [R1 R2].
  destruct (next_fit_guard_fields s) as (Gh & Gm & Gr & Gf & _).
  set (s0 := after next_fit_guard s) in *.
  assert (Ec : last_allocated s0 = c) by reflexivity.
  set (cs := load64 (heap s) c) in *.
  unfold WORD in *.
  assert (Hs8 : 8 <= size).
  { pose proof (Z.div_mod size 8 ltac:(lia)) as D. lia. }
  assert (W1 : w64 (c + size + 8) = c + size + 8) by (apply w64_small; lia).
  assert (W2 : w64 (c + size + 8 + 8) = c + size + 8 + 8)
    by (apply w64_small; lia).
  assert (W3 : w64 (c + 8) = c + 8) by (apply w64_small; lia).
  assert (W4 : w64 (cs - size - 8) = cs - size - 8) by (apply w64_small; lia).
  assert (W5 : w64 size = size) by (apply w64_small; lia).
  assert (I : forall a, memory_region s <= a ->
                        a + 8 <= memory_region s + region_size s ->
                        in_region s0 a = true).
  { intros a H1 H2. unfold s0. rewrite in_region_after_guard.
    apply in_region_intro; unfold WORD; assumption. }
  rewrite (next_fit_run (S fuel) n s Halgo).
  change (align_up n WORD) with size. change (next_fit_cursor s) with c.
  change (after next_fit_guard s) with s0.
  pose proof (next_fit_loop_split fuel size c s0) as L. cbv zeta in L.
  unfold WORD in L. rewrite Ec, Gh in L. fold cs in L.
  rewrite W1, W2, W3, W4 in L.
  rewrite !I in L by lia.
  specialize (L eq_refl ltac:(lia) ltac:(lia)).
  rewrite L. eexists. split.
  { f_equal. lia. }
  cbn [last_allocated free_list heap set_heap set_last_allocated].
  split; [reflexivity|]. split; [exact Gf|].
  split; [rewrite load_store_same; exact W5|].
  split.
  - rewrite load_store_other by lia.
    rewrite load_store_other by lia.
    rewrite load_store_same. exact W4.
  - replace (c + size + 2 * 8) with (c + size + 8 + 8) by lia.
    rewrite load_store_other by lia.
    rewrite load_store_same.
    rewrite load_store_other by lia. reflexivity.
Qed.

Lemma next_fit_split_returns_remainder_witness :
  exists s',
    umalloc 1 100 (fresh NEXT_FIT) = Done (base0 + 104 + 2 * WORD) s' /\
    last_allocated s' = base0 + 104 + WORD /\
    free_list s' = free_list (fresh NEXT_FIT) /\
    load64 (heap s') base0 = 104 /\
    load64 (heap s') (base0 + 104 + WORD)
    = load64 (heap (fresh NEXT_FIT)) base0 - 104 - WORD /\
    load64 (heap s') (base0 + 104 + 2 * WORD)
    = w64 (load64 (heap (fresh NEXT_FIT)) (base0 + WORD)).
Proof.
  apply (next_fit_split_returns_remainder (fresh NEXT_FIT) 0 100).
  - reflexivity.
  - split; closed.
  - lia.
  - closed.
  - closed.
  - closed.
Defined.

(** X17: the unsplit path of next fit.  When the block under the cursor
    exceeds the aligned request by one to three words, the call returns its
    payload and changes nothing but the cursor reset of the guard: the block
    stays in the free list and stays under the cursor, so the same call made
    again returns the same pointer. *)
Theorem next_fit_whole_block_twice (s : state) (fuel : nat) (n : Z)
  (Halgo : alloc_algo s = NEXT_FIT)
  (Hregion : region_ok s)
  (Hlow : memory_region s <= next_fit_cursor s)
  (Hhigh : next_fit_cursor s + WORD <= memory_region s + region_size s)
  (Hfit : align_up n WORD + WORD <= load64 (heap s) (next_fit_cursor s)
          <= align_up n WORD + 3 * WORD) :
  let s0 := after next_fit_guard s in
  umalloc (S fuel) n s = Done (next_fit_cursor s + WORD) s0 /\
  umalloc (S fuel) n s0 = Done (next_fit_cursor s + WORD) s0.
Proof.
  intros s0.
  destruct Hregion as [R1 R2].
  destruct (next_fit_guard_fields s) as (Gh & Gm & Gr & Gf & Ga).
  fold s0 in Gh, Gm, Gr, Gf, Ga.
  assert (Ec : last_allocated s0 = next_fit_cursor s) by reflexivity.
  assert (L : next_fit_loop (S fuel) (align_up n WORD) (next_fit_cursor s) s0
              = Done (next_fit_cursor s + WORD) s0).
  { rewrite (next_fit_loop_whole fuel (align_up n WORD) (next_fit_cursor s) s0).
    - rewrite Ec. f_equal. apply w64_small. unfold WORD in *. lia.
    - rewrite Ec. unfold s0. rewrite in_region_after_guard.
      apply in_region_intro; assumption.
    - rewrite Ec, Gh. lia.
    - rewrite Ec, Gh. rewrite w64_small; unfold WORD in *; lia. }
  split.
  - rewrite (next_fit_run (S fuel) n s Halgo). exact L.
  - rewrite (next_fit_run (S fuel) n s0) by (rewrite Ga; exact Halgo).
    unfold next_fit_cursor. unfold s0.
    rewrite next_fit_guard_idempotent. exact L.
Qed.

Lemma next_fit_whole_block_twice_witness :
  umalloc 1 4064 (fresh NEXT_FIT)
  = Done (next_fit_cursor (fresh NEXT_FIT) + WORD)
         (after next_fit_guard (fresh NEXT_FIT)) /\
  umalloc 1 4064 (after next_fit_guard (fresh NEXT_FIT))
  = Done (next_fit_cursor (fresh NEXT_FIT) + WORD)
         (after next_fit_guard (fresh NEXT_FIT)).
Proof.
  apply (next_fit_whole_block_twice (fresh NEXT_FIT) 0 4064).
  - reflexivity.
  - split; closed.
  - closed.
  - closed.
  - split; closed.
Defined.

(** X18: an exact fit under next fit.  When the block under the cursor has
    just the aligned size asked for, [current_size - size - sizeof(size_t)]
    wraps round below zero and the test for a split succeeds.  With two
    words of the region behind the block, the header of a remainder of
    [2^64 - 8] bytes is written over the word that follows the block, the
    cursor moves there, and the caller receives the address one word
    further on, which lies outside the block that fitted. *)
Theorem next_fit_exact_fit_overruns_block (s : state) (fuel : nat) (n : Z)
  (Halgo : alloc_algo s = NEXT_FIT)
  (Hregion : region_ok s)
  (Hn : 0 < n <= 2 ^ 64 - 8)
  (Hlow : memory_region s <= next_fit_cursor s)
  (Hfit : load64 (heap s) (next_fit_cursor s) = align_up n WORD)
  (Hroom : next_fit_cursor s + align_up n WORD + 3 * WORD
           <= memory_region s + region_size s) :
  let c := next_fit_cursor s in
  let size := align_up n WORD in
  exists s',
    umalloc (S fuel) n s = Done (c + WORD + size + WORD) s' /\
    last_allocated s' = c + WORD + size /\
    load64 (heap s') (c + WORD + size) = 2 ^ 64 - WORD /\
    load64 (heap s') c = size /\
    free_list s' = free_list s.
Proof.
  intros c size.
  destruct (align_up_8_bounds n ltac:(lia)) as [[A1 A2] A3].
  destruct Hregion as [R1 R2].
  destruct (next_fit_guard_fields s) as (Gh & Gm & Gr & Gf & _).
  set (s0 := after next_fit_guard s) in *.
  assert (Ec : last_allocated s0 = c) by reflexivity.
  change (next_fit_cursor s) with c in Hlow, Hfit, Hroom.
  change (align_up n WORD) with size in A1, A2, A3, Hfit, Hroom.
  assert (Hs8 : 8 <= size).
  { pose proof (Z.div_mod size 8 ltac:(lia)) as D. lia. }
  assert (I : forall a, memory_region s <= a ->
                        a + 8 <= memory_region s + region_size s ->
                        in_region s0 a = true).
  { intros a H1 H2. unfold s0. rewrite in_region_after_guard.
    apply in_region_intro; unfold WORD; assumption. }
  rewrite (next_fit_run (S fuel) n s Halgo).
  change (align_up n WORD) with size. change (next_fit_cursor s) with c.
  change (after next_fit_guard s) with s0.
  pose proof (next_fit_loop_split fuel size c s0) as L. cbv zeta in L.
  unfold WORD in *. rewrite Ec, Gh, Hfit in L.
  replace (size - size - 8) with (-8) in L by lia.
  change (w64 (-8)) with (2 ^ 64 - 8) in L.
  rewrite (w64_small (c + size + 8)) in L by lia.
  rewrite (w64_small (c + size + 8 + 8)) in L by lia.
  rewrite (w64_small (c + 8)) in L by lia.
  rewrite !I in L by lia.
  specialize (L eq_refl ltac:(lia) ltac:(lia)).
  rewrite L. eexists. split.
  { f_equal. lia. }
  cbn [last_allocated free_list heap set_heap set_last_allocated].
  split; [lia|]. split.
  - replace (c + 8 + size) with (c + size + 8) by lia.
    rewrite load_store_other by lia.
    rewrite load_store_other by lia.
    rewrite load_store_same. reflexivity.
  - split; [|exact Gf].
    rewrite load_store_same. apply w64_small. lia.
Qed.

Lemma next_fit_exact_fit_overruns_block_witness :
  exists s',
    umalloc 1 104 nf_scan = Done (base0 + WORD + 104 + WORD) s' /\
    last_allocated s' = base0 + WORD + 104 /\
    load64 (heap s') (base0 + WORD + 104) = 2 ^ 64 - WORD /\
    load64 (heap s') base0 = 104 /\
    free_list s' = free_list nf_scan.
Proof.
  apply (next_fit_exact_fit_overruns_block nf_scan 0 104).
  - reflexivity.
  - split; closed.
  - lia.
  - closed.
  - closed.
  - closed.
Defined.

(** * The splitter [allocate_memory_block] *)

Lemma link_after_cons (x y : block) (l : list block) :
  link_after (x :: y :: l) = link_after (y :: l).
Proof.
  unfold link_after. cbn [rev].
  destruct (rev l) as [|q r]; reflexivity.
Qed.

(** The search for the predecessor stops on the last block before [block]. *)
Lemma find_prev_loop_spec s (blk : Z) :
  region_ok s ->
  forall (pre : list block) (a lo : Z) (fuel : nat),
    pre <> [] ->
    lseg s a pre blk -> chain_ok lo blk pre ->
    memory_region s <= lo -> blk <= memory_region s + region_size s ->
    (length pre <= fuel)%nat ->
    exists q,
      find_prev_loop fuel blk a s = Done q s /\
      q <> NULL /\ 0 <= q + WORD < 2 ^ 64 /\
      link_after pre = Field (q + WORD).
Proof.
  intros [R1 R2].
  induction pre as [|x pre IH]; intros a lo fuel Hne L C Hlo Hhi Hf;
    [congruence|].
  destruct fuel as [|fuel]; [cbn [length] in Hf; lia|].
  cbn [lseg] in L. destruct L as (-> & Lsz & L).
  cbn [chain_ok] in C. destruct C as (C1 & C2 & C).
  pose proof (chain_ok_le _ _ _ C) as C3.
  unfold block_end, WORD in *.
  cbn [find_prev_loop].
  replace (fst x =? NULL) with false
    by (symmetry; apply Z.eqb_neq; unfold NULL; lia).
  unfold bind at 1. unfold next_at, WORD.
  rewrite (w64_small (fst x + 8)) by lia.
  rewrite load_ok by (apply in_region_intro; unfold WORD; lia).
  destruct pre as [|y pre].
  - cbn [lseg] in L. rewrite L, Z.eqb_refl.
    exists (fst x). split; [reflexivity|].
    split; [unfold NULL; lia|]. split; [lia|]. reflexivity.
  - assert (Hy : load64 (heap s) (fst x + 8) <> blk).
    { cbn [lseg] in L. destruct L as (-> & _).
      cbn [chain_ok] in C. destruct C as (D1 & D2 & D).
      pose proof (chain_ok_le _ _ _ D) as D3. unfold block_end, WORD in *. lia. }
    replace (load64 (heap s) (fst x + 8) =? blk) with false
      by (symmetry; apply Z.eqb_neq; exact Hy).
    destruct (IH (load64 (heap s) (fst x + 8)) (fst x + 8 + snd x) fuel
                ltac:(discriminate) L C ltac:(lia) Hhi
                ltac:(cbn [length] in *; lia))
      as (q & F & Q1 & Q2 & Q3).
    exists q. split; [exact F|]. split; [exact Q1|]. split; [exact Q2|].
    rewrite link_after_cons. exact Q3.
Qed.

(** X19: the splitter [allocate_memory_block], which no strategy calls.
    Applied to a block of a well-formed registry with a request of at least
    one word, it returns the payload of the block.  When the block exceeds
    the request by more than two words it writes the request into the
    header and a remainder header behind the payload, but links nothing to
    the remainder: the block stays in the free list with its reduced size.
    Otherwise the header is kept and the block is unlinked. *)
Theorem allocate_memory_block_on_registry (s : state)
  (pre post : list block) (e : block) (fuel : nat) (requested_size : Z)
  (Hreg : registry s (pre ++ e :: post))
  (Hreq : WORD <= requested_size < 2 ^ 64 - 2 * WORD)
  (Hfuel : (length pre <= fuel)%nat) :
  exists s',
    allocate_memory_block fuel (fst e) requested_size s
    = Done (fst e + WORD) s' /\
    if requested_size + WORD + WORD <? snd e then
      load64 (heap s') (fst e) = requested_size /\
      load64 (heap s') (fst e + WORD + requested_size)
      = snd e - requested_size - WORD /\
      registry s' (pre ++ (fst e, requested_size) :: post)
    else
      load64 (heap s') (fst e) = snd e /\
      registry s' (pre ++ post).
Proof.
  destruct Hreg as ([Hbase Hend] & L & C).
  apply lseg_app in L. destruct L as (mid & Lpre & Le).
  cbn [lseg] in Le. destruct Le as (-> & Lsz & Lpost).
  apply chain_ok_app in C. destruct C as (cm & Cpre & Ce).
  cbn [chain_ok] in Ce. destruct Ce as (Ce1 & Ce2 & Cpost).
  pose proof (chain_ok_le _ _ _ Cpost) as Ce3.
  pose proof (chain_ok_le _ _ _ Cpre) as Ce4.
  unfold block_end in Cpost, Ce3. unfold WORD in *.
  pose proof (lseg_head_range s _ post _ _ Lpost Cpost ltac:(lia) ltac:(lia))
    as Hnxt.
  set (size := requested_size) in *.
  unfold allocate_memory_block.
  unfold bind at 1. unfold bind at 1. unfold size_at.
  rewrite load_ok by (apply in_region_intro; unfold WORD; lia).
  rewrite Lsz. unfold WORD.
  rewrite (w64_small (size + 8 + 8)) by lia.
  rewrite (w64_small (fst e + 8)) by lia.
  destruct (size + 8 + 8 <? snd e) eqn:Split.
  - (* the block is split *)
    apply Z.ltb_lt in Split. cbv zeta.
    rewrite (w64_small (fst e + 8 + size)) by lia.
    rewrite (w64_small (snd e - size - 8)) by lia.
    set (nb := fst e + 8 + size).
    rewrite (w64_small (nb + 8)) by lia.
    unfold bind, next_at, WORD.
    rewrite store_ok by (apply in_region_intro; unfold WORD; lia).
    rewrite (w64_small (fst e + 8)) by lia.
    rewrite load_ok
      by (rewrite set_heap_in_region; apply in_region_intro; unfold WORD; lia).
    rewrite store_ok
      by (rewrite set_heap_in_region; apply in_region_intro; unfold WORD; lia).
    rewrite store_ok
      by (rewrite !set_heap_in_region; apply in_region_intro; unfold WORD; lia).
    cbn [heap set_heap]. unfold ret.
    set (m1 := store64 (heap s) nb (snd e - size - 8)).
    set (nxt1 := load64 m1 (fst e + 8)).
    set (m3 := store64 (store64 m1 (nb + 8) nxt1) (fst e) size).
    set (s3 := set_heap _ m3).
    assert (F3 : agree_outside (fst e) (fst e + 8 + snd e) (heap s) m3).
    { subst m3 m1.
      apply (agree_outside_trans _ _ _ (store64 (heap s) nb (snd e - size - 8)));
        [apply agree_outside_store; unfold WORD; lia|].
      apply (agree_outside_trans _ _ _
               (store64 (store64 (heap s) nb (snd e - size - 8)) (nb + 8) nxt1));
        apply agree_outside_store; unfold WORD; lia. }
    exists s3. split; [reflexivity|].
    assert (Hhdr : load64 m3 (fst e) = size).
    { subst m3. rewrite load_store_same. apply w64_small. lia. }
    assert (Hnb : load64 m3 nb = snd e - size - 8).
    { subst m3 m1. rewrite load_store_other by lia.
      rewrite load_store_other by lia.
      rewrite load_store_same. apply w64_small. lia. }
    assert (Hlk : load64 m3 (fst e + 8) = load64 (heap s) (fst e + 8)).
    { subst m3 m1. rewrite load_store_other by lia.
      rewrite load_store_other by lia.
      rewrite load_store_other by lia. reflexivity. }
    split; [exact Hhdr|]. split; [exact Hnb|].
    split; [split; assumption|]. split.
    + apply lseg_app. exists (fst e). split.
      * apply (lseg_frame s s3 _ _ _ (memory_region s) cm
                 (fst e) (fst e + 8 + snd e)); try assumption. left. lia.
      * cbn [lseg fst snd]. split; [reflexivity|]. split; [exact Hhdr|].
        unfold WORD. cbn [heap s3 set_heap]. rewrite Hlk.
        apply (lseg_frame s s3 _ _ _ (fst e + 8 + snd e)
                 (memory_region s + region_size s)
                 (fst e) (fst e + 8 + snd e)); try assumption. right. lia.
    + change (chain_ok (memory_region s) (memory_region s + region_size s)
                (pre ++ (fst e, size) :: post)).
      apply chain_ok_app. exists cm. split; [exact Cpre|].
      cbn [chain_ok fst snd]. unfold block_end, WORD. cbn [fst snd].
      split; [lia|]. split; [lia|].
      apply (chain_ok_weaken (fst e + 8 + snd e) _
               (memory_region s + region_size s)); try lia. exact Cpost.
  - (* the block is unlinked *)
    apply Z.ltb_ge in Split.
    unfold bind at 1. unfold bind at 1. unfold next_at, WORD.
    rewrite (w64_small (fst e + 8)) by lia.
    rewrite load_ok by (apply in_region_intro; unfold WORD; lia).
    unfold bind at 1. unfold get_free_list at 1.
    destruct (relink s pre (fst e) (load64 (heap s) (fst e + 8))
                (memory_region s) cm (conj Hbase Hend) Lpre Cpre
                (Z.le_refl _) ltac:(lia) Hnxt)
      as (s4 & W & L4 & F4 & H4 & G1 & G2 & G3 & G4).
    assert (Run : (if fst e =? free_list s
                   then put_free_list (load64 (heap s) (fst e + 8))
                   else
                     prev_block <- find_prev_loop fuel (fst e) (free_list s) ;;
                     if prev_block =? NULL then ret tt
                     else store (w64 (prev_block + 8))
                                (load64 (heap s) (fst e + 8))) s
                  = Done tt s4).
    { destruct pre as [|x pre].
      - cbn [lseg] in Lpre. rewrite Lpre, Z.eqb_refl. exact W.
      - assert (Hx : fst e <> free_list s).
        { cbn [lseg] in Lpre. destruct Lpre as (-> & _).
          cbn [chain_ok] in Cpre. destruct Cpre as (D1 & D2 & D).
          pose proof (chain_ok_le _ _ _ D) as D3.
          unfold block_end, WORD in *. lia. }
        replace (fst e =? free_list s) with false
          by (symmetry; apply Z.eqb_neq; exact Hx).
        destruct (find_prev_loop_spec s (fst e) (conj Hbase Hend) (x :: pre)
                    (free_list s) (memory_region s) fuel ltac:(discriminate)
                    Lpre
                    (chain_ok_weaken _ _ _ _ _ (Z.le_refl _) Ce1 Cpre)
                    (Z.le_refl _) ltac:(lia) Hfuel)
          as (q & F & Q1 & Q2 & Q3).
        unfold bind at 1. rewrite F.
        replace (q =? NULL) with false by (symmetry; apply Z.eqb_neq; exact Q1).
        unfold WORD in Q2, Q3. rewrite (w64_small (q + 8)) by lia.
        rewrite Q3 in W. exact W. }
    unfold bind in Run. rewrite Run. unfold ret.
    exists s4. split; [reflexivity|].
    split; [rewrite (F4 (fst e)) by lia; exact Lsz|].
    split; [split; [rewrite G1 | rewrite G1, G2]; assumption|].
    split.
    + apply lseg_app. exists (load64 (heap s) (fst e + 8)). split; [exact L4|].
      apply (lseg_frame s s4 _ _ _ (fst e + 8 + snd e)
               (memory_region s + region_size s) (memory_region s) cm);
        try assumption. right. lia.
    + rewrite G1, G2. apply chain_ok_app. exists cm. split; [exact Cpre|].
      apply (chain_ok_weaken (fst e + 8 + snd e) cm
               (memory_region s + region_size s)); try lia. exact Cpost.
Qed.

Lemma allocate_memory_block_on_registry_witness :
  exists s',
    allocate_memory_block 1 (base0 + 224) 50 bf2 = Done (base0 + 224 + WORD) s' /\
    load64 (heap s') (base0 + 224) = 50 /\
    load64 (heap s') (base0 + 224 + WORD + 50) = 3864 - 50 - WORD /\
    registry s' [(base0, 104); (base0 + 224, 50)].
Proof.
  apply (allocate_memory_block_on_registry bf2 [(base0, 104)] []
           (base0 + 224, 3864) 1 50).
  - registry_by_evaluation.
  - unfold WORD. lia.
  - cbn. lia.
Defined.

(** * First fit behind the head of the list *)

(** One turn of the first-fit loop on a block that is too small. *)
Lemma first_fit_loop_miss fuel size prev cur s :
  cur <> NULL ->
  in_region s cur = true ->
  in_region s (w64 (cur + WORD)) = true ->
  load64 (heap s) cur < size ->
  first_fit_loop (S fuel) size prev cur s
  = first_fit_loop fuel size cur (load64 (heap s) (w64 (cur + WORD))) s.
Proof.
  intros H0 H1 H2 H3. cbn [first_fit_loop].
  replace (cur =? NULL) with false by (symmetry; apply Z.eqb_neq; exact H0).
  unfold bind at 1. unfold size_at. rewrite (load_ok s _ H1).
  replace (size <=? load64 (heap s) cur) with false
    by (symmetry; apply Z.leb_gt; exact H3).
  unfold bind at 1. unfold next_at. rewrite (load_ok s _ H2). reflexivity.
Qed.

(** One turn of the first-fit loop on a block that fits and has a
    predecessor. *)
Lemma first_fit_loop_hit_behind fuel size prev cur s :
  region_ok s ->
  memory_region s <= prev -> prev + 16 <= cur ->
  cur + 8 + load64 (heap s) cur <= memory_region s + region_size s ->
  8 <= size -> size <= load64 (heap s) cur ->
  size mod 8 = 0 -> load64 (heap s) cur mod 8 = 0 ->
  0 <= load64 (heap s) (cur + 8) < 2 ^ 64 ->
  exists s',
    first_fit_loop (S fuel) size prev cur s = Done (cur + 8) s' /\
    free_list s' = free_list s /\
    load64 (heap s') (prev + 1) = load64 (heap s) (cur + 8) /\
    load64 (heap s') cur
    = if size + 8 <? load64 (heap s) cur then size else load64 (heap s) cur.
Proof.
  intros [Hbase Hend] P1 P2 Hin Hs8 Fit Hm1 Hm2 Hnxt.
  set (cs := load64 (heap s) cur) in *.
  cbn [first_fit_loop].
  replace (cur =? NULL) with false
    by (symmetry; apply Z.eqb_neq; unfold NULL; lia).
  replace (prev =? NULL) with false
    by (symmetry; apply Z.eqb_neq; unfold NULL; lia).
  unfold bind at 1. unfold size_at.
  rewrite load_ok by (apply in_region_intro; unfold WORD; lia).
  fold cs.
  replace (size <=? cs) with true by (symmetry; apply Z.leb_le; exact Fit).
  unfold WORD.
  rewrite (w64_small (size + 8)) by lia.
  rewrite (w64_small (cur + 8)) by lia.
  rewrite (w64_small (prev + 1)) by lia.
  destruct (size + 8 <? cs) eqn:Split.
  - apply Z.ltb_lt in Split.
    assert (Hroom : size + 16 <= cs).
    { pose proof (Z.div_mod size 8 ltac:(lia)) as D1.
      pose proof (Z.div_mod cs 8 ltac:(lia)) as D2. lia. }
    cbv zeta.
    rewrite (w64_small (cur + 8 + size)) by lia.
    rewrite (w64_small (cs - size - 8)) by lia.
    set (nb := cur + 8 + size).
    rewrite (w64_small (nb + 8)) by lia.
    unfold bind, next_at, WORD.
    rewrite (w64_small (cur + 8)) by lia.
    rewrite store_ok by (apply in_region_intro; unfold WORD; lia).
    rewrite load_ok
      by (rewrite set_heap_in_region; apply in_region_intro; unfold WORD; lia).
    rewrite store_ok
      by (rewrite set_heap_in_region; apply in_region_intro; unfold WORD; lia).
    rewrite store_ok
      by (rewrite !set_heap_in_region; apply in_region_intro; unfold WORD; lia).
    rewrite store_ok
      by (rewrite !set_heap_in_region; apply in_region_intro; unfold WORD; lia).
    rewrite load_ok
      by (rewrite !set_heap_in_region; apply in_region_intro; unfold WORD; lia).
    rewrite store_ok
      by (rewrite !set_heap_in_region; apply in_region_intro; unfold WORD; lia).
    unfold ret. cbn [heap set_heap].
    eexists. split; [reflexivity|].
    cbn [heap set_heap free_list].
    split; [reflexivity|]. split.
    + rewrite load_store_same.
      rewrite !load_store_other by lia. apply w64_small. exact Hnxt.
    + rewrite !load_store_other by lia.
      rewrite load_store_same. apply w64_small. lia.
  - apply Z.ltb_ge in Split.
    unfold bind, next_at, WORD.
    rewrite (w64_small (cur + 8)) by lia.
    unfold ret.
    rewrite load_ok by (apply in_region_intro; unfold WORD; lia).
    rewrite store_ok by (apply in_region_intro; unfold WORD; lia).
    eexists. split; [reflexivity|].
    cbn [heap set_heap free_list].
    split; [reflexivity|]. split.
    + rewrite load_store_same. apply w64_small. exact Hnxt.
    + rewrite load_store_other by lia. reflexivity.
Qed.

Lemma first_fit_loop_behind s size (q e : block) (post : list block) :
  region_ok s -> 8 <= size -> size mod 8 = 0 ->
  forall (pre : list block) (prev a lo : Z) (fuel : nat),
    lseg s a (pre ++ q :: e :: post) NULL ->
    chain_ok lo (memory_region s + region_size s) (pre ++ q :: e :: post) ->
    memory_region s <= lo ->
    (forall x, In x (pre ++ [q]) -> snd x < size) ->
    size <= snd e -> snd e mod 8 = 0 ->
    (length pre + 1 < fuel)%nat ->
    exists s',
      first_fit_loop fuel size prev a s = Done (fst e + 8) s' /\
      free_list s' = free_list s /\
      load64 (heap s') (fst q + 1) = load64 (heap s) (fst e + 8) /\
      load64 (heap s') (fst e)
      = if size + 8 <? snd e then size else snd e.
Proof.
  intros Hreg Hs8 Hm.
  pose proof Hreg as [Hbase Hend].
  induction pre as [|x pre IH]; intros prev a lo fuel L C Hlo Small Fit He8 Hf.
  - cbn [app] in *.
    destruct fuel as [|[|fuel]]; [cbn in Hf; lia | cbn in Hf; lia |].
    cbn [lseg] in L. destruct L as (-> & Hq & Enx & He & L).
    cbn [chain_ok] in C. destruct C as (C1 & C2 & C3 & C4 & C5).
    pose proof (chain_ok_le _ _ _ C5) as C6.
    unfold block_end, WORD in *.
    pose proof (lseg_head_range s _ post _ _ L C5 ltac:(lia) ltac:(lia))
      as Hnxt.
    assert (Hq' : load64 (heap s) (fst q) < size)
      by (rewrite Hq; apply Small; left; reflexivity).
    rewrite first_fit_loop_miss;
      [| unfold NULL; lia
       | apply in_region_intro; unfold WORD; lia
       | unfold WORD; rewrite w64_small by lia;
         apply in_region_intro; unfold WORD; lia
       | exact Hq'].
    unfold WORD. rewrite (w64_small (fst q + 8)) by lia.
    rewrite Enx.
    destruct (first_fit_loop_hit_behind fuel size (fst q) (fst e) s Hreg
                ltac:(lia) ltac:(lia) ltac:(rewrite He; lia) Hs8
                ltac:(rewrite He; exact Fit) Hm
                ltac:(rewrite He; exact He8) Hnxt)
      as (s' & Run & F1 & F2 & F3).
    exists s'. rewrite He in F3. auto.
  - cbn [app] in *.
    destruct fuel as [|fuel]; [cbn in Hf; lia|].
    cbn [lseg] in L. destruct L as (-> & Hx & L).
    cbn [chain_ok] in C. destruct C as (C1 & C2 & C3).
    pose proof (chain_ok_le _ _ _ C3) as C4.
    unfold block_end, WORD in *.
    assert (Hx' : load64 (heap s) (fst x) < size)
      by (rewrite Hx; apply Small; left; reflexivity).
    rewrite first_fit_loop_miss;
      [| unfold NULL; lia
       | apply in_region_intro; unfold WORD; lia
       | unfold WORD; rewrite w64_small by lia;
         apply in_region_intro; unfold WORD; lia
       | exact Hx'].
    unfold WORD. rewrite (w64_small (fst x + 8)) by lia.
    apply (IH (fst x) _ (fst x + 8 + snd x) fuel L C3 ltac:(lia)
              ltac:(intros y Hy; apply Small; right; exact Hy) Fit He8
              ltac:(cbn [length] in Hf; lia)).
Qed.

(** X20: first fit behind the head of the list.  When the first block that
    fits has a predecessor in the free list, the address of its successor is
    written one byte, not one word, behind the start of the predecessor:
    the eight bytes at [prev_block + 1] hold it afterwards.  The write
    covers seven bytes of the predecessor's header and one byte of its link
    field.  The head of the list is not moved. *)
Theorem first_fit_links_one_byte_off (s : state) (pre post : list block)
  (q e : block) (fuel : nat) (n : Z)
  (Hreg : registry s (pre ++ q :: e :: post))
  (Hmul : snd e mod 8 = 0)
  (Halgo : alloc_algo s = FIRST_FIT)
  (Hn : 0 < n <= 2 ^ 64 - 8)
  (Hsmall : forall x, In x (pre ++ [q]) -> snd x < align_up n WORD)
  (Hfit : align_up n WORD <= snd e)
  (Hfuel : (length pre + 1 < fuel)%nat) :
  exists s',
    umalloc fuel n s = Done (fst e + WORD) s' /\
    free_list s' = free_list s /\
    load64 (heap s') (fst q + 1) = load64 (heap s) (fst e + WORD) /\
    load64 (heap s') (fst e)
    = if align_up n WORD + WORD <? snd e then align_up n WORD else snd e.
Proof.
  destruct Hreg as (Hr & L & C).
  destruct (align_up_8_bounds n ltac:(lia)) as [[A1 A2] A3].
  assert (Hs8 : 8 <= align_up n WORD).
  { pose proof (Z.div_mod (align_up n WORD) 8 ltac:(lia)) as D. lia. }
  unfold umalloc. rewrite Halgo.
  unfold first_fit_algorithm, bind, get_free_list.
  replace (mask_down (w64 (n + 7)) 8) with (align_up n WORD)
    by (unfold align_up, WORD; do 2 f_equal; lia).
  apply (first_fit_loop_behind s (align_up n WORD) q e post Hr Hs8 A3
           pre NULL (free_list s) (memory_region s) fuel L C (Z.le_refl _)
           Hsmall Hfit Hmul Hfuel).
Qed.

Lemma first_fit_links_one_byte_off_witness :
  exists s',
    umalloc 3 200 ff2 = Done (base0 + 224 + WORD) s' /\
    free_list s' = free_list ff2 /\
    load64 (heap s') (base0 + 1) = load64 (heap ff2) (base0 + 224 + WORD) /\
    load64 (heap s') (base0 + 224) = 200.
Proof.
  apply (first_fit_links_one_byte_off ff2 [] [] (base0, 104)
           (base0 + 224, 3864) 3 200).
  - registry_by_evaluation.
  - reflexivity.
  - reflexivity.
  - lia.
  - intros x [<- | []]. reflexivity.
  - vm_compute. congruence.
  - cbn. lia.
Defined.
